(** * qthread: a shallow embedding of the cooperative threading library

    The development follows [src/qthread.c] and [include/qthread.h].
    Pointers are integers ([NULL] is [0]); the thread records that the
    library allocates live in a finite map from addresses to records,
    the stack buffers in a second map from addresses to their sizes.
    Every loop of the source is a [Fixpoint] on a fuel argument. A call
    that transfers control ([setcontext], [swapcontext]) is a function
    from the world before it to the world at the transfer, together with
    the transfer it makes.

    The programs that come with the library (the demonstration program
    with [worker_thread], [examples/main.c] and [examples/irq.c]) are
    written in continuation-passing style and run on a small machine that
    keeps, for every captured context, the code that a resumption of it
    runs. *)

From stdpp Require Import gmap list fin_maps strings.
From Stdlib Require Import ZArith Lia.

Local Open Scope Z_scope.

(** ** Results of the embedded code *)

(** [Done a]: the code ran to [a]. [Fault]: the program does not go on
    (a null or dangling dereference, a double free, or the process
    exits). [Timeout]: a loop was still running when the fuel ran out. *)
Inductive result (A : Type) : Type :=
| Done (a : A)
| Fault
| Timeout.
Arguments Done {A} a.
Arguments Fault {A}.
Arguments Timeout {A}.

Definition bind {A B : Type} (m : result A) (k : A → result B) : result B :=
  match m with
  | Done a => k a
  | Fault => Fault
  | Timeout => Timeout
  end.

Notation "'let*' x ':=' m 'in' k" := (bind m (fun x => k))
  (at level 10, x name, m at level 100, k at level 200).
Notation "'let*' ' p ':=' m 'in' k" := (bind m (fun x => let 'p := x in k))
  (at level 10, p pattern, m at level 100, k at level 200).

(** ** Data model (qthread.h) *)

Definition NULL : Z := 0.

(** [#define DEFAULT_STACK_SIZE (64 * 1024)] *)
Definition DEFAULT_STACK_SIZE : Z := 64 * 1024.

(** [typedef enum { READY, RUNNING, FINISHED } thread_state;] *)
Inductive thread_state : Set := READY | RUNNING | FINISHED.

Global Instance thread_state_eq_dec : EqDecision thread_state.
Proof. solve_decision. Defined.

(** What a [ucontext_t] resumes: either the entry point installed by
    [makecontext] (the wrapper applied to the start routine and its
    argument), or a point of the program captured by [getcontext] or
    [swapcontext], named by an opaque token. *)
Inductive mcontext : Set :=
| Entry (func arg : Z)
| Resume (point : Z).

Record ucontext_t : Set := {
  uc_mcontext : mcontext;
  ss_sp : Z;
  ss_size : Z;
  uc_link : Z
}.

(** [struct thread] *)
Record thread_t : Set := {
  context : ucontext_t;
  stack : Z;
  state : thread_state;
  next : Z;
  retval : Z
}.

(** The globals of qthread.c together with the allocated memory. *)
Record world : Type := {
  threads : gmap Z thread_t;
  buffers : gmap Z Z;
  stack_size : Z;
  thread_list : Z;
  current : Z
}.

(** [static size_t stack_size = DEFAULT_STACK_SIZE; thread_list = NULL;
    current = NULL;] and nothing allocated. *)
Definition initial_world : world :=
  {| threads := ∅; buffers := ∅; stack_size := DEFAULT_STACK_SIZE;
     thread_list := NULL; current := NULL |}.

(** *** Field assignments *)

Definition set_mcontext (m : mcontext) (c : ucontext_t) : ucontext_t :=
  {| uc_mcontext := m; ss_sp := ss_sp c; ss_size := ss_size c; uc_link := uc_link c |}.
Definition set_ss_sp (p : Z) (c : ucontext_t) : ucontext_t :=
  {| uc_mcontext := uc_mcontext c; ss_sp := p; ss_size := ss_size c; uc_link := uc_link c |}.
Definition set_ss_size (n : Z) (c : ucontext_t) : ucontext_t :=
  {| uc_mcontext := uc_mcontext c; ss_sp := ss_sp c; ss_size := n; uc_link := uc_link c |}.
Definition set_uc_link (p : Z) (c : ucontext_t) : ucontext_t :=
  {| uc_mcontext := uc_mcontext c; ss_sp := ss_sp c; ss_size := ss_size c; uc_link := p |}.

Definition upd_context (f : ucontext_t → ucontext_t) (r : thread_t) : thread_t :=
  {| context := f (context r); stack := stack r; state := state r;
     next := next r; retval := retval r |}.
Definition set_stack (p : Z) (r : thread_t) : thread_t :=
  {| context := context r; stack := p; state := state r;
     next := next r; retval := retval r |}.
Definition set_state (s : thread_state) (r : thread_t) : thread_t :=
  {| context := context r; stack := stack r; state := s;
     next := next r; retval := retval r |}.
Definition set_next (p : Z) (r : thread_t) : thread_t :=
  {| context := context r; stack := stack r; state := state r;
     next := p; retval := retval r |}.
Definition set_retval (v : Z) (r : thread_t) : thread_t :=
  {| context := context r; stack := stack r; state := state r;
     next := next r; retval := v |}.

Definition with_threads (h : gmap Z thread_t) (w : world) : world :=
  {| threads := h; buffers := buffers w; stack_size := stack_size w;
     thread_list := thread_list w; current := current w |}.
Definition with_buffers (b : gmap Z Z) (w : world) : world :=
  {| threads := threads w; buffers := b; stack_size := stack_size w;
     thread_list := thread_list w; current := current w |}.
Definition set_stack_size (n : Z) (w : world) : world :=
  {| threads := threads w; buffers := buffers w; stack_size := n;
     thread_list := thread_list w; current := current w |}.
Definition set_thread_list (p : Z) (w : world) : world :=
  {| threads := threads w; buffers := buffers w; stack_size := stack_size w;
     thread_list := p; current := current w |}.
Definition set_current (p : Z) (w : world) : world :=
  {| threads := threads w; buffers := buffers w; stack_size := stack_size w;
     thread_list := thread_list w; current := p |}.

(** *** Memory accesses *)

(** Reading [*p]. *)
Definition load (p : Z) (w : world) : result thread_t :=
  match threads w !! p with
  | Some r => Done r
  | None => Fault
  end.

(** An assignment [p->field = ...]. *)
Definition update (p : Z) (f : thread_t → thread_t) (w : world) : result world :=
  let* r := load p w in
  Done (with_threads (<[p := f r]> (threads w)) w).

(** [malloc(sizeof(thread_t))]: the environment decides the outcome, [p]
    is the address it returns ([NULL] on failure) and [junk] the
    uninitialised contents of the new record. *)
Definition malloc_thread (p : Z) (junk : thread_t) (w : world) : world :=
  if p =? NULL then w else with_threads (<[p := junk]> (threads w)) w.

(** [malloc(n)] for a stack buffer. *)
Definition malloc (p : Z) (n : Z) (w : world) : world :=
  if p =? NULL then w else with_buffers (<[p := n]> (buffers w)) w.

(** [free(p)] on a stack buffer; [free(NULL)] does nothing. *)
Definition free (p : Z) (w : world) : result world :=
  if p =? NULL then Done w
  else match buffers w !! p with
       | Some _ => Done (with_buffers (delete p (buffers w)) w)
       | None => Fault
       end.

(** [free(t)] on a thread record. *)
Definition free_thread (p : Z) (w : world) : result world :=
  match threads w !! p with
  | Some _ => Done (with_threads (delete p (threads w)) w)
  | None => Fault
  end.

Definition is_ready (s : thread_state) : bool :=
  match s with READY => true | _ => false end.
Definition is_finished (s : thread_state) : bool :=
  match s with FINISHED => true | _ => false end.

(** ** The library (qthread.c) *)

(** [void qthread_set_stacksize(size_t size) { stack_size = size; }] *)
Definition qthread_set_stacksize (size : Z) (w : world) : world :=
  set_stack_size size w.

(** [thread_t *qthread_self() { return current; }] *)
Definition qthread_self (w : world) : Z := current w.

(** How a call of the scheduler hands over control. *)
Inductive transfer : Set :=
| NoSwitch                      (* the call returns to its caller *)
| SetContext (t : Z)            (* setcontext(&t->context) *)
| SwapContext (prev t : Z).     (* swapcontext(&prev->context, &t->context) *)

Global Instance transfer_eq_dec : EqDecision transfer.
Proof. solve_decision. Defined.

(** The record a transfer hands control to. *)
Definition dispatched (tr : transfer) : option Z :=
  match tr with
  | NoSwitch => None
  | SetContext t => Some t
  | SwapContext _ t => Some t
  end.

(** Initial call of the scheduler:
    [do { if (t->state == READY) break; t = t->next; } while (t != thread_list);] *)
Fixpoint scan_from_head (fuel : nat) (w : world) (t : Z) : result Z :=
  match fuel with
  | O => Timeout
  | S fuel' =>
      let* r := load t w in
      if is_ready (state r) then Done t
      else if next r =? thread_list w then Done (next r)
           else scan_from_head fuel' w (next r)
  end.

(** Normal call:
    [while (t != current) { if (t->state == READY) break; t = t->next; }] *)
Fixpoint scan_after_current (fuel : nat) (w : world) (t : Z) : result Z :=
  match fuel with
  | O => Timeout
  | S fuel' =>
      if t =? current w then Done t
      else
        let* r := load t w in
        if is_ready (state r) then Done t
        else scan_after_current fuel' w (next r)
  end.

(** The first half of [qscheduler], up to and including
    [if (t->state != READY) return;]: the READY record [t] the scheduler
    settles on, or [None] when it returns early. *)
Definition sched_select (fuel : nat) (w : world) : result (option Z) :=
  if thread_list w =? NULL then Done None
  else if current w =? NULL then
    let* t := scan_from_head fuel w (thread_list w) in
    let* rt := load t w in
    if is_ready (state rt) then Done (Some t) else Done None
  else
    let* c := load (current w) w in
    let* t := scan_after_current fuel w (next c) in
    let* rt := load t w in
    if is_ready (state rt) then Done (Some t)
    else
      let* c' := load (current w) w in
      if is_ready (state c') then
        let* rt' := load (current w) w in
        if is_ready (state rt') then Done (Some (current w)) else Done None
      else Done None.

(** The second half of [qscheduler]: the context switch. [here] names the
    point of the running thread that [swapcontext] saves. *)
Definition sched_switch (here : Z) (t : Z) (w : world) : result (world * transfer) :=
  if current w =? NULL then
    let w1 := set_current t w in
    let* _ := load (current w1) w1 in
    Done (w1, SetContext t)
  else if t =? current w then Done (w, NoSwitch)
  else
    let prev := current w in
    let w1 := set_current t w in
    let* _ := load (current w1) w1 in
    let* w2 := update prev (upd_context (set_mcontext (Resume here))) w1 in
    Done (w2, SwapContext prev t).

(** [void qscheduler()] *)
Definition qscheduler (fuel : nat) (here : Z) (w : world) : result (world * transfer) :=
  let* sel := sched_select fuel w in
  match sel with
  | None => Done (w, NoSwitch)
  | Some t => sched_switch here t w
  end.

(** [void qthread_exit(void *value)] *)
Definition qthread_exit (fuel : nat) (value here : Z) (w : world) : result (world * transfer) :=
  let* w1 := update (current w) (set_retval value) w in
  let* w2 := update (current w1) (set_state FINISHED) w1 in
  qscheduler fuel here w2.

(** What the environment decides during one call of [qthread_create]. *)
Record alloc_env : Set := {
  m_thread : Z;        (* what malloc(sizeof(thread_t)) returns, NULL on failure *)
  m_junk : thread_t;   (* the uninitialised contents of that record *)
  m_stack : Z;         (* what malloc(stack_size) returns, NULL on failure *)
  getcontext_ret : Z;  (* what getcontext returns *)
  getcontext_pt : Z    (* the point of the caller that getcontext captures *)
}.

(** [temp = thread_list; while (temp->next != thread_list) temp = temp->next;] *)
Fixpoint find_tail (fuel : nat) (w : world) (temp : Z) : result Z :=
  match fuel with
  | O => Timeout
  | S fuel' =>
      let* r := load temp w in
      if next r =? thread_list w then Done temp
      else find_tail fuel' w (next r)
  end.

(** The block "Insert into circular list" of [qthread_create]. *)
Definition list_insert (fuel : nat) (t : Z) (w : world) : result world :=
  if thread_list w =? NULL then
    let w1 := set_thread_list t w in
    update t (set_next t) w1
  else
    let* temp := find_tail fuel w (thread_list w) in
    let* w1 := update temp (set_next t) w in
    update t (set_next (thread_list w1)) w1.

(** [int qthread_create(thread_t **new_thread, void (*start_routine)(void *), void *args)].
    [new_thread] tells whether the out-pointer is non-null. The result is
    the new world, the returned integer and the handle stored through
    [new_thread], if any. *)
Definition qthread_create (fuel : nat) (env : alloc_env) (new_thread : bool)
    (start_routine args : Z) (w : world) : result (world * Z * option Z) :=
  let t := m_thread env in
  let w1 := malloc_thread t (m_junk env) w in
  if t =? NULL then Done (w1, -1, None)
  else
    let* w2 := update t (set_stack (m_stack env))
                 (malloc (m_stack env) (stack_size w1) w1) in
    let* r2 := load t w2 in
    if stack r2 =? NULL then
      let* w3 := free_thread t w2 in
      Done (w3, -1, None)
    else
      let* w3 := update t (set_state READY) w2 in
      if getcontext_ret env =? -1 then
        let* r3 := load t w3 in
        let* w4 := free (stack r3) w3 in
        let* w5 := free_thread t w4 in
        Done (w5, -1, None)
      else
        let* w4 := update t (upd_context (set_mcontext (Resume (getcontext_pt env)))) w3 in
        let* r4 := load t w4 in
        let* w5 := update t (upd_context (set_ss_sp (stack r4))) w4 in
        let* w6 := update t (upd_context (set_ss_size (stack_size w5))) w5 in
        let* w7 := update t (upd_context (set_uc_link NULL)) w6 in
        let* w8 := update t (upd_context (set_mcontext (Entry start_routine args))) w7 in
        let* w9 := list_insert fuel t w8 in
        Done (w9, 0, if new_thread then Some t else None).

(** [while (curr != thread && curr != thread_list) { prev = curr; curr = curr->next; }] *)
Fixpoint find_prev (fuel : nat) (w : world) (thread prev curr : Z) : result (Z * Z) :=
  match fuel with
  | O => Timeout
  | S fuel' =>
      if negb (curr =? thread) && negb (curr =? thread_list w) then
        let* r := load curr w in
        find_prev fuel' w thread curr (next r)
      else Done (prev, curr)
  end.

(** The block [if (thread_list) { ... }] of [qthread_join]. *)
Definition list_remove (fuel : nat) (thread : Z) (w : world) : result world :=
  if thread_list w =? NULL then Done w
  else
    let prev := thread_list w in
    let* hd := load (thread_list w) w in
    let curr := next hd in
    if (prev =? curr) && (prev =? thread) then Done (set_thread_list NULL w)
    else
      let* '(prev, curr) := find_prev fuel w thread prev curr in
      if curr =? thread then
        let* rc := load curr w in
        let* w1 := update prev (set_next (next rc)) w in
        if thread_list w1 =? curr then
          let* rp := load prev w1 in
          Done (set_thread_list (next rp) w1)
        else Done w1
      else Done w.

(** What one entry into [qthread_join] does. *)
Inductive join_result : Set :=
| JoinYield (tr : transfer)            (* target not FINISHED: one turn of the waiting loop *)
| JoinDone (ret : Z) (out : option Z). (* returned integer, value stored through retval *)

(** [int qthread_join(thread_t *thread, void **retval)]. The body of the
    waiting loop calls the scheduler, which may hand control to another
    thread; the loop test is evaluated again when control comes back. One
    application of this function is the code from a loop test on: either
    one call of the scheduler ([JoinYield]), or, once the target is
    FINISHED, the rest of the function ([JoinDone]). [retval_ptr] tells
    whether the out-pointer is non-null. *)
Definition qthread_join (fuel : nat) (thread : Z) (retval_ptr : bool) (here : Z)
    (w : world) : result (world * join_result) :=
  let* r := load thread w in
  if negb (is_finished (state r)) then
    let* '(w1, tr) := qscheduler fuel here w in
    Done (w1, JoinYield tr)
  else
    let out := if retval_ptr then Some (retval r) else None in
    let* w1 := list_remove fuel thread w in
    let* r1 := load thread w1 in
    let* w2 := free (stack r1) w1 in
    let* w3 := free_thread thread w2 in
    Done (w3, JoinDone 0 out).

(** Modelled from the spec: [qthread_init] is declared in qthread.h
    ("Initializes the scheduler by saving the main context as a thread")
    but no source file defines it. The spec: init "wraps that ambient
    execution context as a Thread Record with stack = null ... and inserts
    it into the registry so the scheduler can eventually return control to
    it". [host] is the address of the host's record and [junk] its
    contents before the call; the record is READY, as in the demonstration
    program that does these steps by hand, and it is inserted the way
    [qthread_create] inserts a record. *)
Definition qthread_init (fuel : nat) (host : Z) (junk : thread_t) (here : Z)
    (w : world) : result world :=
  let w1 := with_threads (<[host := junk]> (threads w)) w in
  let* w2 := update host (upd_context (set_mcontext (Resume here))) w1 in
  let* w3 := update host (set_state READY) w2 in
  let* w4 := update host (set_stack NULL) w3 in
  list_insert fuel host w4.

(** Step 1 of the demonstration program's [main], "Incorporate the main
    thread into the thread list":
    [getcontext(&main_thread.context); main_thread.state = READY;
     main_thread.stack = NULL; main_thread.next = &main_thread;
     thread_list = &main_thread;]
    [host] is the address of the local [main_thread] and [junk] its
    contents on entry. When [getcontext] fails the program exits, so there
    is no world to go on from. *)
Definition main_incorporate (host : Z) (junk : thread_t) (getcontext_ret here : Z)
    (w : world) : result world :=
  let w1 := with_threads (<[host := junk]> (threads w)) w in
  if getcontext_ret =? -1 then Fault
  else
    let* w2 := update host (upd_context (set_mcontext (Resume here))) w1 in
    let* w3 := update host (set_state READY) w2 in
    let* w4 := update host (set_stack NULL) w3 in
    let* w5 := update host (set_next host) w4 in
    Done (set_thread_list host w5).

(** ** Sequences of library calls *)

Inductive call : Set :=
| SetStacksize (size : Z)
| Self
| Scheduler (here : Z)
| Exit (value here : Z)
| Create (env : alloc_env) (new_thread : bool) (start_routine args : Z)
| Join (thread : Z) (retval_ptr : bool) (here : Z).

Inductive event : Set :=
| Returned
| SelfIs (t : Z)
| Scheduled (tr : transfer)
| Exited (tr : transfer)
| Created (ret : Z) (handle : option Z)
| JoinWaited (tr : transfer)
| Joined (ret : Z) (out : option Z).

Definition exec (fuel : nat) (c : call) (w : world) : result (world * event) :=
  match c with
  | SetStacksize size => Done (qthread_set_stacksize size w, Returned)
  | Self => Done (w, SelfIs (qthread_self w))
  | Scheduler here =>
      let* '(w1, tr) := qscheduler fuel here w in Done (w1, Scheduled tr)
  | Exit value here =>
      let* '(w1, tr) := qthread_exit fuel value here w in Done (w1, Exited tr)
  | Create env new_thread start_routine args =>
      let* '(w1, ret, h) := qthread_create fuel env new_thread start_routine args w in
      Done (w1, Created ret h)
  | Join thread retval_ptr here =>
      let* '(w1, j) := qthread_join fuel thread retval_ptr here w in
      Done (w1, match j with
                | JoinYield tr => JoinWaited tr
                | JoinDone ret out => Joined ret out
                end)
  end.

(** [malloc] never returns an address that is still allocated. *)
Definition env_fresh (env : alloc_env) (w : world) : bool :=
  (if m_thread env =? NULL then true
   else bool_decide (threads w !! m_thread env = None)) &&
  (if m_stack env =? NULL then true
   else bool_decide (buffers w !! m_stack env = None)).

Definition admissible (c : call) (w : world) : bool :=
  match c with
  | Create env _ _ _ => env_fresh env w
  | _ => true
  end.

(** A trace of calls; a trace in which [malloc] breaks its contract is
    not a trace of the program and is rejected. *)
Fixpoint run (fuel : nat) (cs : list call) (w : world) : result (world * list event) :=
  match cs with
  | [] => Done (w, [])
  | c :: cs' =>
      if admissible c w then
        let* '(w1, e) := exec fuel c w in
        let* '(w2, es) := run fuel cs' w1 in
        Done (w2, e :: es)
      else Fault
  end.

(** ** The registry invariant *)

Definition state_at (w : world) (a : Z) : option thread_state :=
  state <$> threads w !! a.

Definition ready_at (w : world) (a : Z) : bool :=
  match threads w !! a with
  | Some r => is_ready (state r)
  | None => false
  end.

(** The first READY record of a list of addresses, in list order. *)
Fixpoint first_ready (w : world) (l : list Z) : option Z :=
  match l with
  | [] => None
  | a :: l' => if ready_at w a then Some a else first_ready w l'
  end.

(** [chain h l stop]: every address of [l] holds a record whose [next]
    is the following address of [l]; the [next] of the last one is [stop]. *)
Fixpoint chain (h : gmap Z thread_t) (l : list Z) (stop : Z) : Prop :=
  match l with
  | [] => True
  | a :: l' => (∃ r, h !! a = Some r ∧ next r = hd stop l') ∧ chain h l' stop
  end.

(** [thread_list] is the head of a circular chain through [l]. *)
Definition linked (w : world) (l : list Z) : Prop :=
  NoDup l ∧ (NULL ∉ l) ∧ thread_list w = hd NULL l ∧
  chain (threads w) l (hd NULL l).

(** The registry holds exactly the records of [l], in this order from the
    head: a single circular chain in which every live record occurs once. *)
Definition registry (w : world) (l : list Z) : Prop :=
  linked w l ∧ dom (threads w) = list_to_set l.

(** Every record owns its stack buffer: the buffer is allocated and no
    other record points to it. *)
Definition owns_stacks (w : world) : Prop :=
  ∀ a r, threads w !! a = Some r → stack r ≠ NULL →
    is_Some (buffers w !! stack r) ∧
    ∀ a' r', threads w !! a' = Some r' → stack r' = stack r → a' = a.

Definition no_running (w : world) : Prop :=
  ∀ a, state_at w a ≠ Some RUNNING.

(** ** Definitions used by the statements and proofs *)

(** The records of [w'] agree with those of [w] on the field [f]. *)
Definition agree {B : Type} (f : thread_t → B) (w w' : world) : Prop :=
  ∀ a, f <$> threads w' !! a = f <$> threads w !! a.

(** The record that a successful [qthread_create] has written before it
    links it into the list. *)
Definition new_record (env : alloc_env) (start_routine args size nx : Z) : thread_t :=
  {| context := {| uc_mcontext := Entry start_routine args; ss_sp := m_stack env;
                   ss_size := size; uc_link := NULL |};
     stack := m_stack env; state := READY; next := nx;
     retval := retval (m_junk env) |}.

Definition create_fails (env : alloc_env) : Prop :=
  m_thread env = NULL ∨ m_stack env = NULL ∨ getcontext_ret env = -1.

Global Instance create_fails_dec env : Decision (create_fails env).
Proof. unfold create_fails. apply _. Defined.

Definition forget_next (r : thread_t) : thread_t := set_next NULL r.

Definition le_res {A : Type} (x y : result A) : Prop :=
  ∀ a, x = Done a → y = Done a.

(** The list without the first occurrence of [t]. *)
Fixpoint without (t : Z) (l : list Z) : list Z :=
  match l with
  | [] => []
  | a :: l' => if decide (a = t) then l' else a :: without t l'
  end.

(** The registry after a call that ended with the event [e]. *)
Definition registry_after (c : call) (e : event) (l : list Z) : list Z :=
  match c, e with
  | Create env _ _ _, Created ret _ => if ret =? 0 then l ++ [m_thread env] else l
  | Join thread _ _, Joined _ _ => without thread l
  | _, _ => l
  end.

(** The transfer of control that an event reports. *)
Definition event_transfer (e : event) : transfer :=
  match e with
  | Scheduled tr | Exited tr | JoinWaited tr => tr
  | _ => NoSwitch
  end.

(** The part of a record that only its own thread changes. *)
Definition outcome (r : thread_t) : thread_state * Z := (state r, retval r).

(** The invariants are decidable. *)
Global Instance chain_dec h l stop : Decision (chain h l stop).
Proof.
  induction l as [|a l IH]; cbn [chain]; [apply _|].
  destruct (h !! a) as [r|] eqn:E.
  - destruct (decide (next r = hd stop l)) as [Hn|Hn].
    + destruct IH as [Hl|Hl]; [left|right]; [by eauto|tauto].
    + right. intros [(r' & Hr' & Hn') _]. congruence.
  - right. intros [(r' & Hr' & _) _]. congruence.
Defined.

Global Instance linked_dec w l : Decision (linked w l).
Proof. unfold linked. apply _. Defined.

Global Instance registry_dec w l : Decision (registry w l).
Proof. unfold registry. apply _. Defined.

Global Instance owns_stacks_dec w : Decision (owns_stacks w).
Proof.
  unfold owns_stacks.
  change (Decision (map_Forall (λ a r, stack r ≠ NULL →
            is_Some (buffers w !! stack r) ∧
            map_Forall (λ a' r', stack r' = stack r → a' = a) (threads w))
          (threads w))).
  apply _.
Defined.

(** Example worlds and traces. *)
Definition mk_record (st : thread_state) (nx stk rv : Z) : thread_t :=
  {| context := {| uc_mcontext := Entry 7 0; ss_sp := stk;
                   ss_size := DEFAULT_STACK_SIZE; uc_link := NULL |};
     stack := stk; state := st; next := nx; retval := rv |}.

(** Records 1 → 2 → 3 → 1; 1 is current, 2 is FINISHED, 3 is READY. *)
Definition trio : world :=
  {| threads := {[ 1 := mk_record READY 2 101 0;
                   2 := mk_record FINISHED 3 102 5;
                   3 := mk_record READY 1 103 0 ]};
     buffers := {[ 101 := DEFAULT_STACK_SIZE; 102 := DEFAULT_STACK_SIZE;
                   103 := DEFAULT_STACK_SIZE ]};
     stack_size := DEFAULT_STACK_SIZE; thread_list := 1; current := 1 |}.

(** A single READY record, which is current. *)
Definition solo : world :=
  {| threads := {[ 1 := mk_record READY 1 101 0 ]};
     buffers := {[ 101 := DEFAULT_STACK_SIZE ]};
     stack_size := DEFAULT_STACK_SIZE; thread_list := 1; current := 1 |}.

(** [t] is the first READY record of [l]. *)
Definition first_ready_in (w : world) (l : list Z) (t : Z) : Prop :=
  ∃ skipped rest, l = skipped ++ t :: rest ∧ state_at w t = Some READY ∧
    Forall (λ a, state_at w a ≠ Some READY) skipped.

(** The handle a call created, the handle a call joined. *)
Definition created_handle (c : call) (e : event) : list Z :=
  match c, e with
  | Create env _ _ _, Created ret _ => if ret =? 0 then [m_thread env] else []
  | _, _ => []
  end.


Fixpoint handles (f : call → event → list Z) (cs : list call) (es : list event)
    : list Z :=
  match cs, es with
  | c :: cs', e :: es' => f c e ++ handles f cs' es'
  | _, _ => []
  end.

Definition junk0 : thread_t :=
  {| context := {| uc_mcontext := Resume 0; ss_sp := 0; ss_size := 0; uc_link := 0 |};
     stack := 0; state := RUNNING; next := 0; retval := 0 |}.

(** An environment in which both allocations and [getcontext] succeed. *)
Definition env_ok (t s : Z) : alloc_env :=
  {| m_thread := t; m_junk := junk0; m_stack := s;
     getcontext_ret := 0; getcontext_pt := 0 |}.


(** The statement that a call of exit never hands control back to its
    caller. *)
Definition exit_never_returns : Prop :=
  ∀ fuel value here w w' tr,
    qthread_exit fuel value here w = Done (w', tr) → tr ≠ NoSwitch.

(** The statement that the record the scheduler dispatches is current
    and RUNNING. *)
Definition dispatch_marks_running : Prop :=
  ∀ fuel here w w' tr t,
    qscheduler fuel here w = Done (w', tr) → dispatched tr = Some t →
    current w' = t ∧ state_at w' t = Some RUNNING.

(** An environment in which [getcontext] fails after both allocations. *)
Definition env_bad_context : alloc_env :=
  {| m_thread := 2; m_junk := junk0; m_stack := 102;
     getcontext_ret := -1; getcontext_pt := 0 |}.



Definition is_set_stacksize (c : call) : bool :=
  match c with SetStacksize _ => true | _ => false end.


(** [solo] after its only thread has exited with 42. *)
Definition solo_done : world :=
  with_threads {[ 1 := mk_record FINISHED 1 101 42 ]} solo.

(** The host's record as [qthread_init] leaves it. *)
Definition host_record (junk : thread_t) (here nx : Z) : thread_t :=
  {| context := set_mcontext (Resume here) (context junk);
     stack := NULL; state := READY; next := nx; retval := retval junk |}.

(** The records that a list of events dispatched, in order. *)
Definition targets (es : list event) : list Z :=
  omap (λ e, dispatched (event_transfer e)) es.

(** [solo] and a FINISHED record 5 that is in no list. *)
Definition solo_stray : world :=
  with_threads (<[5 := mk_record FINISHED 5 0 77]> (threads solo)) solo.


Definition is_create (c : call) : bool :=
  match c with Create _ _ _ _ => true | _ => false end.

(** ** Programs that use the library *)

(** The code of a client of the library, in continuation-passing style:
    each statement of the C source is a constructor that carries the rest
    of the function. [Return] ends the function. *)
Inductive prog : Type :=
| Return
| Undefined                                      (* use of an indeterminate value *)
| LibcExit (status : Z)                          (* exit(status) *)
| Printf (format : string) (args : list Z) (k : prog)
| FprintfStderr (format : string) (args : list Z) (k : prog)
| MallocInt (k : Z → prog)                       (* malloc(sizeof(int)) *)
| ReadInt (p : Z) (k : Z → prog)                 (* the int that p points to *)
| WriteInt (p : Z) (v : Z) (k : prog)            (* the int at p becomes v *)
| FreeInt (p : Z) (k : prog)                     (* free(p) *)
| Srand (k : prog)                               (* srand(time(NULL)) *)
| Sleep (seconds : Z) (k : prog)                 (* sleep(seconds) *)
| Rand (k : Z → prog)                            (* rand() *)
| Forever (body : prog)                          (* while (1) body *)
| LocalThread (k : Z → prog)                     (* thread_t main_thread; *)
| GetContext (p : Z) (k : Z → prog)              (* getcontext(&p->context) *)
| Assign (p : Z) (f : thread_t → thread_t) (k : prog)   (* p->field = ... *)
| AssignThreadList (p : Z) (k : prog)            (* thread_list = p *)
| CallSetStacksize (size : Z) (k : prog)
| CallSelf (k : Z → prog)
| CallScheduler (k : prog)
| CallExit (value : Z) (k : prog)
| CallCreate (new_thread : bool) (start_routine args : Z) (k : Z → option Z → prog)
| CallJoin (thread : Z) (retval_ptr : bool) (k : Z → option Z → prog).

(** [p; q]: when [p] returns, go on with [q]. *)
Fixpoint prog_seq (p q : prog) : prog :=
  match p with
  | Return => q
  | Undefined => Undefined
  | LibcExit status => LibcExit status
  | Printf format args k => Printf format args (prog_seq k q)
  | FprintfStderr format args k => FprintfStderr format args (prog_seq k q)
  | MallocInt k => MallocInt (λ a, prog_seq (k a) q)
  | ReadInt p k => ReadInt p (λ v, prog_seq (k v) q)
  | WriteInt p v k => WriteInt p v (prog_seq k q)
  | FreeInt p k => FreeInt p (prog_seq k q)
  | Srand k => Srand (prog_seq k q)
  | Sleep seconds k => Sleep seconds (prog_seq k q)
  | Rand k => Rand (λ r, prog_seq (k r) q)
  | Forever body => Forever body
  | LocalThread k => LocalThread (λ a, prog_seq (k a) q)
  | GetContext p k => GetContext p (λ r, prog_seq (k r) q)
  | Assign p f k => Assign p f (prog_seq k q)
  | AssignThreadList p k => AssignThreadList p (prog_seq k q)
  | CallSetStacksize size k => CallSetStacksize size (prog_seq k q)
  | CallSelf k => CallSelf (λ t, prog_seq (k t) q)
  | CallScheduler k => CallScheduler (prog_seq k q)
  | CallExit value k => CallExit value (prog_seq k q)
  | CallCreate new_thread start_routine args k =>
      CallCreate new_thread start_routine args (λ ret h, prog_seq (k ret h) q)
  | CallJoin thread retval_ptr k =>
      CallJoin thread retval_ptr (λ ret out, prog_seq (k ret out) q)
  end.

(** [for (int i = from; i < from + n; i++) body], with the variables that
    the body changes passed along as [a]. *)
Fixpoint for_ {A : Type} (n : nat) (i : Z) (a : A)
    (body : Z → A → (A → prog) → prog) (k : A → prog) : prog :=
  match n with
  | O => k a
  | S n' => body i a (λ a', for_ n' (i + 1) a' body k)
  end.

(** [qthread_wrapper(func, arg)]: [func(arg); qthread_exit(NULL);]
    [text] gives the code behind a function pointer. *)
Definition qthread_wrapper (text : Z → Z → prog) (func arg : Z) : prog :=
  prog_seq (text func arg) (CallExit NULL Return).

(** A line of output: the format without its final newline, and the
    values of its conversions. *)
Definition line : Type := string * list Z.

(** The state of a running program: the library's world, the [int]
    objects obtained from [malloc] ([None]: not yet written), counters for
    the addresses, the calls of [malloc] and [rand] and the program points
    handed out so far, the code that runs when a captured program point is
    resumed, and what has been printed. *)
Record machine : Type := {
  lib : world;
  ints : gmap Z (option Z);
  next_block : Z;
  mallocs : nat;
  rands : nat;
  next_point : Z;
  points : gmap Z prog;
  stdout : list line;
  stderr : list line
}.

Definition initial_machine : machine :=
  {| lib := initial_world; ints := ∅; next_block := 1; mallocs := 0; rands := 0;
     next_point := 0; points := ∅; stdout := []; stderr := [] |}.

Definition with_lib (w : world) (m : machine) : machine :=
  {| lib := w; ints := ints m; next_block := next_block m; mallocs := mallocs m;
     rands := rands m; next_point := next_point m; points := points m;
     stdout := stdout m; stderr := stderr m |}.
Definition with_ints (i : gmap Z (option Z)) (m : machine) : machine :=
  {| lib := lib m; ints := i; next_block := next_block m; mallocs := mallocs m;
     rands := rands m; next_point := next_point m; points := points m;
     stdout := stdout m; stderr := stderr m |}.
Definition with_next_block (b : Z) (m : machine) : machine :=
  {| lib := lib m; ints := ints m; next_block := b; mallocs := mallocs m;
     rands := rands m; next_point := next_point m; points := points m;
     stdout := stdout m; stderr := stderr m |}.
Definition with_mallocs (n : nat) (m : machine) : machine :=
  {| lib := lib m; ints := ints m; next_block := next_block m; mallocs := n;
     rands := rands m; next_point := next_point m; points := points m;
     stdout := stdout m; stderr := stderr m |}.
Definition with_rands (n : nat) (m : machine) : machine :=
  {| lib := lib m; ints := ints m; next_block := next_block m; mallocs := mallocs m;
     rands := n; next_point := next_point m; points := points m;
     stdout := stdout m; stderr := stderr m |}.
Definition with_next_point (p : Z) (m : machine) : machine :=
  {| lib := lib m; ints := ints m; next_block := next_block m; mallocs := mallocs m;
     rands := rands m; next_point := p; points := points m;
     stdout := stdout m; stderr := stderr m |}.
Definition with_points (ps : gmap Z prog) (m : machine) : machine :=
  {| lib := lib m; ints := ints m; next_block := next_block m; mallocs := mallocs m;
     rands := rands m; next_point := next_point m; points := ps;
     stdout := stdout m; stderr := stderr m |}.
Definition with_stdout (o : list line) (m : machine) : machine :=
  {| lib := lib m; ints := ints m; next_block := next_block m; mallocs := mallocs m;
     rands := rands m; next_point := next_point m; points := points m;
     stdout := o; stderr := stderr m |}.
Definition with_stderr (o : list line) (m : machine) : machine :=
  {| lib := lib m; ints := ints m; next_block := next_block m; mallocs := mallocs m;
     rands := rands m; next_point := next_point m; points := points m;
     stdout := stdout m; stderr := o |}.

(** A program is running, or the process has ended with a status. *)
Inductive config : Type :=
| Running (p : prog) (m : machine)
| Ended (status : Z) (m : machine).

Definition machine_of (c : config) : machine :=
  match c with Running _ m | Ended _ m => m end.

Section Machine.

(** The environment of a run: the code behind each function pointer,
    which calls of [malloc] fail, what [rand] returns, the contents of
    fresh memory, and the fuel for the loops of the library. *)
Variable text : Z → Z → prog.
Variable oom : nat → bool.
Variable rand : nat → Z.
Variable junk : thread_t.
Variable fuel : nat.

(** A call of [malloc]: NULL, or an address that was never used. *)
Definition machine_malloc (m : machine) : Z * machine :=
  if oom (mallocs m) then (NULL, with_mallocs (S (mallocs m)) m)
  else (next_block m,
        with_next_block (next_block m + 1) (with_mallocs (S (mallocs m)) m)).

(** The two calls of [malloc] and the call of [getcontext] in
    [qthread_create]; the second [malloc] is only called when the first
    succeeds. *)
Definition create_env (m : machine) : alloc_env * machine :=
  let '(t, m1) := machine_malloc m in
  let '(s, m2) := if t =? NULL then (NULL, m1) else machine_malloc m1 in
  ({| m_thread := t; m_junk := junk; m_stack := s; getcontext_ret := 0;
      getcontext_pt := next_point m2 |},
   with_next_point (next_point m2 + 1) m2).

(** The code that runs when control is handed to the context of [t]: the
    wrapper for a context made by [makecontext], the code after the call
    that captured it otherwise. *)
Definition resume (t : Z) (m : machine) : result prog :=
  let* r := load t (lib m) in
  match uc_mcontext (context r) with
  | Entry func arg => Done (qthread_wrapper text func arg)
  | Resume point =>
      match points m !! point with
      | Some k => Done k
      | None => Fault
      end
  end.

(** After a call of the scheduler made at the program point [here] with
    [k] left to do: [setcontext] drops [k], [swapcontext] keeps it for the
    time when [here] is resumed. *)
Definition switch (tr : transfer) (here : Z) (k : prog) (m : machine)
    : result config :=
  match tr with
  | NoSwitch => Done (Running k m)
  | SetContext t =>
      let* p := resume t m in Done (Running p m)
  | SwapContext _ t =>
      let m1 := with_points (<[here := k]> (points m)) m in
      let* p := resume t m1 in Done (Running p m1)
  end.

(** One statement. When the code of a thread returns, the wrapper has
    returned to a context with [uc_link == NULL], and when the code of
    [main] returns, [main] has: either way the process ends. *)
Definition step (p : prog) (m : machine) : result config :=
  match p with
  | Return => Done (Ended 0 m)
  | Undefined => Fault
  | LibcExit status => Done (Ended status m)
  | Printf format args k =>
      Done (Running k (with_stdout (stdout m ++ [(format, args)]) m))
  | FprintfStderr format args k =>
      Done (Running k (with_stderr (stderr m ++ [(format, args)]) m))
  | MallocInt k =>
      let '(a, m1) := machine_malloc m in
      Done (Running (k a)
              (if a =? NULL then m1 else with_ints (<[a := None]> (ints m1)) m1))
  | ReadInt p k =>
      match ints m !! p with
      | Some (Some v) => Done (Running (k v) m)
      | _ => Fault
      end
  | WriteInt p v k =>
      match ints m !! p with
      | Some _ => Done (Running k (with_ints (<[p := Some v]> (ints m)) m))
      | None => Fault
      end
  | FreeInt p k =>
      if p =? NULL then Done (Running k m)
      else match ints m !! p with
           | Some _ => Done (Running k (with_ints (delete p (ints m)) m))
           | None => Fault
           end
  | Srand k => Done (Running k m)
  | Sleep _ k => Done (Running k m)
  | Rand k => Done (Running (k (rand (rands m))) (with_rands (S (rands m)) m))
  | Forever body => Done (Running (prog_seq body (Forever body)) m)
  | LocalThread k =>
      let a := next_block m in
      Done (Running (k a)
              (with_lib (with_threads (<[a := junk]> (threads (lib m))) (lib m))
                 (with_next_block (a + 1) m)))
  | GetContext p k =>
      let here := next_point m in
      let* w := update p (upd_context (set_mcontext (Resume here))) (lib m) in
      Done (Running (k 0)
              (with_lib w (with_points (<[here := k 0]> (points m))
                             (with_next_point (here + 1) m))))
  | Assign p f k =>
      let* w := update p f (lib m) in Done (Running k (with_lib w m))
  | AssignThreadList p k =>
      Done (Running k (with_lib (set_thread_list p (lib m)) m))
  | CallSetStacksize size k =>
      Done (Running k (with_lib (qthread_set_stacksize size (lib m)) m))
  | CallSelf k => Done (Running (k (qthread_self (lib m))) m)
  | CallScheduler k =>
      let here := next_point m in
      let* '(w, tr) := qscheduler fuel here (lib m) in
      switch tr here k (with_lib w (with_next_point (here + 1) m))
  | CallExit value k =>
      let here := next_point m in
      let* '(w, tr) := qthread_exit fuel value here (lib m) in
      switch tr here k (with_lib w (with_next_point (here + 1) m))
  | CallCreate new_thread start_routine args k =>
      let '(env, m1) := create_env m in
      let* '(w, ret, h) := qthread_create fuel env new_thread start_routine args (lib m1) in
      Done (Running (k ret h) (with_lib w m1))
  | CallJoin thread retval_ptr k =>
      let here := next_point m in
      let* '(w, j) := qthread_join fuel thread retval_ptr here (lib m) in
      let m1 := with_lib w (with_next_point (here + 1) m) in
      match j with
      | JoinYield tr => switch tr here (CallJoin thread retval_ptr k) m1
      | JoinDone ret out => Done (Running (k ret out) m1)
      end
  end.

(** At most [n] statements. *)
Fixpoint steps (n : nat) (c : config) : result config :=
  match n, c with
  | S n', Running p m => let* c' := step p m in steps n' c'
  | _, _ => Done c
  end.

End Machine.

(** Signed [int] arithmetic: a result outside the range is undefined. *)
Definition int_range (z : Z) : bool := (- 2 ^ 31 <=? z) && (z <? 2 ^ 31).

Definition EXIT_FAILURE : Z := 1.

(** *** The demonstration program (worker_thread and main) *)

Module Demo.

(** The address of the function [worker_thread]. *)
Definition worker_thread_fn : Z := 1.

(** [worker_thread(arg)] *)
Definition worker_thread (arg : Z) : prog :=
  ReadInt arg (λ id,
  FreeInt arg (
  if id =? 4 then
    CallExit 0xDEADBEEF Return
  else
    for_ 3 0 tt (λ i _ k,
      Printf "Worker %d: working..." [id] (
      CallScheduler (k tt)))
    (λ _,
      MallocInt (λ result,
      if int_range (id * 100) then
        WriteInt result (id * 100) (
        CallExit result Return)
      else Undefined)))).

Definition text (func arg : Z) : prog :=
  if func =? worker_thread_fn then worker_thread arg else Undefined.

(** [int main()] from the return of [getcontext] on, [r] being the value
    that [getcontext] returned. [workers] is the array of that name, an
    element that has not been assigned being [None]. *)
Definition main_from_getcontext (main_thread r : Z) : prog :=
  if r =? -1 then
    FprintfStderr "getcontext" [] (LibcExit EXIT_FAILURE)
  else
    Assign main_thread (set_state READY) (
    Assign main_thread (set_stack NULL) (
    Assign main_thread (set_next main_thread) (
    AssignThreadList main_thread (
    CallSetStacksize (64 * 1024) (
    for_ 5 0 (replicate 5 None) (λ i workers k,
      MallocInt (λ id,
      WriteInt id (i + 1) (
      CallCreate true worker_thread_fn id (λ _ h,
      k (match h with
         | Some t => <[Z.to_nat i := Some t]> workers
         | None => workers
         end)))))
    (λ workers,
      CallScheduler (
      for_ 5 0 tt (λ i _ k,
        match workers !! Z.to_nat i with
        | Some (Some t) =>
            CallJoin t true (λ _ out,
            match out with
            | Some retval =>
                if retval =? 0xDEADBEEF then
                  Printf "Thread %d: ERROR" [i + 1] (k tt)
                else
                  ReadInt retval (λ v,
                  Printf "Thread %d: Result = %d" [i + 1; v] (
                  FreeInt retval (k tt)))
            | None => Undefined
            end)
        | _ => Undefined
        end)
      (λ _,
        Printf "All workers completed" [] Return)))))))).

(** [int main()] *)
Definition main : prog :=
  LocalThread (λ main_thread,
  GetContext main_thread (main_from_getcontext main_thread)).

End Demo.

(** *** The example main.c (thread_function and main) *)

Module Example.

Definition thread_function_fn : Z := 1.

(** [thread_function(arg)] *)
Definition thread_function (arg : Z) : prog :=
  ReadInt arg (λ id,
  FreeInt arg (
  for_ 5 0 tt (λ i _ k,
    CallSelf (λ self,
    Printf "Thread %d (self: %p): iteration %d" [id; self; i] (
    CallScheduler (k tt))))
  (λ _, Return))).

Definition text (func arg : Z) : prog :=
  if func =? thread_function_fn then thread_function arg else Undefined.

(** [qthread_join(thread, NULL)] on a variable that [qthread_create] may
    have left unassigned. *)
Definition join (thread : option Z) (k : prog) : prog :=
  match thread with
  | Some t => CallJoin t false (λ _ _, k)
  | None => Undefined
  end.

(** [int main()] *)
Definition main : prog :=
  CallSetStacksize (128 * 1024) (
  MallocInt (λ id1,
  MallocInt (λ id2,
  MallocInt (λ id3,
  WriteInt id1 1 (
  WriteInt id2 2 (
  WriteInt id3 3 (
  CallCreate true thread_function_fn id1 (λ _ thread1,
  CallCreate true thread_function_fn id2 (λ _ thread2,
  CallCreate true thread_function_fn id3 (λ _ thread3,
  join thread1 (
  join thread2 (
  join thread3 (
  Printf "All threads finished." [] Return))))))))))))).

End Example.

(** *** The example irq.c *)

Module Irq.

Definition NUM_IRQ : Z := 4.

Definition interrupt_simulator_fn : Z := 1.

Definition ISR_KEYBOARD (irqnumber : Z) : prog :=
  Printf "Handling interrupt: KEYBOARD_INTERRUPT -> IRQ Number %d" [irqnumber] Return.
Definition ISR_MOUSE (irqnumber : Z) : prog :=
  Printf "Handling interrupt: MOUSE_INTERRUPT -> IRQ Number %d" [irqnumber] Return.
Definition ISR_TIMER (irqnumber : Z) : prog :=
  Printf "Handling interrupt: TIMER_INTERRUPT -> IRQ Number %d" [irqnumber] Return.
Definition ISR_AUDIO (irqnumber : Z) : prog :=
  Printf "Handling interrupt: AUDIO_INTERRUPT -> IRQ Number %d" [irqnumber] Return.

(** The vector [IRS_vector] of the four handlers. *)
Definition IRS_vector : list (Z → prog) :=
  [ISR_KEYBOARD; ISR_MOUSE; ISR_TIMER; ISR_AUDIO].

(** The body of the loop of [interrupt_simulator]: an index outside the
    vector is undefined. *)
Definition simulate_one : prog :=
  Sleep 1 (
  Rand (λ r,
  let irq_number := Z.rem r NUM_IRQ in
  if (0 <=? irq_number) then
    match IRS_vector !! Z.to_nat irq_number with
    | Some isr => isr irq_number
    | None => Undefined
    end
  else Undefined)).

(** [interrupt_simulator(arg)] *)
Definition interrupt_simulator (arg : Z) : prog :=
  Srand (Forever simulate_one).

Definition text (func arg : Z) : prog :=
  if func =? interrupt_simulator_fn then interrupt_simulator arg else Undefined.

(** [int main(void)] *)
Definition main : prog :=
  CallCreate true interrupt_simulator_fn NULL (λ ret thread,
  if negb (ret =? 0) then
    FprintfStderr "Error creating thread" [] (LibcExit EXIT_FAILURE)
  else
    CallScheduler Return).

End Irq.

Definition no_oom (n : nat) : bool := false.

(** A program that touches the library only through its functions. *)
Inductive api_only : prog → Prop :=
| api_Return : api_only Return
| api_Undefined : api_only Undefined
| api_LibcExit status : api_only (LibcExit status)
| api_Printf format args k : api_only k → api_only (Printf format args k)
| api_FprintfStderr format args k : api_only k → api_only (FprintfStderr format args k)
| api_MallocInt k : (∀ a, api_only (k a)) → api_only (MallocInt k)
| api_ReadInt p k : (∀ v, api_only (k v)) → api_only (ReadInt p k)
| api_WriteInt p v k : api_only k → api_only (WriteInt p v k)
| api_FreeInt p k : api_only k → api_only (FreeInt p k)
| api_Srand k : api_only k → api_only (Srand k)
| api_Sleep seconds k : api_only k → api_only (Sleep seconds k)
| api_Rand k : (∀ r, api_only (k r)) → api_only (Rand k)
| api_Forever body : api_only body → api_only (Forever body)
| api_CallSetStacksize size k : api_only k → api_only (CallSetStacksize size k)
| api_CallSelf k : (∀ t, api_only (k t)) → api_only (CallSelf k)
| api_CallScheduler k : api_only k → api_only (CallScheduler k)
| api_CallExit value k : api_only k → api_only (CallExit value k)
| api_CallCreate new_thread start_routine args k :
    (∀ ret h, api_only (k ret h)) → api_only (CallCreate new_thread start_routine args k)
| api_CallJoin thread retval_ptr k :
    (∀ ret out, api_only (k ret out)) → api_only (CallJoin thread retval_ptr k).

(** The world is well formed and no address from [nb] on is in use. *)
Definition lib_wf (w : world) (nb : Z) : Prop :=
  (∃ l, registry w l) ∧ owns_stacks w ∧ no_running w ∧ 0 < nb ∧
  ∀ a, nb ≤ a → threads w !! a = None ∧ buffers w !! a = None.

Definition points_ok (m : machine) : Prop :=
  ∀ point k, points m !! point = Some k → api_only k.

(** The line that the handler of interrupt [r mod 4] prints. *)
Definition irq_line (r : Z) : line :=
  (match r `mod` 4 with
   | 0 => "Handling interrupt: KEYBOARD_INTERRUPT -> IRQ Number %d"
   | 1 => "Handling interrupt: MOUSE_INTERRUPT -> IRQ Number %d"
   | 2 => "Handling interrupt: TIMER_INTERRUPT -> IRQ Number %d"
   | _ => "Handling interrupt: AUDIO_INTERRUPT -> IRQ Number %d"
   end, [r `mod` 4]).

(** The record [t] is READY and has never been dispatched: its context
    is still the one [makecontext] wrote, for the function [fn], and its
    stack and the [int] that its argument points to are still allocated. *)
Definition never_ran (fn : Z) (m : machine) (t : Z) : Prop :=
  match threads (lib m) !! t with
  | Some r =>
      state r = READY ∧ is_Some (buffers (lib m) !! stack r) ∧
      match uc_mcontext (context r) with
      | Entry func arg => func = fn ∧ is_Some (ints m !! arg)
      | Resume _ => False
      end
  | None => False
  end.

(** The record [t] is FINISHED with result [v], and neither it nor its
    stack has been freed. *)
Definition finished_unjoined (v : Z) (m : machine) (t : Z) : Prop :=
  match threads (lib m) !! t with
  | Some r =>
      state r = FINISHED ∧ retval r = v ∧ is_Some (buffers (lib m) !! stack r)
  | None => False
  end.

(** The host alone, registered as the demonstration program does it, its
    context captured at program point 0 with [Return] left to do. *)
Definition hosted_machine : machine :=
  with_points {[ 0 := Return ]}
    (with_lib {| threads := {[ 1 := host_record junk0 0 1 ]}; buffers := ∅;
                 stack_size := DEFAULT_STACK_SIZE; thread_list := 1;
                 current := NULL |}
       initial_machine).

(** The machine after the initial call of the scheduler has entered [t]. *)
Definition entered (t : Z) (m : machine) : machine :=
  with_lib (set_current t (lib m)) (with_next_point (next_point m + 1) m).

(** No program point from [next_point] on has been handed out. *)
Definition points_fresh (m : machine) : Prop :=
  ∀ point, next_point m ≤ point → points m !! point = None.

(** The machine after a swap from [c] to [t] at the program point
    [next_point m], with [k] left to do in [c]. *)
Definition swapped (k : prog) (c t : Z) (rc : thread_t) (m : machine) : machine :=
  with_points (<[next_point m := k]> (points m))
    (with_lib
       (with_threads
          (<[c := upd_context (set_mcontext (Resume (next_point m))) rc]>
             (threads (lib m)))
          (set_current t (lib m)))
       (with_next_point (next_point m + 1) m)).

(** * Proofs *)

(** ** The result monad and the memory *)

Lemma bind_Done {A B : Type} (m : result A) (k : A → result B) (b : B) :
  bind m k = Done b → ∃ a, m = Done a ∧ k a = Done b.
Proof. destruct m; simpl; intros; eauto; discriminate. Qed.

Lemma load_Done p w r : load p w = Done r ↔ threads w !! p = Some r.
Proof. unfold load. destruct (threads w !! p); split; congruence. Qed.

Lemma load_lookup p w r : threads w !! p = Some r → load p w = Done r.
Proof. apply load_Done. Qed.

Lemma update_Done p f w w' :
  update p f w = Done w' ↔
  ∃ r, threads w !! p = Some r ∧ w' = with_threads (<[p := f r]> (threads w)) w.
Proof.
  unfold update, load. destruct (threads w !! p) as [r|]; simpl; split.
  - intros [= <-]. eauto.
  - intros (r' & [= <-] & ->). done.
  - discriminate.
  - intros (r' & [=] & _).
  Qed.

Lemma update_lookup p f w r :
  threads w !! p = Some r →
  update p f w = Done (with_threads (<[p := f r]> (threads w)) w).
Proof. intros. apply update_Done. eauto. Qed.

(** Take apart the hypotheses that say that a sequence of steps is [Done]. *)
Ltac done_inv :=
  repeat match goal with
    | H : bind _ _ = Done _ |- _ =>
        let a := fresh "a" in
        let Ha := fresh "Ha" in
        apply bind_Done in H as (a & Ha & H)
    | H : (let ' pair _ _ := ?x in _) = Done _ |- _ => destruct x
    | H : load _ _ = Done _ |- _ => apply load_Done in H
    | H : update _ _ _ = Done _ |- _ =>
        let r := fresh "r" in
        let Hr := fresh "Hr" in
        apply update_Done in H as (r & Hr & H)
    | H : Done _ = Done _ |- _ => injection H as H
    | H : Fault = Done _ |- _ => discriminate H
    | H : Timeout = Done _ |- _ => discriminate H
    end.

Lemma world_eta w :
  {| threads := threads w; buffers := buffers w; stack_size := stack_size w;
     thread_list := thread_list w; current := current w |} = w.
Proof. by destruct w. Qed.

Lemma ready_at_state w a : ready_at w a = true ↔ state_at w a = Some READY.
Proof.
  unfold ready_at, state_at. destruct (threads w !! a) as [r|]; simpl; [|done].
  destruct (state r); simpl; split; congruence.
Qed.

Lemma ready_at_false w a : ready_at w a = false ↔ state_at w a ≠ Some READY.
Proof. rewrite <- ready_at_state. destruct (ready_at w a); split; congruence. Qed.

Lemma first_ready_Some w l t :
  first_ready w l = Some t ↔
  ∃ skipped rest, l = skipped ++ t :: rest ∧ state_at w t = Some READY ∧
    Forall (λ a, state_at w a ≠ Some READY) skipped.
Proof.
  induction l as [|a l IH]; simpl.
  - split; [done|]. intros (sk & rest & E & _). by destruct sk.
  - destruct (ready_at w a) eqn:Ha.
    + split.
      * intros [= <-]. exists [], l. by rewrite <- ready_at_state.
      * intros (sk & rest & E & Ht & Hsk). destruct sk as [|b sk]; simplify_eq/=.
        { done. }
        apply Forall_cons in Hsk as [Hb _]. apply ready_at_state in Ha. done.
    + rewrite IH. apply ready_at_false in Ha. split.
      * intros (sk & rest & -> & Ht & Hsk). exists (a :: sk), rest. by repeat constructor.
      * intros (sk & rest & E & Ht & Hsk). destruct sk as [|b sk]; simplify_eq/=.
        apply Forall_cons in Hsk as [_ Hsk]. eauto.
Qed.

Lemma first_ready_None w l :
  first_ready w l = None ↔ Forall (λ a, state_at w a ≠ Some READY) l.
Proof.
  induction l as [|a l IH]; simpl; [by split|].
  destruct (ready_at w a) eqn:Ha.
  - split; [done|]. intros [Hn _]%Forall_cons. apply ready_at_state in Ha. done.
  - rewrite IH, Forall_cons. apply ready_at_false in Ha. tauto.
Qed.

(** ** Chains *)

Lemma chain_app h l1 l2 stop :
  chain h (l1 ++ l2) stop ↔ chain h l1 (hd stop l2) ∧ chain h l2 stop.
Proof.
  induction l1 as [|a l1 IH]; simpl; [tauto|].
  rewrite IH. destruct l1; simpl; tauto.
Qed.

Lemma chain_lookup h l stop a : chain h l stop → a ∈ l → is_Some (h !! a).
Proof.
  induction l as [|b l IH]; simpl; [by intros _ ?%elem_of_nil|].
  intros [(r & Hr & _) Hl] [->|Ha]%elem_of_cons; eauto.
Qed.

(** A chain only depends on the [next] fields of its own records. *)
Lemma chain_frame h h' l stop :
  chain h l stop →
  (∀ a, a ∈ l → next <$> h' !! a = next <$> h !! a) →
  chain h' l stop.
Proof.
  induction l as [|b l IH]; simpl; [done|].
  intros [(r & Hr & Hn) Hl] Hsame. split.
  - specialize (Hsame b ltac:(apply elem_of_cons; by left)). rewrite Hr in Hsame.
    destruct (h' !! b) as [r'|]; simplify_eq/=. exists r'. split; congruence.
  - apply IH; [done|]. intros a Ha. apply Hsame. apply elem_of_cons. by right.
Qed.

Lemma hd_app_cons {A} (d : A) l1 c l2 : hd d (l1 ++ c :: l2) = hd c l1.
Proof. by destruct l1. Qed.

(** Read from any of its members, a circular chain is the rotated list. *)
Lemma chain_rotate h l1 c l2 d :
  chain h (l1 ++ c :: l2) (hd d (l1 ++ c :: l2)) →
  chain h (c :: l2 ++ l1) c.
Proof.
  rewrite hd_app_cons. rewrite chain_app. intros [H1 H2].
  change (c :: l2 ++ l1) with ((c :: l2) ++ l1). rewrite chain_app. done.
Qed.

(** ** The scheduler *)

Lemma scan_after_current_spec fuel w l :
  chain (threads w) l (current w) → current w ∉ l → (length l < fuel)%nat →
  scan_after_current fuel w (hd (current w) l) =
    Done (match first_ready w l with Some t => t | None => current w end).
Proof.
  revert l. induction fuel as [|fuel IH]; intros l Hc Hn Hf; [lia|].
  destruct l as [|a l]; simpl.
  - by rewrite Z.eqb_refl.
  - destruct Hc as [(r & Hr & Hnx) Hc]. apply not_elem_of_cons in Hn as [Hne Hn].
    rewrite (proj2 (Z.eqb_neq a (current w))) by done.
    rewrite (load_lookup _ _ _ Hr). simpl. unfold ready_at. rewrite Hr.
    destruct (is_ready (state r)); [done|].
    rewrite Hnx. apply IH; simpl in *; [done|done|lia].
Qed.

Lemma scan_from_head_spec fuel w a l :
  chain (threads w) (a :: l) (thread_list w) → thread_list w ∉ l →
  (length l < fuel)%nat →
  scan_from_head fuel w a =
    Done (match first_ready w (a :: l) with Some t => t | None => thread_list w end).
Proof.
  revert a l. induction fuel as [|fuel IH]; intros a l Hc Hn Hf; [lia|].
  destruct Hc as [(r & Hr & Hnx) Hc]. simpl.
  rewrite (load_lookup _ _ _ Hr). simpl. unfold ready_at at 1. rewrite Hr.
  destruct (is_ready (state r)); [done|].
  destruct l as [|b l]; simpl in *.
  - by rewrite Hnx, Z.eqb_refl.
  - apply not_elem_of_cons in Hn as [Hne Hn].
    rewrite Hnx. rewrite (proj2 (Z.eqb_neq b (thread_list w))) by done.
    rewrite (IH b l); [done|done|done|lia].
Qed.

(** Whatever the scheduler settles on is READY. *)
Lemma sched_select_ready fuel w t :
  sched_select fuel w = Done (Some t) → state_at w t = Some READY.
Proof.
  unfold sched_select, state_at. intros H.
  destruct (thread_list w =? NULL); [done|].
  destruct (current w =? NULL); done_inv.
  - destruct (is_ready (state a0)) eqn:E; simplify_eq. rewrite Ha0. simpl.
    by destruct (state a0).
  - rename a1 into rt. destruct (is_ready (state rt)) eqn:E.
    + simplify_eq. rewrite Ha1. simpl. by destruct (state rt).
    + done_inv. destruct (is_ready (state a1)) eqn:E'; [|done]. done_inv.
      simplify_eq. rewrite E' in H. simplify_eq.
      match goal with Hc : threads w !! current w = Some ?r |- _ =>
        rewrite Hc; simpl; by destruct (state r) end.
Qed.

(** The three ways a call of the scheduler can end. *)
Lemma qscheduler_inv fuel here w w' tr :
  qscheduler fuel here w = Done (w', tr) →
  (tr = NoSwitch ∧ w' = w) ∨
  (∃ t, tr = SetContext t ∧ current w = NULL ∧ state_at w t = Some READY ∧
        w' = set_current t w) ∨
  (∃ t rp, tr = SwapContext (current w) t ∧ current w ≠ NULL ∧ t ≠ current w ∧
        state_at w t = Some READY ∧ threads w !! current w = Some rp ∧
        w' = with_threads
               (<[current w := upd_context (set_mcontext (Resume here)) rp]> (threads w))
               (set_current t w)).
Proof.
  unfold qscheduler. intros H. done_inv. destruct a as [t|]; [|left; by simplify_eq].
  apply sched_select_ready in Ha. unfold sched_switch in H.
  destruct (current w =? NULL) eqn:Ec.
  - done_inv. right; left. exists t. apply Z.eqb_eq in Ec. by simplify_eq.
  - destruct (t =? current w) eqn:Et; [left; by simplify_eq|].
    done_inv. right; right. apply Z.eqb_neq in Ec, Et. simpl in *.
    exists t, r. by simplify_eq.
Qed.

Lemma linked_nonempty w l : linked w l → l ≠ [] → thread_list w ≠ NULL.
Proof.
  intros (_ & H0 & Hh & _) Hl. destruct l as [|a l]; [done|]. simpl in Hh.
  rewrite Hh. intros ->. apply H0. apply elem_of_cons. by left.
Qed.

(** Initial call: the first READY record from the head. *)
Lemma sched_select_first fuel w l :
  linked w l → l ≠ [] → current w = NULL → (length l ≤ fuel)%nat →
  sched_select fuel w = Done (first_ready w l).
Proof.
  intros Hl Hne Hc Hf. pose proof (linked_nonempty _ _ Hl Hne) as Hnn.
  destruct Hl as (Hnd & H0 & Hh & Hch). destruct l as [|a l]; [done|].
  cbn [hd] in *. subst a. apply NoDup_cons in Hnd as [Hal Hnd].
  unfold sched_select. rewrite (proj2 (Z.eqb_neq _ _) Hnn), Hc. cbn [Z.eqb NULL].
  rewrite (scan_from_head_spec fuel w _ l); [|done|done|simpl in Hf; lia].
  destruct (first_ready w (thread_list w :: l)) as [t|] eqn:Ef; cbn [bind].
  - apply first_ready_Some in Ef as (sk & rest & _ & Ht & _).
    unfold state_at in Ht. unfold load. destruct (threads w !! t) as [rt|]; [|done].
    injection Ht as Ht. cbn [bind]. by rewrite Ht.
  - simpl in Ef. unfold ready_at in Ef.
    destruct Hch as [(r & Hr & _) _]. rewrite Hr in Ef. rewrite (load_lookup _ _ _ Hr).
    simpl. by destruct (is_ready (state r)).
Qed.

(** Normal call: the first READY record after [current], else [current]
    itself if it is READY. *)
Lemma sched_select_after fuel w before c after :
  linked w (before ++ c :: after) → current w = c →
  (length (before ++ c :: after) ≤ fuel)%nat →
  sched_select fuel w =
    Done (match first_ready w (after ++ before) with
          | Some t => Some t
          | None => if ready_at w c then Some c else None
          end).
Proof.
  intros Hl Hc Hf. pose proof (linked_nonempty _ _ Hl ltac:(by destruct before)) as Hnn.
  destruct Hl as (Hnd & H0 & Hh & Hch).
  assert (c ≠ NULL) as Hcn.
  { intros ->. apply H0. apply elem_of_app. right. apply elem_of_cons. by left. }
  apply chain_rotate in Hch. destruct Hch as [(rc & Hrc & Hnx) Hch].
  assert (c ∉ after ++ before) as Hnotin.
  { apply NoDup_app in Hnd as (_ & Hd & Hnd). apply NoDup_cons in Hnd as [? _].
    apply not_elem_of_app. split; [done|]. intros Hin. apply (Hd _ Hin).
    apply elem_of_cons. by left. }
  unfold sched_select. rewrite (proj2 (Z.eqb_neq _ _) Hnn).
  rewrite Hc, (proj2 (Z.eqb_neq _ _) Hcn). rewrite (load_lookup _ _ _ Hrc). simpl.
  rewrite Hnx. rewrite <- Hc.
  rewrite (scan_after_current_spec fuel w (after ++ before)); rewrite ?Hc; try done.
  2:{ rewrite length_app in *. simpl in Hf. lia. }
  destruct (first_ready w (after ++ before)) as [t|] eqn:Ef; cbn [bind].
  - apply first_ready_Some in Ef as (sk & rest & _ & Ht & _).
    unfold state_at in Ht. unfold load. destruct (threads w !! t) as [rt|]; [|done].
    injection Ht as Ht. cbn [bind]. by rewrite Ht.
  - rewrite (load_lookup _ _ _ Hrc). simpl. unfold ready_at. rewrite Hrc.
    by destruct (is_ready (state rc)).
Qed.

(** The whole call of the scheduler from a registered current thread. *)
Lemma qscheduler_after fuel here w before c after rc :
  linked w (before ++ c :: after) → current w = c →
  threads w !! c = Some rc →
  (length (before ++ c :: after) ≤ fuel)%nat →
  qscheduler fuel here w =
    Done (match first_ready w (after ++ before) with
          | Some t =>
              (with_threads
                 (<[c := upd_context (set_mcontext (Resume here)) rc]> (threads w))
                 (set_current t w), SwapContext c t)
          | None => (w, NoSwitch)
          end).
Proof.
  intros Hl Hc Hrc Hf. unfold qscheduler.
  rewrite (sched_select_after fuel w before c after Hl Hc Hf). simpl.
  assert (c ≠ NULL) as Hcn.
  { destruct Hl as (_ & H0 & _). intros ->. apply H0. apply elem_of_app. right.
    apply elem_of_cons. by left. }
  assert (c ∉ after ++ before) as Hnotin.
  { destruct Hl as (Hnd & _).
    apply NoDup_app in Hnd as (_ & Hd & Hnd). apply NoDup_cons in Hnd as [? _].
    apply not_elem_of_app. split; [done|]. intros Hin. apply (Hd _ Hin).
    apply elem_of_cons. by left. }
  destruct (first_ready w (after ++ before)) as [t|] eqn:Ef.
  - apply first_ready_Some in Ef as (sk & rest & El & Ht & _).
    assert (t ≠ c) as Htc.
    { intros ->. apply Hnotin. rewrite El. apply elem_of_app. right.
      apply elem_of_cons. by left. }
    unfold sched_switch. rewrite Hc, (proj2 (Z.eqb_neq _ _) Hcn).
    rewrite (proj2 (Z.eqb_neq _ _) Htc). simpl.
    unfold state_at in Ht. unfold load at 1. simpl.
    destruct (threads w !! t) as [rt|] eqn:Hrt; [|done]. simpl.
    rewrite (update_lookup c _ (set_current t w) rc Hrc). done.
  - destruct (ready_at w c); [|done].
    unfold sched_switch. rewrite Hc, (proj2 (Z.eqb_neq _ _) Hcn).
    by rewrite Z.eqb_refl.
Qed.

(** ** Frames: what an operation leaves alone *)

Lemma agree_refl {B} (f : thread_t → B) w : agree f w w.
Proof. done. Qed.

Lemma agree_trans {B} (f : thread_t → B) w1 w2 w3 :
  agree f w1 w2 → agree f w2 w3 → agree f w1 w3.
Proof. intros H1 H2 a. by rewrite H2, H1. Qed.

Lemma agree_dom {B} (f : thread_t → B) w w' :
  agree f w w' → dom (threads w') = dom (threads w).
Proof.
  intros H. apply set_eq. intros a. rewrite !elem_of_dom.
  specialize (H a). destruct (threads w' !! a), (threads w !! a); simplify_eq/=;
    split; intros [? ?]; by eauto.
Qed.

Lemma agree_update {B} (f : thread_t → B) p g w w' :
  update p g w = Done w' → (∀ r, f (g r) = f r) → agree f w w'.
Proof.
  intros (r & Hr & ->)%update_Done Hf a. simpl.
  destruct (decide (a = p)) as [->|Hne].
  - by rewrite lookup_insert_eq, Hr; simpl; rewrite Hf.
  - by rewrite lookup_insert_ne.
Qed.

(** An assignment to the record at [p] leaves the other records alone. *)
Lemma update_other p g w w' a :
  update p g w = Done w' → a ≠ p → threads w' !! a = threads w !! a.
Proof. intros (r & Hr & ->)%update_Done Hne. simpl. by rewrite lookup_insert_ne. Qed.

Lemma update_globals p g w w' :
  update p g w = Done w' →
  buffers w' = buffers w ∧ stack_size w' = stack_size w ∧
  thread_list w' = thread_list w ∧ current w' = current w.
Proof. by intros (r & Hr & ->)%update_Done. Qed.

Lemma linked_agree w w' l :
  linked w l → agree next w w' → thread_list w' = thread_list w → linked w' l.
Proof.
  intros (Hnd & H0 & Hh & Hch) Ha Htl. repeat split; try done; [congruence|].
  eapply chain_frame; [done|]. intros a _. apply Ha.
Qed.

Lemma registry_agree w w' l :
  registry w l → agree next w w' → thread_list w' = thread_list w → registry w' l.
Proof.
  intros [Hl Hd] Ha Htl. split; [by eapply linked_agree|].
  by rewrite (agree_dom _ _ _ Ha).
Qed.

Lemma owns_stacks_agree w w' :
  owns_stacks w → agree stack w w' → buffers w' = buffers w → owns_stacks w'.
Proof.
  intros Ho Ha Hb a r Hr Hs.
  pose proof (Ha a) as Haa. rewrite Hr in Haa. simpl in Haa.
  destruct (threads w !! a) as [r0|] eqn:Hr0; simplify_eq/=.
  destruct (Ho a r0 Hr0) as [Hsome Huniq]; [congruence|]. split.
  - rewrite Hb. congruence.
  - intros a' r' Hr' Hs'. pose proof (Ha a') as Ha'. rewrite Hr' in Ha'. simpl in Ha'.
    destruct (threads w !! a') as [r0'|] eqn:Hr0'; simplify_eq/=.
    eapply Huniq; [done|congruence].
Qed.

Lemma state_at_agree w w' a : agree state w w' → state_at w' a = state_at w a.
Proof. intros H. apply H. Qed.

Lemma no_running_agree w w' : no_running w → agree state w w' → no_running w'.
Proof. intros Hn Ha a. rewrite (state_at_agree _ _ _ Ha). apply Hn. Qed.

(** *** The scheduler only writes [current] and a saved context *)

Lemma qscheduler_agree {B} (f : thread_t → B) fuel here w w' tr :
  (∀ g r, f (upd_context g r) = f r) →
  qscheduler fuel here w = Done (w', tr) → agree f w w'.
Proof.
  intros Hf [(-> & ->)|[(t & -> & _ & _ & ->)|(t & rp & -> & _ & _ & _ & Hrp & ->)]]%qscheduler_inv;
    [done|done|].
  intros a. simpl. destruct (decide (a = current w)) as [->|Hne].
  - by rewrite lookup_insert_eq, Hrp; simpl; rewrite Hf.
  - by rewrite lookup_insert_ne.
Qed.

Lemma qscheduler_globals fuel here w w' tr :
  qscheduler fuel here w = Done (w', tr) →
  buffers w' = buffers w ∧ stack_size w' = stack_size w ∧
  thread_list w' = thread_list w.
Proof.
  by intros [(-> & ->)|[(t & -> & _ & _ & ->)|(t & rp & -> & _ & _ & _ & Hrp & ->)]]%qscheduler_inv.
Qed.

(** [current] changes exactly when the scheduler dispatches, and then it
    is the dispatched record, which is READY. *)
Lemma qscheduler_current fuel here w w' tr :
  qscheduler fuel here w = Done (w', tr) →
  match dispatched tr with
  | Some t => current w' = t ∧ state_at w t = Some READY
  | None => w' = w
  end.
Proof.
  by intros [(-> & ->)|[(t & -> & _ & ? & ->)|(t & rp & -> & _ & _ & ? & Hrp & ->)]]%qscheduler_inv.
Qed.

(** *** qthread_exit *)

Lemma qthread_exit_inv fuel value here w w' tr :
  qthread_exit fuel value here w = Done (w', tr) →
  ∃ rc, threads w !! current w = Some rc ∧
    let w2 := with_threads
                (<[current w := set_state FINISHED (set_retval value rc)]> (threads w)) w in
    qscheduler fuel here w2 = Done (w', tr).
Proof.
  unfold qthread_exit. intros H. done_inv. subst. simpl in *.
  rewrite lookup_insert_eq in Hr. simplify_eq. rewrite insert_insert_eq in H.
  eauto.
Qed.

Lemma qthread_exit_eq fuel value here w rc :
  threads w !! current w = Some rc →
  qthread_exit fuel value here w =
    qscheduler fuel here
      (with_threads
         (<[current w := set_state FINISHED (set_retval value rc)]> (threads w)) w).
Proof.
  intros Hrc. unfold qthread_exit. rewrite (update_lookup _ _ _ _ Hrc). cbn [bind].
  unfold update, load. simpl. rewrite lookup_insert_eq. simpl.
  by rewrite insert_insert_eq.
Qed.

(** ** Insertion at the tail *)

Lemma last_cons_default {A} (a b : A) l : List.last (b :: l) a = List.last l b.
Proof.
  revert a b. induction l as [|c l IH]; intros a b; [done|].
  change (List.last (b :: c :: l) a) with (List.last (c :: l) a).
  rewrite IH. symmetry. apply IH.
Qed.

Lemma snoc_last {A} (a : A) l : ∃ l', a :: l = l' ++ [List.last l a].
Proof.
  revert a. induction l as [|b l IH]; intros a.
  - by exists [].
  - destruct (IH b) as [l' Hl']. exists (a :: l').
    rewrite last_cons_default. simpl. by rewrite Hl'.
Qed.

Lemma find_tail_spec fuel w a l :
  chain (threads w) (a :: l) (thread_list w) → thread_list w ∉ l →
  (length l < fuel)%nat →
  find_tail fuel w a = Done (List.last l a).
Proof.
  revert a l. induction fuel as [|fuel IH]; intros a l Hc Hn Hf; [lia|].
  destruct Hc as [(r & Hr & Hnx) Hc]. cbn [find_tail].
  rewrite (load_lookup _ _ _ Hr). cbn [bind]. rewrite Hnx.
  destruct l as [|b l]; cbn [hd].
  - by rewrite Z.eqb_refl.
  - apply not_elem_of_cons in Hn as [Hne Hn].
    rewrite (proj2 (Z.eqb_neq b (thread_list w))) by done.
    rewrite last_cons_default. apply IH; [done|done|simpl in Hf; lia].
Qed.

Lemma list_insert_linked fuel w l t rt :
  linked w l → t ∉ l → t ≠ NULL → threads w !! t = Some rt →
  (length l ≤ fuel)%nat →
  ∃ w', list_insert fuel t w = Done w' ∧ linked w' (l ++ [t]) ∧
    buffers w' = buffers w ∧ stack_size w' = stack_size w ∧
    current w' = current w ∧
    ∀ (B : Type) (f : thread_t → B), (∀ p r, f (set_next p r) = f r) → agree f w w'.
Proof.
  intros (Hnd & H0 & Hh & Hch) Htl Ht0 Hrt Hf. unfold list_insert.
  destruct l as [|a l]; cbn [hd] in *.
  - rewrite Hh, Z.eqb_refl.
    rewrite (update_lookup t _ (set_thread_list t w) rt Hrt).
    eexists. split; [done|]. split; [|split; [done|split; [done|split; [done|]]]].
    + repeat split; simpl.
      * apply NoDup_singleton.
      * intros E%list_elem_of_singleton. by apply Ht0.
      * exists (set_next t rt). by rewrite lookup_insert_eq.
    + intros B f Hfn x. simpl. destruct (decide (x = t)) as [->|Hne].
      * by rewrite lookup_insert_eq, Hrt; simpl; rewrite Hfn.
      * by rewrite lookup_insert_ne.
  - subst a. set (a := thread_list w) in *.
    assert (a ≠ NULL) as Ha0.
    { intros E. apply H0. apply elem_of_cons. by left. }
    apply NoDup_cons in Hnd as [Hal Hnd].
    rewrite (proj2 (Z.eqb_neq _ _) Ha0).
    rewrite (find_tail_spec fuel w a l); [|done|done|simpl in Hf; lia].
    cbn [bind]. destruct (snoc_last a l) as [l' Hl'].
    set (tl := List.last l a) in *.
    assert (tl ∈ a :: l) as Htlin.
    { rewrite Hl'. apply elem_of_app. right. by apply list_elem_of_singleton. }
    destruct (chain_lookup _ _ _ _ Hch Htlin) as [rtl Hrtl].
    assert (t ≠ tl) as Hne by (intros ->; done).
    rewrite (update_lookup tl _ w rtl Hrtl). cbn [bind].
    unfold update, load. cbn [threads with_threads thread_list].
    rewrite lookup_insert_ne by done. rewrite Hrt. cbn [bind].
    eexists. split; [done|]. split; [|split; [done|split; [done|split; [done|]]]].
    + assert (NoDup (l' ++ [tl])) as Hnd'.
      { rewrite <- Hl'. by apply NoDup_cons. }
      apply NoDup_app in Hnd' as (Hnd1 & Hdisj & _).
      unfold linked. cbn [thread_list threads with_threads].
      split; [|split; [|split]].
      * apply NoDup_app. split; [by apply NoDup_cons|].
        split; [|apply NoDup_singleton].
        intros x Hx ->%list_elem_of_singleton. done.
      * intros [?|E%list_elem_of_singleton]%elem_of_app; [done|by apply Ht0].
      * done.
      * change (hd NULL ((a :: l) ++ [t])) with a. rewrite Hl' in Hch |- *.
        rewrite <- app_assoc. cbn [app].
        apply chain_app in Hch as [Hch1 Hch2]. apply chain_app. cbn [hd] in *. split.
        -- eapply chain_frame; [done|]. intros x Hx.
           assert (x ≠ tl).
           { intros ->. apply (Hdisj _ Hx). by apply list_elem_of_singleton. }
           assert (x ≠ t).
           { intros ->. apply Htl. rewrite Hl'. apply elem_of_app. by left. }
           by rewrite !lookup_insert_ne.
        -- cbn [chain hd]. split; [|split; [|done]].
           ++ exists (set_next t rtl). rewrite lookup_insert_ne by done.
              by rewrite lookup_insert_eq.
           ++ exists (set_next (thread_list w) rt). by rewrite lookup_insert_eq.
    + intros B f Hfn x. cbn [threads with_threads].
      destruct (decide (x = t)) as [->|Hxt].
      * by rewrite lookup_insert_eq, Hrt; simpl; rewrite Hfn.
      * rewrite lookup_insert_ne by done. destruct (decide (x = tl)) as [->|Hxl].
        -- by rewrite lookup_insert_eq, Hrtl; simpl; rewrite Hfn.
        -- by rewrite lookup_insert_ne.
Qed.

(** ** qthread_create *)

Lemma env_fresh_spec env w :
  env_fresh env w = true ↔
  (m_thread env ≠ NULL → threads w !! m_thread env = None) ∧
  (m_stack env ≠ NULL → buffers w !! m_stack env = None).
Proof.
  unfold env_fresh. rewrite andb_true_iff.
  destruct (Z.eqb_spec (m_thread env) NULL), (Z.eqb_spec (m_stack env) NULL);
    rewrite ?bool_decide_eq_true; intuition congruence.
Qed.

Ltac norm_world :=
  unfold with_threads, with_buffers, set_thread_list, set_current, set_stack_size;
  cbn [threads buffers stack_size thread_list current].

Lemma update_insert p f r h b n tl c :
  update p f {| threads := <[p := r]> h; buffers := b; stack_size := n;
                thread_list := tl; current := c |} =
  Done {| threads := <[p := f r]> h; buffers := b; stack_size := n;
          thread_list := tl; current := c |}.
Proof.
  unfold update, load. cbn. rewrite lookup_insert_eq. cbn.
  by rewrite insert_insert_eq.
Qed.

Lemma load_insert p r h b n tl c :
  load p {| threads := <[p := r]> h; buffers := b; stack_size := n;
            thread_list := tl; current := c |} = Done r.
Proof. unfold load. cbn. by rewrite lookup_insert_eq. Qed.

(** A failing [qthread_create] gives back the world it was called in. *)
Lemma qthread_create_fail fuel env new_thread start_routine args w :
  env_fresh env w = true → create_fails env →
  qthread_create fuel env new_thread start_routine args w = Done (w, -1, None).
Proof.
  intros [Hft Hfs]%env_fresh_spec Hfail. unfold qthread_create, malloc_thread.
  destruct (Z.eqb_spec (m_thread env) NULL) as [Et|Et]; [done|].
  specialize (Hft Et). unfold malloc. destruct w as [h b n tl c]. cbn in *.
  destruct (Z.eqb_spec (m_stack env) NULL) as [Es|Es].
  - norm_world. rewrite update_insert. cbn [bind]. rewrite load_insert. cbn [bind].
    cbn [stack set_stack]. rewrite Es. cbn [Z.eqb NULL].
    unfold free_thread. norm_world. rewrite lookup_insert_eq.
    by rewrite delete_insert_eq, delete_id.
  - specialize (Hfs Es). destruct Hfail as [?|[?|Eg]]; [done|done|].
    norm_world. rewrite update_insert. cbn [bind]. rewrite load_insert. cbn [bind].
    cbn [stack set_stack]. rewrite (proj2 (Z.eqb_neq _ _) Es).
    rewrite update_insert. cbn [bind]. rewrite Eg. cbn [Z.eqb Z.opp Pos.eqb].
    rewrite load_insert. cbn [bind stack set_stack set_state].
    unfold free. rewrite (proj2 (Z.eqb_neq _ _) Es). norm_world.
    rewrite lookup_insert_eq. cbn [bind]. unfold free_thread. norm_world.
    rewrite lookup_insert_eq.
    by rewrite !delete_insert_eq, !delete_id.
Qed.

(** A [qthread_create] that does not fail writes [new_record] and links it. *)
Lemma qthread_create_success fuel env new_thread start_routine args w :
  ¬ create_fails env →
  qthread_create fuel env new_thread start_routine args w =
    let* w9 := list_insert fuel (m_thread env)
                 (with_threads
                    (<[m_thread env :=
                         new_record env start_routine args (stack_size w)
                           (next (m_junk env))]> (threads w))
                    (with_buffers (<[m_stack env := stack_size w]> (buffers w)) w)) in
    Done (w9, 0, if new_thread then Some (m_thread env) else None).
Proof.
  intros Hok. unfold create_fails in Hok.
  assert (m_thread env ≠ NULL ∧ m_stack env ≠ NULL ∧ getcontext_ret env ≠ -1)
    as (Et & Es & Eg) by tauto.
  unfold qthread_create, malloc_thread, malloc.
  rewrite (proj2 (Z.eqb_neq _ _) Et), (proj2 (Z.eqb_neq _ _) Es).
  destruct w as [h b n tl c]. norm_world.
  rewrite update_insert. cbn [bind]. rewrite load_insert. cbn [bind].
  cbn [stack set_stack]. rewrite (proj2 (Z.eqb_neq _ _) Es).
  rewrite update_insert. cbn [bind]. rewrite (proj2 (Z.eqb_neq _ _) Eg).
  rewrite update_insert. cbn [bind]. rewrite load_insert. cbn [bind].
  rewrite update_insert. cbn [bind].
  rewrite update_insert. cbn [bind].
  rewrite update_insert. cbn [bind].
  rewrite update_insert. cbn [bind].
  done.
Qed.

Lemma registry_fresh w l t :
  registry w l → threads w !! t = None → t ∉ l.
Proof.
  intros [_ Hd] Hn Hin. apply not_elem_of_dom in Hn. apply Hn. rewrite Hd.
  by apply elem_of_list_to_set.
Qed.

Lemma registry_lookup w l a : registry w l → a ∈ l → is_Some (threads w !! a).
Proof.
  intros [_ Hd] Hin. apply elem_of_dom. rewrite Hd. by apply elem_of_list_to_set.
Qed.

(** A successful [qthread_create] appends the new READY record to the
    registry and keeps everything else. *)
Lemma qthread_create_registry fuel env new_thread start_routine args w l :
  registry w l → owns_stacks w → env_fresh env w = true → ¬ create_fails env →
  (length l ≤ fuel)%nat →
  ∃ w', qthread_create fuel env new_thread start_routine args w =
          Done (w', 0, if new_thread then Some (m_thread env) else None) ∧
    registry w' (l ++ [m_thread env]) ∧ owns_stacks w' ∧
    forget_next <$> threads w' !! m_thread env =
      Some (new_record env start_routine args (stack_size w) NULL) ∧
    (∀ a, a ≠ m_thread env →
       forget_next <$> threads w' !! a = forget_next <$> threads w !! a) ∧
    buffers w' = <[m_stack env := stack_size w]> (buffers w) ∧
    stack_size w' = stack_size w ∧ current w' = current w.
Proof.
  intros Hreg Hown [Hft Hfs]%env_fresh_spec Hok Hf.
  assert (m_thread env ≠ NULL ∧ m_stack env ≠ NULL) as [Et Es]
    by (unfold create_fails in Hok; tauto).
  specialize (Hft Et). specialize (Hfs Es).
  rewrite qthread_create_success by done.
  set (t := m_thread env) in *. set (s := m_stack env) in *.
  set (rec := new_record env start_routine args (stack_size w) (next (m_junk env))).
  set (w8 := with_threads (<[t := rec]> (threads w))
               (with_buffers (<[s := stack_size w]> (buffers w)) w)).
  pose proof (registry_fresh _ _ _ Hreg Hft) as Htl.
  assert (∀ a, a ≠ t → threads w8 !! a = threads w !! a) as Hoth.
  { intros a Ha. unfold w8. cbn. by rewrite lookup_insert_ne. }
  assert (linked w8 l) as Hl8.
  { destruct Hreg as [(Hnd & H0 & Hh & Hch) _]. split; [done|]. split; [done|].
    split; [done|]. eapply chain_frame; [done|]. intros a Ha. rewrite Hoth; [done|].
    by intros ->. }
  assert (threads w8 !! t = Some rec) as Hrec.
  { unfold w8. cbn. by rewrite lookup_insert_eq. }
  destruct (list_insert_linked fuel w8 l t rec Hl8 Htl Et Hrec Hf)
    as (w' & Hins & Hl' & Hb & Hss & Hcur & Hag).
  exists w'. rewrite Hins. cbn [bind]. split; [done|].
  pose proof (Hag _ forget_next ltac:(done)) as Hfn.
  pose proof (Hag _ stack ltac:(done)) as Hst.
  split; [|split; [|split; [|split; [|split; [|split]]]]].
  - split; [done|]. rewrite (agree_dom _ _ _ Hfn). unfold w8. cbn.
    rewrite dom_insert_L. destruct Hreg as [_ ->].
    rewrite list_to_set_app_L, list_to_set_singleton_L. apply (comm_L (∪)).
  - intros a r Hr Hsn.
    pose proof (Hst a) as Ha. rewrite Hr in Ha. cbn in Ha.
    assert (∀ a' r', threads w' !! a' = Some r' → a' ≠ t →
              ∃ r0, threads w !! a' = Some r0 ∧ stack r0 = stack r') as Hold.
    { intros a' r' Hr' Hne. pose proof (Hst a') as Ha'. rewrite Hr' in Ha'.
      rewrite Hoth in Ha' by done.
      destruct (threads w !! a') as [r0|]; simplify_eq/=. eauto. }
    assert (∀ a' r', threads w' !! a' = Some r' → a' = t → stack r' = s) as Hnew.
    { intros a' r' Hr' ->. pose proof (Hst t) as Ha'. rewrite Hr', Hrec in Ha'.
      by simplify_eq/=. }
    rewrite Hb. unfold w8. cbn. destruct (decide (a = t)) as [->|Hne].
    + rewrite (Hnew _ _ Hr eq_refl). split; [by rewrite lookup_insert_eq|].
      intros a' r' Hr' Hs'. destruct (decide (a' = t)) as [|Hne']; [done|].
      destruct (Hold _ _ Hr' Hne') as (r0 & Hr0 & Hs0).
      destruct (Hown a' r0 Hr0) as [[? Hal] _]; [congruence|].
      rewrite Hs0, Hs' in Hal. congruence.
    + destruct (Hold _ _ Hr Hne) as (r0 & Hr0 & Hs0).
      destruct (Hown a r0 Hr0) as [[n Hal] Huniq]; [congruence|].
      assert (stack r ≠ s) as Hrs by (intros E; rewrite Hs0, E in Hal; congruence).
      split; [rewrite lookup_insert_ne by done; rewrite <- Hs0; eauto|].
      intros a' r' Hr' Hs'. destruct (decide (a' = t)) as [->|Hne'].
      * rewrite (Hnew _ _ Hr' eq_refl) in Hs'. congruence.
      * destruct (Hold _ _ Hr' Hne') as (r0' & Hr0' & Hs0').
        eapply Huniq; [done|congruence].
  - rewrite Hfn, Hrec. done.
  - intros a Ha. by rewrite Hfn, Hoth.
  - by rewrite Hb.
  - by rewrite Hss.
  - by rewrite Hcur.
Qed.

(** ** Removal *)

Lemma find_prev_spec fuel w thread p l :
  chain (threads w) l thread → thread ∉ l → thread_list w ∉ l →
  (length l < fuel)%nat →
  find_prev fuel w thread p (hd thread l) = Done (List.last l p, thread).
Proof.
  revert p l. induction fuel as [|fuel IH]; intros p l Hc Hnt Hnh Hf; [lia|].
  destruct l as [|a l]; cbn [find_prev hd].
  - by rewrite Z.eqb_refl.
  - destruct Hc as [(r & Hr & Hnx) Hc].
    apply not_elem_of_cons in Hnt as [Hat Hnt]. apply not_elem_of_cons in Hnh as [Hah Hnh].
    rewrite (proj2 (Z.eqb_neq a thread)) by done.
    rewrite (proj2 (Z.eqb_neq a (thread_list w))) by done. cbn [negb andb].
    rewrite (load_lookup _ _ _ Hr). cbn [bind]. rewrite Hnx.
    rewrite last_cons_default. apply IH; [done|done|done|simpl in Hf; lia].
Qed.

(** Unlinking [t], the successor of [pv]. *)
Lemma chain_unlink h l1 pv t l2 stop rpv rt :
  chain h (l1 ++ pv :: t :: l2) stop →
  h !! pv = Some rpv → h !! t = Some rt → pv ∉ l1 → pv ∉ l2 →
  chain (<[pv := set_next (next rt) rpv]> h) (l1 ++ pv :: l2) stop.
Proof.
  intros [H1 H2]%chain_app Hpv Ht Hn1 Hn2.
  destruct H2 as [_ [(rt' & Hrt' & Hnx) H2]]. simplify_eq.
  apply chain_app. split.
  - eapply chain_frame; [done|]. intros a Ha. rewrite lookup_insert_ne; [done|].
    by intros ->.
  - split.
    + eexists. rewrite lookup_insert_eq. done.
    + eapply chain_frame; [done|]. intros a Ha. rewrite lookup_insert_ne; [done|].
      by intros ->.
Qed.

Lemma agree_insert_next {B} (f : thread_t → B) p nx rp w :
  (∀ q r, f (set_next q r) = f r) → threads w !! p = Some rp →
  agree f w (with_threads (<[p := set_next nx rp]> (threads w)) w).
Proof.
  intros Hf Hrp a. cbn. destruct (decide (a = p)) as [->|Hne].
  - by rewrite lookup_insert_eq, Hrp; simpl; rewrite Hf.
  - by rewrite lookup_insert_ne.
Qed.

Lemma list_remove_linked fuel w l1 thread l2 :
  linked w (l1 ++ thread :: l2) →
  (length (l1 ++ thread :: l2) ≤ fuel)%nat →
  ∃ w', list_remove fuel thread w = Done w' ∧ linked w' (l1 ++ l2) ∧
    buffers w' = buffers w ∧ stack_size w' = stack_size w ∧
    current w' = current w ∧
    ∀ (B : Type) (f : thread_t → B), (∀ p r, f (set_next p r) = f r) → agree f w w'.
Proof.
  intros Hl Hf. pose proof (linked_nonempty _ _ Hl ltac:(by destruct l1)) as Hnn.
  destruct Hl as (Hnd & H0 & Hh & Hch). unfold list_remove.
  rewrite (proj2 (Z.eqb_neq _ _) Hnn).
  assert (NoDup (l1 ++ l2) ∧ (NULL ∉ l1 ++ l2) ∧ (thread ∉ l1 ++ l2)) as (Hnd' & H0' & Hth).
  { apply NoDup_app in Hnd as (Hn1 & Hdisj & Hn2). apply NoDup_cons in Hn2 as [Ht2 Hn2].
    split; [|split].
    - apply NoDup_app. split; [done|]. split; [|done]. intros x Hx Hx2.
      apply (Hdisj x Hx). apply elem_of_cons. by right.
    - intros [?|?]%elem_of_app; apply H0; apply elem_of_app; [by left|].
      right. apply elem_of_cons. by right.
    - intros [Hx|?]%elem_of_app; [|done]. apply (Hdisj _ Hx). apply elem_of_cons. by left. }
  apply not_elem_of_app in Hth as [Hth1 Hth2].
  destruct l1 as [|hd0 l1]; cbn [app hd] in *.
  - (* the target is the head *)
    subst thread. set (thread := thread_list w) in *.
    destruct Hch as [(rth & Hrth & Hnx) Hch].
    rewrite (load_lookup _ _ _ Hrth). cbn [bind]. rewrite Hnx.
    destruct l2 as [|b l2]; cbn [hd].
    + rewrite Z.eqb_refl. cbn [andb]. eexists. split; [done|].
      split; [|done]. split; [done|]. split; [done|]. by split.
    + apply not_elem_of_cons in Hth2 as [Hbt Hth2].
      rewrite (proj2 (Z.eqb_neq thread b)) by done. cbn [andb].
      change b with (hd thread (b :: l2)) at 1.
      rewrite (find_prev_spec fuel w thread thread (b :: l2));
        [|done|by apply not_elem_of_cons|by apply not_elem_of_cons|cbn [length] in *; lia].
      cbn [bind]. rewrite Z.eqb_refl. rewrite (load_lookup _ _ _ Hrth). cbn [bind].
      rewrite last_cons_default. destruct (snoc_last b l2) as [l' Hl'].
      set (pv := List.last l2 b) in *.
      assert (pv ∈ b :: l2) as Hpvin.
      { rewrite Hl'. apply elem_of_app. right. by apply list_elem_of_singleton. }
      destruct (chain_lookup _ _ _ _ Hch Hpvin) as [rpv Hrpv].
      rewrite (update_lookup pv _ w rpv Hrpv). cbn [bind].
      cbn [thread_list with_threads]. fold thread. rewrite Z.eqb_refl.
      unfold load. cbn [threads with_threads]. rewrite lookup_insert_eq. cbn [bind].
      eexists. split; [done|]. cbn [next set_next].
      split; [|split; [done|split; [done|split; [done|]]]].
      * split; [done|]. split; [done|]. cbn [thread_list set_thread_list hd].
        split; [done|]. cbn [threads set_thread_list with_threads].
        rewrite Hnx. cbn [hd].
        assert (chain (threads w) (l' ++ pv :: thread :: []) b) as Hch'.
        { change (l' ++ [pv; thread]) with (l' ++ [pv] ++ [thread]).
          rewrite app_assoc, <- Hl'. apply chain_app. split; [done|].
          split; [|done]. exists rth. by rewrite Hnx. }
        rewrite Hl' in Hnd'. apply NoDup_app in Hnd' as (_ & Hdisj & _).
        pose proof (chain_unlink _ _ _ _ _ _ _ _ Hch' Hrpv Hrth) as Hu.
        rewrite Hnx in Hu. cbn [hd] in Hu. rewrite Hl'. apply Hu.
        -- intros Hin. apply (Hdisj _ Hin). by apply list_elem_of_singleton.
        -- apply not_elem_of_nil.
      * intros B f Hfn. by apply agree_insert_next.
  - (* the target is not the head *)
    apply not_elem_of_cons in Hth1 as [Hht Hth1].
    apply NoDup_cons in Hnd' as [Hh0 Hnd'].
    apply not_elem_of_app in Hh0 as [Hh1 Hh2].
    destruct Hch as [(rh & Hrh & Hnx) Hch]. rewrite Hh.
    rewrite (load_lookup _ _ _ Hrh). cbn [bind]. rewrite Hnx.
    rewrite hd_app_cons.
    rewrite (proj2 (Z.eqb_neq hd0 thread)) by done. rewrite andb_false_r.
    pose proof Hch as [Hch1 Hch2]%chain_app. cbn [hd] in Hch1.
    rewrite (find_prev_spec fuel w thread hd0 l1);
      [|done|done|by rewrite Hh|cbn [length] in *; rewrite length_app in Hf; lia].
    cbn [bind]. rewrite Z.eqb_refl.
    destruct Hch2 as [(rth & Hrth & Hnxt) Hch2].
    rewrite (load_lookup _ _ _ Hrth). cbn [bind].
    destruct (snoc_last hd0 l1) as [l' Hl'].
    set (pv := List.last l1 hd0) in *.
    assert (is_Some (threads w !! pv)) as [rpv Hrpv].
    { apply (chain_lookup _ (hd0 :: l1 ++ thread :: l2) hd0).
      - split; [|done]. exists rh. by rewrite Hnx.
      - change (hd0 :: l1 ++ thread :: l2) with ((hd0 :: l1) ++ thread :: l2).
        rewrite Hl'. apply elem_of_app. left. apply elem_of_app. right.
        by apply list_elem_of_singleton. }
    rewrite (update_lookup pv _ w rpv Hrpv). cbn [bind].
    cbn [thread_list with_threads]. rewrite Hh.
    rewrite (proj2 (Z.eqb_neq hd0 thread)) by done.
    eexists. split; [done|]. split; [|split; [done|split; [done|split; [done|]]]].
    + split; [by apply NoDup_cons; split; [apply not_elem_of_app|]|].
      split; [done|]. split; [done|]. cbn [threads with_threads hd].
      assert (chain (threads w) (l' ++ pv :: thread :: l2) hd0) as Hch'.
      { change (l' ++ pv :: thread :: l2) with (l' ++ [pv] ++ thread :: l2).
        rewrite app_assoc, <- Hl'. split; [|done]. exists rh. by rewrite Hnx. }
      assert (NoDup (l' ++ [pv] ++ l2)) as Hnd''.
      { rewrite app_assoc, <- Hl'. apply NoDup_cons. split; [by apply not_elem_of_app|done]. }
      apply NoDup_app in Hnd'' as (_ & Hdisj & Hnd2).
      apply NoDup_cons in Hnd2 as [Hpv2 _].
      pose proof (chain_unlink _ _ _ _ _ _ _ _ Hch' Hrpv Hrth) as Hu.
      change (hd0 :: l1 ++ l2) with ((hd0 :: l1) ++ l2). rewrite Hl', <- app_assoc.
      apply Hu; [|done].
      intros Hin. apply (Hdisj _ Hin). apply elem_of_cons. by left.
    + intros B f Hfn. by apply agree_insert_next.
Qed.

(** ** qthread_join *)

(** A join on a record that is not FINISHED is one call of the scheduler. *)
Lemma qthread_join_wait fuel thread retval_ptr here w r :
  threads w !! thread = Some r → state r ≠ FINISHED →
  qthread_join fuel thread retval_ptr here w =
    let* '(w1, tr) := qscheduler fuel here w in Done (w1, JoinYield tr).
Proof.
  intros Hr Hs. unfold qthread_join. rewrite (load_lookup _ _ _ Hr). cbn [bind].
  by destruct (state r).
Qed.

(** A join on a FINISHED record of the registry returns its result,
    unlinks it and frees it together with its stack. *)
Lemma qthread_join_done fuel thread retval_ptr here w l1 l2 r :
  registry w (l1 ++ thread :: l2) → owns_stacks w →
  threads w !! thread = Some r → state r = FINISHED →
  (length (l1 ++ thread :: l2) ≤ fuel)%nat →
  ∃ w', qthread_join fuel thread retval_ptr here w =
          Done (w', JoinDone 0 (if retval_ptr then Some (retval r) else None)) ∧
    registry w' (l1 ++ l2) ∧ owns_stacks w' ∧
    threads w' !! thread = None ∧
    (∀ a, a ≠ thread →
       forget_next <$> threads w' !! a = forget_next <$> threads w !! a) ∧
    buffers w' = (if stack r =? NULL then buffers w
                  else delete (stack r) (buffers w)) ∧
    stack_size w' = stack_size w ∧ current w' = current w.
Proof.
  intros [Hl Hd] Hown Hr Hfin Hf. unfold qthread_join.
  rewrite (load_lookup _ _ _ Hr). cbn [bind]. rewrite Hfin. cbn [is_finished negb].
  destruct (list_remove_linked fuel w l1 thread l2 Hl Hf)
    as (w1 & Hrem & Hl1 & Hb1 & Hss1 & Hcur1 & Hag).
  rewrite Hrem. cbn [bind].
  pose proof (Hag _ forget_next ltac:(done)) as Hfn.
  pose proof (Hag _ stack ltac:(done)) as Hst.
  pose proof (Hst thread) as Hst1. rewrite Hr in Hst1.
  destruct (threads w1 !! thread) as [r1|] eqn:Hr1; [|done]. cbn in Hst1.
  injection Hst1 as Hst1.
  rewrite (load_lookup _ _ _ Hr1). cbn [bind]. rewrite Hst1.
  assert (thread ∉ l1 ++ l2) as Hnotin.
  { destruct Hl as (Hnd & _). apply NoDup_app in Hnd as (_ & Hdisj & Hn2).
    apply NoDup_cons in Hn2 as [? _]. intros [Hx|?]%elem_of_app; [|done].
    apply (Hdisj _ Hx). apply elem_of_cons. by left. }
  set (b' := if stack r =? NULL then buffers w else delete (stack r) (buffers w)).
  assert (free (stack r) w1 = Done (with_buffers b' w1)) as Hfree.
  { unfold free, b'. destruct (Z.eqb_spec (stack r) NULL) as [E|E].
    - rewrite <- Hb1. by destruct w1.
    - destruct (Hown thread r Hr E) as [[n Hn] _]. by rewrite Hb1, Hn. }
  rewrite Hfree. cbn [bind]. unfold free_thread. cbn [threads with_buffers].
  rewrite Hr1. eexists. split; [done|]. cbn [threads buffers stack_size current with_threads with_buffers].
  assert (∀ a r', delete thread (threads w1) !! a = Some r' →
            a ≠ thread ∧ ∃ r0, threads w !! a = Some r0 ∧ stack r0 = stack r')
    as Hold.
  { intros a r' [Hne Hr']%lookup_delete_Some. split; [done|].
    pose proof (Hst a) as Ha. rewrite Hr' in Ha.
    destruct (threads w !! a) as [r0|]; simplify_eq/=. eauto. }
  split; [|split; [|split; [|split; [|split; [|split]]]]]; try done.
  - split.
    + destruct Hl1 as (Hnd1 & H01 & Hh1 & Hch1). split; [done|]. split; [done|].
      split; [done|]. cbn [threads with_threads with_buffers].
      eapply chain_frame; [done|]. intros a Ha. rewrite lookup_delete_ne; [done|].
      by intros ->.
    + cbn [threads with_threads with_buffers]. rewrite dom_delete_L.
      rewrite (agree_dom _ _ _ Hfn), Hd, !list_to_set_app_L, list_to_set_cons.
      apply not_elem_of_app in Hnotin as [? ?].
      assert (thread ∉ (list_to_set l1 : gset Z)) by by rewrite elem_of_list_to_set.
      assert (thread ∉ (list_to_set l2 : gset Z)) by by rewrite elem_of_list_to_set.
      apply set_eq. intros x.
      rewrite elem_of_difference, !elem_of_union, elem_of_singleton.
      destruct (decide (x = thread)) as [->|Hx]; intuition congruence.
  - intros a r' Hr' Hsn. cbn [threads buffers with_threads with_buffers] in *.
    destruct (Hold _ _ Hr') as (Hne & r0 & Hr0 & Hs0).
    destruct (Hown a r0 Hr0) as [[n Hal] Huniq]; [congruence|].
    assert (stack r' ≠ stack r) as Hrs.
    { intros E. apply Hne. symmetry. eapply (Huniq thread r); [done|congruence]. }
    split.
    + unfold b'. destruct (stack r =? NULL); [rewrite <- Hs0; eauto|].
      rewrite lookup_delete_ne by done. rewrite <- Hs0. eauto.
    + intros a' r'' Hr'' Hs''. destruct (Hold _ _ Hr'') as (Hne' & r0' & Hr0' & Hs0').
      eapply Huniq; [done|congruence].
  - by rewrite lookup_delete_eq.
  - intros a Ha. rewrite lookup_delete_ne by done. apply Hfn.
Qed.

(** ** More fuel does not change a result *)

Lemma le_res_refl {A} (x : result A) : le_res x x.
Proof. by intros a. Qed.

Lemma le_res_bind {A B} (m m' : result A) (k k' : A → result B) :
  le_res m m' → (∀ a, le_res (k a) (k' a)) → le_res (bind m k) (bind m' k').
Proof.
  intros Hm Hk b Hb. apply bind_Done in Hb as (a & Ha & Hb).
  rewrite (Hm _ Ha). by apply Hk.
Qed.

Ltac mono_step :=
  match goal with
  | |- le_res ?x ?x => apply le_res_refl
  | |- le_res (bind _ _) (bind _ _) => apply le_res_bind; [|intros ?]
  | |- le_res (if ?b then _ else _) (if ?b then _ else _) => destruct b
  | |- le_res (let ' pair _ _ := ?x in _) _ => destruct x
  | |- le_res (match ?x with Some _ => _ | None => _ end) _ => destruct x
  end.

Lemma scan_from_head_mono fuel fuel' w t :
  (fuel ≤ fuel')%nat → le_res (scan_from_head fuel w t) (scan_from_head fuel' w t).
Proof.
  revert fuel' t. induction fuel as [|fuel IH]; intros fuel' t Hle; [done|].
  destruct fuel' as [|fuel']; [lia|]. cbn [scan_from_head].
  repeat mono_step. apply IH. lia.
Qed.

Lemma scan_after_current_mono fuel fuel' w t :
  (fuel ≤ fuel')%nat →
  le_res (scan_after_current fuel w t) (scan_after_current fuel' w t).
Proof.
  revert fuel' t. induction fuel as [|fuel IH]; intros fuel' t Hle; [done|].
  destruct fuel' as [|fuel']; [lia|]. cbn [scan_after_current].
  repeat mono_step. apply IH. lia.
Qed.

Lemma find_tail_mono fuel fuel' w t :
  (fuel ≤ fuel')%nat → le_res (find_tail fuel w t) (find_tail fuel' w t).
Proof.
  revert fuel' t. induction fuel as [|fuel IH]; intros fuel' t Hle; [done|].
  destruct fuel' as [|fuel']; [lia|]. cbn [find_tail].
  repeat mono_step. apply IH. lia.
Qed.

Lemma find_prev_mono fuel fuel' w thread prev curr :
  (fuel ≤ fuel')%nat →
  le_res (find_prev fuel w thread prev curr) (find_prev fuel' w thread prev curr).
Proof.
  revert fuel' prev curr. induction fuel as [|fuel IH]; intros fuel' prev curr Hle; [done|].
  destruct fuel' as [|fuel']; [lia|]. cbn [find_prev].
  repeat mono_step. apply IH. lia.
Qed.

Lemma sched_select_mono fuel fuel' w :
  (fuel ≤ fuel')%nat → le_res (sched_select fuel w) (sched_select fuel' w).
Proof.
  intros Hle. unfold sched_select.
  repeat first [mono_step | by apply scan_from_head_mono
               | by apply scan_after_current_mono].
Qed.

Lemma qscheduler_mono fuel fuel' here w :
  (fuel ≤ fuel')%nat → le_res (qscheduler fuel here w) (qscheduler fuel' here w).
Proof.
  intros Hle. unfold qscheduler. repeat first [mono_step | by apply sched_select_mono].
Qed.

Lemma qthread_exit_mono fuel fuel' value here w :
  (fuel ≤ fuel')%nat →
  le_res (qthread_exit fuel value here w) (qthread_exit fuel' value here w).
Proof.
  intros Hle. unfold qthread_exit. repeat first [mono_step | by apply qscheduler_mono].
Qed.

Lemma list_insert_mono fuel fuel' t w :
  (fuel ≤ fuel')%nat → le_res (list_insert fuel t w) (list_insert fuel' t w).
Proof.
  intros Hle. unfold list_insert. repeat first [mono_step | by apply find_tail_mono].
Qed.

Lemma qthread_create_mono fuel fuel' env new_thread start_routine args w :
  (fuel ≤ fuel')%nat →
  le_res (qthread_create fuel env new_thread start_routine args w)
         (qthread_create fuel' env new_thread start_routine args w).
Proof.
  intros Hle. unfold qthread_create.
  repeat first [mono_step | by apply list_insert_mono].
Qed.

Lemma list_remove_mono fuel fuel' thread w :
  (fuel ≤ fuel')%nat → le_res (list_remove fuel thread w) (list_remove fuel' thread w).
Proof.
  intros Hle. unfold list_remove. repeat first [mono_step | by apply find_prev_mono].
Qed.

Lemma qthread_join_mono fuel fuel' thread retval_ptr here w :
  (fuel ≤ fuel')%nat →
  le_res (qthread_join fuel thread retval_ptr here w)
         (qthread_join fuel' thread retval_ptr here w).
Proof.
  intros Hle. unfold qthread_join.
  repeat first [mono_step | by apply qscheduler_mono | by apply list_remove_mono].
Qed.

Lemma exec_mono fuel fuel' c w :
  (fuel ≤ fuel')%nat → le_res (exec fuel c w) (exec fuel' c w).
Proof.
  intros Hle. destruct c; cbn [exec];
    repeat first [mono_step | by apply qscheduler_mono | by apply qthread_exit_mono
                 | by apply qthread_create_mono | by apply qthread_join_mono].
Qed.

Lemma run_mono fuel fuel' cs w :
  (fuel ≤ fuel')%nat → le_res (run fuel cs w) (run fuel' cs w).
Proof.
  intros Hle. revert w. induction cs as [|c cs IH]; intros w; cbn [run]; [apply le_res_refl|].
  repeat first [mono_step | by apply exec_mono | by apply IH].
Qed.

(** ** One call keeps the registry well formed *)

Lemma without_app t l1 l2 : t ∉ l1 → without t (l1 ++ t :: l2) = l1 ++ l2.
Proof.
  induction l1 as [|a l1 IH]; cbn [app without]; intros Hn.
  - by rewrite decide_True.
  - apply not_elem_of_cons in Hn as [Hne Hn]. rewrite decide_False by done.
    by rewrite IH.
Qed.

Lemma outcome_of_forget_next (o' o : option thread_t) :
  forget_next <$> o' = forget_next <$> o → outcome <$> o' = outcome <$> o.
Proof.
  destruct o' as [r'|], o as [r|]; cbn; try done.
  intros [= ? ? ? ?]. unfold outcome. congruence.
Qed.

Lemma qscheduler_step fuel here w w' tr l :
  registry w l → owns_stacks w → qscheduler fuel here w = Done (w', tr) →
  registry w' l ∧ owns_stacks w' ∧ agree outcome w w' ∧
  stack_size w' = stack_size w ∧ buffers w' = buffers w ∧
  (current w' = current w ∨ state_at w' (current w') = Some READY) ∧
  match dispatched tr with
  | Some t => current w' = t ∧ state_at w' t = Some READY
  | None => current w' = current w
  end.
Proof.
  intros Hreg Hown Hs.
  pose proof (qscheduler_globals _ _ _ _ _ Hs) as (Hb & Hss & Htl).
  pose proof (qscheduler_agree next _ _ _ _ _ ltac:(done) Hs) as Hn.
  pose proof (qscheduler_agree stack _ _ _ _ _ ltac:(done) Hs) as Hst.
  pose proof (qscheduler_agree outcome _ _ _ _ _ ltac:(done) Hs) as Ho.
  pose proof (qscheduler_agree state _ _ _ _ _ ltac:(done) Hs) as Hstate.
  split; [by eapply registry_agree|]. split; [by eapply owns_stacks_agree|].
  split; [done|]. split; [done|]. split; [done|].
  apply qscheduler_current in Hs. destruct (dispatched tr) as [t|].
  - destruct Hs as [<- Hr]. rewrite <- (state_at_agree _ _ _ Hstate) in Hr.
    split; [by right|done].
  - subst. split; [by left|done].
Qed.

(** What one call does to a well-formed world. *)
Lemma exec_step fuel c w w' e l :
  registry w l → owns_stacks w → admissible c w = true →
  exec fuel c w = Done (w', e) →
  registry w' (registry_after c e l) ∧ owns_stacks w' ∧
  (∀ a r', threads w' !! a = Some r' →
     (∃ r, threads w !! a = Some r ∧ outcome r' = outcome r) ∨
     ((a ∉ l) ∧ state r' = READY) ∨
     (∃ value here, c = Exit value here ∧ a = current w ∧
        outcome r' = (FINISHED, value))) ∧
  (current w' = current w ∨ state_at w' (current w') = Some READY) ∧
  ((∀ size, c ≠ SetStacksize size) → stack_size w' = stack_size w) ∧
  (∀ value here, c = Exit value here →
     outcome <$> threads w' !! current w = Some (FINISHED, value)) ∧
  match dispatched (event_transfer e) with
  | Some t => current w' = t ∧ state_at w' t = Some READY
  | None => current w' = current w
  end.
Proof.
  intros Hreg Hown Hadm Hex.
  assert (∀ w0 : world, agree outcome w w0 →
            ∀ a r', threads w0 !! a = Some r' →
              ∃ r, threads w !! a = Some r ∧ outcome r' = outcome r) as Hkeep.
  { intros w0 Hag a r' Hr'. specialize (Hag a). rewrite Hr' in Hag.
    destruct (threads w !! a) as [r|]; [|done]. exists r. split; [done|].
    cbn in Hag. congruence. }
  apply (exec_mono fuel (max fuel (length l))) in Hex; [|lia].
  assert (length l ≤ max fuel (length l))%nat as Hf by lia.
  revert Hex Hf. generalize (max fuel (length l)). clear fuel. intros fuel Hex Hf.
  destruct c as [size| |here|value here|env nt sr args|thread rp here]; cbn [exec] in Hex.
  - (* set_stacksize *)
    simplify_eq. cbn [registry_after event_transfer dispatched].
    split; [by apply (registry_agree w)|].
    split; [by apply (owns_stacks_agree w)|].
    split; [intros a r' Hr'; left; eauto|]. split; [by left|].
    split; [intros Hne; by destruct (Hne size)|]. by split.
  - (* self *)
    simplify_eq. cbn [registry_after event_transfer dispatched].
    split; [done|]. split; [done|].
    split; [intros a r' Hr'; left; eauto|]. split; [by left|]. by split.
  - (* scheduler *)
    done_inv. simplify_eq. cbn [registry_after event_transfer].
    match goal with Hq : qscheduler _ _ _ = Done _ |- _ =>
      destruct (qscheduler_step _ _ _ _ _ _ Hreg Hown Hq) as (? & ? & Hag & ? & ? & ? & ?)
    end.
    split; [done|]. split; [done|].
    split; [intros a r' Hr'; left; by apply (Hkeep w')|]. by repeat split.
  - (* exit *)
    done_inv. simplify_eq. cbn [registry_after event_transfer].
    match goal with Hq : qthread_exit _ _ _ _ = Done _ |- _ =>
      apply qthread_exit_inv in Hq as (rc & Hrc & Hs)
    end.
    cbn zeta in Hs. set (w2 := with_threads _ w) in Hs.
    assert (agree next w w2) as Hn2.
    { intros a. unfold w2. cbn. destruct (decide (a = current w)) as [->|Hne].
      - by rewrite lookup_insert_eq, Hrc.
      - by rewrite lookup_insert_ne. }
    assert (agree stack w w2) as Hs2.
    { intros a. unfold w2. cbn. destruct (decide (a = current w)) as [->|Hne].
      - by rewrite lookup_insert_eq, Hrc.
      - by rewrite lookup_insert_ne. }
    pose proof (registry_agree _ _ _ Hreg Hn2 eq_refl) as Hreg2.
    pose proof (owns_stacks_agree _ _ Hown Hs2 eq_refl) as Hown2.
    destruct (qscheduler_step _ _ _ _ _ _ Hreg2 Hown2 Hs) as (? & ? & Hag & ? & ? & ? & ?).
    assert (outcome <$> threads w' !! current w = Some (FINISHED, value)) as Hfin.
    { rewrite (Hag (current w)). unfold w2. cbn. by rewrite lookup_insert_eq. }
    split; [done|]. split; [done|]. split; [|split; [done|split; [done|split; [|done]]]].
    + intros a r' Hr'. destruct (decide (a = current w)) as [->|Hne].
      * right; right. exists value, here. rewrite Hr' in Hfin. cbn in Hfin.
        split; [done|]. split; [done|]. congruence.
      * left. specialize (Hag a). rewrite Hr' in Hag. unfold w2 in Hag. cbn in Hag.
        rewrite lookup_insert_ne in Hag by done.
        destruct (threads w !! a) as [r|]; [|done]. exists r. split; [done|].
        cbn in Hag. congruence.
    + intros v h [= -> ->]. done.
  - (* create *)
    done_inv. simplify_eq. cbn [admissible] in Hadm.
    cbn [registry_after event_transfer dispatched].
    match goal with Hq : qthread_create _ _ _ _ _ _ = Done _ |- _ => rename Hq into Hc end.
    destruct (decide (create_fails env)) as [Hfail|Hok].
    + rewrite (qthread_create_fail _ _ _ _ _ _ Hadm Hfail) in Hc. simplify_eq.
      cbn. split; [done|]. split; [done|].
      split; [intros a r' Hr'; left; eauto|]. split; [by left|]. by split.
    + destruct (qthread_create_registry fuel env nt sr args w l Hreg Hown Hadm Hok Hf)
        as (w9 & Hcr & Hreg9 & Hown9 & Hnew & Hoth & Hb & Hss & Hcur).
      rewrite Hcr in Hc. simplify_eq. cbn.
      split; [done|]. split; [done|]. split; [|split; [by left|by split]].
      intros a r' Hr'. destruct (decide (a = m_thread env)) as [->|Hne].
      * right; left. split.
        -- apply (registry_fresh _ _ _ Hreg). apply env_fresh_spec in Hadm as [Hft _].
           apply Hft. unfold create_fails in Hok. tauto.
        -- rewrite Hr' in Hnew. cbn in Hnew. injection Hnew; auto.
      * left. specialize (Hoth a Hne). apply outcome_of_forget_next in Hoth.
        rewrite Hr' in Hoth. destruct (threads w !! a) as [r|]; [|done].
        exists r. split; [done|]. cbn in Hoth. congruence.
  - (* join *)
    done_inv. simplify_eq.
    match goal with Hq : qthread_join _ _ _ _ _ = Done _ |- _ => rename Hq into Hj end.
    assert (∃ r, threads w !! thread = Some r) as [r Hr].
    { unfold qthread_join in Hj. done_inv. eauto. }
    destruct (decide (state r = FINISHED)) as [Hfin|Hnf].
    + assert (thread ∈ l) as Hin.
      { pose proof Hreg as [_ Hd]. apply (elem_of_list_to_set (C:=gset Z)).
        rewrite <- Hd. apply elem_of_dom. eauto. }
      apply list_elem_of_split_l in Hin as (l1 & l2 & -> & Hn1).
      destruct (qthread_join_done fuel thread rp here w l1 l2 r Hreg Hown Hr Hfin Hf)
        as (w9 & Hjd & Hreg9 & Hown9 & Hgone & Hoth & Hb & Hss & Hcur).
      rewrite Hjd in Hj. simplify_eq. cbn [registry_after event_transfer dispatched].
      rewrite without_app by done.
      split; [done|]. split; [done|]. split; [|split; [by left|by split]].
      intros a r' Hr'. destruct (decide (a = thread)) as [->|Hne]; [congruence|].
      left. specialize (Hoth a Hne). apply outcome_of_forget_next in Hoth.
      rewrite Hr' in Hoth. destruct (threads w !! a) as [r0|]; [|done].
      exists r0. split; [done|]. cbn in Hoth. congruence.
    + rewrite (qthread_join_wait _ _ _ _ _ _ Hr Hnf) in Hj. done_inv. simplify_eq.
      cbn [registry_after event_transfer].
      match goal with Hq : qscheduler _ _ _ = Done _ |- _ =>
        destruct (qscheduler_step _ _ _ _ _ _ Hreg Hown Hq) as (? & ? & Hag & ? & ? & ? & ?)
      end.
      split; [done|]. split; [done|].
      split; [intros a r' Hr'; left; by apply (Hkeep w')|]. by repeat split.
Qed.

(** ** Traces *)

Lemma initial_registry : registry initial_world [] ∧ owns_stacks initial_world.
Proof.
  split; [split|].
  - repeat split; [apply NoDup_nil_2|apply not_elem_of_nil].
  - cbn. by rewrite dom_empty_L.
  - intros a r Hr. cbn in Hr. by rewrite lookup_empty in Hr.
Qed.

Lemma run_cons_inv fuel c cs w w' es :
  run fuel (c :: cs) w = Done (w', es) →
  ∃ w1 e es', admissible c w = true ∧ exec fuel c w = Done (w1, e) ∧
    run fuel cs w1 = Done (w', es') ∧ es = e :: es'.
Proof.
  cbn [run]. destruct (admissible c w); [|done]. intros H. done_inv.
  simplify_eq. eauto 10.
Qed.

Lemma run_wf fuel cs w w' es l :
  registry w l → owns_stacks w → run fuel cs w = Done (w', es) →
  ∃ l', registry w' l' ∧ owns_stacks w'.
Proof.
  revert w es l. induction cs as [|c cs IH]; intros w es l Hreg Hown Hrun.
  - cbn in Hrun. simplify_eq. eauto.
  - apply run_cons_inv in Hrun as (w1 & e & es' & Hadm & Hex & Hrun & ->).
    destruct (exec_step _ _ _ _ _ _ Hreg Hown Hadm Hex) as (Hreg1 & Hown1 & _).
    eauto.
Qed.

(** ** The claims *)

(** C1: from a registered current thread, the scheduler dispatches a
    record exactly when it is the first READY record in circular registry
    order strictly after current; the dispatch is a swap from current to
    that record. Only states and list order enter the choice. *)
Theorem scheduler_round_robin fuel here w before c after :
  registry w (before ++ c :: after) → current w = c →
  (length (before ++ c :: after) ≤ fuel)%nat →
  ∃ w' tr, qscheduler fuel here w = Done (w', tr) ∧
    ∀ t, (dispatched tr = Some t ↔ first_ready_in w (after ++ before) t) ∧
         (dispatched tr = Some t → tr = SwapContext c t ∧ current w' = t).
Proof.
  intros Hreg Hc Hf.
  assert (c ∈ before ++ c :: after) as Hin.
  { apply elem_of_app. right. apply elem_of_cons. by left. }
  destruct (registry_lookup _ _ _ Hreg Hin) as [rc Hrc]. destruct Hreg as [Hl _].
  rewrite (qscheduler_after fuel here w before c after rc Hl Hc Hrc Hf).
  destruct (first_ready w (after ++ before)) as [t0|] eqn:Ef.
  - eexists _, _. split; [done|]. intros t. cbn [dispatched]. split.
    + split.
      * intros [= <-]. by apply first_ready_Some.
      * intros Ht%first_ready_Some. congruence.
    + by intros [= <-].
  - eexists _, _. split; [done|]. intros t. cbn [dispatched]. split; [|done].
    split; [done|]. intros Ht%first_ready_Some. congruence.
Qed.

Lemma scheduler_round_robin_witness :
  ∃ w' tr, qscheduler 3 9 trio = Done (w', tr) ∧
    ∀ t, (dispatched tr = Some t ↔ first_ready_in trio ([2; 3] ++ []) t) ∧
         (dispatched tr = Some t → tr = SwapContext 1 t ∧ current w' = t).
Proof.
  apply (scheduler_round_robin 3 9 trio [] 1 [2; 3]).
  - compute_done.
  - reflexivity.
  - simpl. lia.
Defined.

(** C7: when no other record is READY, the scheduler settles on current
    if current is READY and on nothing otherwise; either way the call
    returns without a switch and leaves the world as it was. *)
Theorem scheduler_no_other_ready fuel here w before c after :
  registry w (before ++ c :: after) → current w = c →
  (length (before ++ c :: after) ≤ fuel)%nat →
  Forall (λ a, state_at w a ≠ Some READY) (after ++ before) →
  (state_at w c = Some READY → sched_select fuel w = Done (Some c)) ∧
  (state_at w c ≠ Some READY → sched_select fuel w = Done None) ∧
  qscheduler fuel here w = Done (w, NoSwitch).
Proof.
  intros Hreg Hc Hf Hnone.
  assert (c ∈ before ++ c :: after) as Hin.
  { apply elem_of_app. right. apply elem_of_cons. by left. }
  destruct (registry_lookup _ _ _ Hreg Hin) as [rc Hrc]. destruct Hreg as [Hl _].
  rewrite (qscheduler_after fuel here w before c after rc Hl Hc Hrc Hf).
  rewrite (sched_select_after fuel w before c after Hl Hc Hf).
  apply first_ready_None in Hnone. rewrite Hnone.
  split; [|split; [|done]].
  - intros Hr%ready_at_state. by rewrite Hr.
  - intros Hr%ready_at_false. by rewrite Hr.
Qed.

Lemma scheduler_no_other_ready_witness :
  (sched_select 1 solo = Done (Some 1) ∧ qscheduler 1 9 solo = Done (solo, NoSwitch)) ∧
  (sched_select 1 solo_done = Done None ∧
   qscheduler 1 9 solo_done = Done (solo_done, NoSwitch)).
Proof.
  split.
  - destruct (scheduler_no_other_ready 1 9 solo [] 1 []) as (Hready & _ & Hsame);
      [compute_done|reflexivity|simpl; lia|constructor|].
    split; [apply Hready; reflexivity|exact Hsame].
  - destruct (scheduler_no_other_ready 1 9 solo_done [] 1 []) as (_ & Hnot & Hsame);
      [compute_done|reflexivity|simpl; lia|constructor|].
    split; [apply Hnot; discriminate|exact Hsame].
Defined.







(** [qthread_exit] from a registered current thread. *)
Lemma qthread_exit_after fuel value here w before c after :
  registry w (before ++ c :: after) → current w = c →
  (length (before ++ c :: after) ≤ fuel)%nat →
  ∃ w', qthread_exit fuel value here w =
          Done (w', match first_ready w (after ++ before) with
                    | Some t => SwapContext c t
                    | None => NoSwitch
                    end) ∧
    outcome <$> threads w' !! c = Some (FINISHED, value) ∧
    current w' = match first_ready w (after ++ before) with
                 | Some t => t
                 | None => c
                 end.
Proof.
  intros Hreg Hc Hf.
  assert (c ∈ before ++ c :: after) as Hin.
  { apply elem_of_app. right. apply elem_of_cons. by left. }
  destruct (registry_lookup _ _ _ Hreg Hin) as [rc Hrc].
  rewrite <- Hc in Hrc. rewrite (qthread_exit_eq _ _ _ _ _ Hrc).
  set (w2 := with_threads _ w).
  assert (agree next w w2) as Hn2.
  { intros a. unfold w2. cbn. destruct (decide (a = current w)) as [->|Hne].
    - by rewrite lookup_insert_eq, Hrc.
    - by rewrite lookup_insert_ne. }
  pose proof (registry_agree _ _ _ Hreg Hn2 eq_refl) as [Hl2 _].
  assert (threads w2 !! c = Some (set_state FINISHED (set_retval value rc))) as Hrc2.
  { unfold w2. cbn. by rewrite <- Hc, lookup_insert_eq. }
  assert (c ∉ after ++ before) as Hnotin.
  { destruct Hreg as [(Hnd & _) _].
    apply NoDup_app in Hnd as (_ & Hd & Hnd). apply NoDup_cons in Hnd as [? _].
    apply not_elem_of_app. split; [done|]. intros Hi. apply (Hd _ Hi).
    apply elem_of_cons. by left. }
  assert (first_ready w2 (after ++ before) = first_ready w (after ++ before)) as Hfr.
  { revert Hnotin. generalize (after ++ before). intros l' Hn.
    induction l' as [|a l' IH]; [done|]. apply not_elem_of_cons in Hn as [Hne Hn].
    cbn [first_ready]. rewrite (IH Hn). unfold ready_at, w2. cbn.
    rewrite lookup_insert_ne; [done|congruence]. }
  rewrite (qscheduler_after fuel here w2 before c after _ Hl2 Hc Hrc2 Hf). rewrite Hfr.
  destruct (first_ready w (after ++ before)) as [t0|] eqn:Ef.
  - eexists. split; [done|]. cbn [threads with_threads set_current current].
    by rewrite lookup_insert_eq.
  - eexists. split; [done|]. by rewrite Hrc2.
Qed.

(** C3 fails in [solo], where the only record exits: the scheduler finds
    no READY record, returns, and so does [qthread_exit]. *)
Lemma exit_returns_when_alone :
  (let* '(w', tr) := qthread_exit 1 42 9 solo in
   Done (tr, state_at w' 1, retval <$> threads w' !! 1)) =
    Done (NoSwitch, Some FINISHED, Some 42) ∧
  ¬ exit_never_returns.
Proof.
  split; [vm_compute; reflexivity|].
  intros H.
  refine (H 1%nat 42 9 solo solo_done NoSwitch _ eq_refl).
  vm_compute. reflexivity.
Defined.

(** C3 as amended: exit stores the value and FINISHED in the current
    record and then calls the scheduler. If another record is READY,
    control goes to the first such record after the caller; otherwise the
    scheduler returns and exit returns to its caller. No call of the
    scheduler ever dispatches a FINISHED record. *)
Theorem exit_finishes_then_schedules fuel value here w before c after :
  registry w (before ++ c :: after) → current w = c →
  (length (before ++ c :: after) ≤ fuel)%nat →
  ∃ w' tr, qthread_exit fuel value here w = Done (w', tr) ∧
    outcome <$> threads w' !! c = Some (FINISHED, value) ∧
    (∀ t, dispatched tr = Some t ↔ first_ready_in w (after ++ before) t) ∧
    (tr = NoSwitch ↔ Forall (λ a, state_at w a ≠ Some READY) (after ++ before)) ∧
    (∀ fuel1 here1 w1 w2 tr1 t,
       qscheduler fuel1 here1 w1 = Done (w2, tr1) → dispatched tr1 = Some t →
       state_at w1 t ≠ Some FINISHED).
Proof.
  intros Hreg Hc Hf.
  destruct (qthread_exit_after fuel value here w before c after Hreg Hc Hf)
    as (w' & Hex & Hout & _).
  exists w'. eexists. split; [exact Hex|]. split; [done|].
  split; [|split].
  - intros t. destruct (first_ready w (after ++ before)) as [t0|] eqn:Ef;
      cbn [dispatched].
    + split.
      * intros [= <-]. by apply first_ready_Some.
      * intros Ht%first_ready_Some. congruence.
    + split; [done|]. intros Ht%first_ready_Some. congruence.
  - destruct (first_ready w (after ++ before)) as [t0|] eqn:Ef.
    + split; [done|]. intros Hall%first_ready_None. congruence.
    + split; [|done]. intros _. by apply first_ready_None.
  - intros fuel1 here1 w1 w3 tr1 t Hs Hd. apply qscheduler_current in Hs.
    rewrite Hd in Hs. destruct Hs as [_ Hs]. by rewrite Hs.
Qed.

Lemma exit_finishes_then_schedules_witness :
  ∃ w' tr, qthread_exit 3 42 9 trio = Done (w', tr) ∧
    outcome <$> threads w' !! 1 = Some (FINISHED, 42) ∧
    (∀ t, dispatched tr = Some t ↔ first_ready_in trio ([2; 3] ++ []) t) ∧
    (tr = NoSwitch ↔ Forall (λ a, state_at trio a ≠ Some READY) ([2; 3] ++ [])) ∧
    (∀ fuel1 here1 w1 w2 tr1 t,
       qscheduler fuel1 here1 w1 = Done (w2, tr1) → dispatched tr1 = Some t →
       state_at w1 t ≠ Some FINISHED).
Proof.
  apply (exit_finishes_then_schedules 3 42 9 trio [] 1 [2; 3]).
  - compute_done.
  - reflexivity.
  - simpl. lia.
Defined.

Lemma exec_no_running fuel c w w' e l :
  registry w l → owns_stacks w → admissible c w = true →
  exec fuel c w = Done (w', e) → no_running w → no_running w'.
Proof.
  intros Hreg Hown Hadm Hex Hnr a.
  destruct (exec_step _ _ _ _ _ _ Hreg Hown Hadm Hex) as (_ & _ & Hout & _).
  unfold state_at. destruct (threads w' !! a) as [r'|] eqn:Hr'; [|done].
  cbn. destruct (Hout _ _ Hr') as [(r & Hr & Ho)|[[_ Hs]|(v & h & _ & _ & Ho)]].
  - specialize (Hnr a). unfold state_at in Hnr. rewrite Hr in Hnr. cbn in Hnr.
    unfold outcome in Ho. congruence.
  - congruence.
  - unfold outcome in Ho. congruence.
Qed.

Lemma run_no_running fuel cs w w' es l :
  registry w l → owns_stacks w → no_running w →
  run fuel cs w = Done (w', es) → no_running w'.
Proof.
  revert w es l. induction cs as [|c cs IH]; intros w es l Hreg Hown Hnr Hrun.
  - cbn in Hrun. by simplify_eq.
  - apply run_cons_inv in Hrun as (w1 & e & es' & Hadm & Hex & Hrun & ->).
    destruct (exec_step _ _ _ _ _ _ Hreg Hown Hadm Hex) as (Hreg1 & Hown1 & _).
    apply (IH w1 es' _ Hreg1 Hown1); [|done].
    exact (exec_no_running _ _ _ _ _ _ Hreg Hown Hadm Hex Hnr).
Qed.

(** C4 fails on the first dispatch of a freshly created thread: the
    record becomes current and its state is still READY. *)
Lemma dispatch_leaves_ready :
  (let* '(w, es) := run 1 [Create (env_ok 1 101) true 7 0; Scheduler 50] initial_world in
   Done (es, current w, state_at w 1)) =
    Done ([Created 0 (Some 1); Scheduled (SetContext 1)], 1, Some READY) ∧
  ¬ dispatch_marks_running.
Proof.
  split; [vm_compute; reflexivity|].
  intros H.
  assert (qscheduler 1 9 (set_current NULL solo) = Done (solo, SetContext 1)) as Hs
    by (vm_compute; reflexivity).
  destruct (H _ _ _ _ _ 1 Hs eq_refl) as [_ Hst].
  vm_compute in Hst. discriminate Hst.
Defined.

(** C4 as amended: start from the initial world, or from any well-formed
    world without a RUNNING record. In every world that a trace of calls
    reaches, no record is RUNNING; when the scheduler dispatches a record
    there, in the initial call or in a swap, the record becomes current,
    its state stays READY and still no record is RUNNING. *)
Theorem dispatch_sets_current fuel cs w0 l0 w es :
  registry w0 l0 → owns_stacks w0 → no_running w0 →
  run fuel cs w0 = Done (w, es) →
  no_running w ∧
  ∀ fuel1 here w' tr t,
    qscheduler fuel1 here w = Done (w', tr) → dispatched tr = Some t →
    current w' = t ∧ state_at w' t = Some READY ∧ no_running w'.
Proof.
  intros Hreg0 Hown0 Hnr0 Hrun.
  pose proof (run_no_running fuel cs w0 w es l0 Hreg0 Hown0 Hnr0 Hrun) as Hnr.
  split; [done|]. intros fuel1 here w' tr t Hs Hd.
  pose proof (qscheduler_agree state _ _ _ _ _ ltac:(done) Hs) as Hag.
  apply qscheduler_current in Hs. rewrite Hd in Hs. destruct Hs as [Hc Hr].
  split; [done|]. split; [by rewrite (state_at_agree _ _ _ Hag)|].
  by eapply no_running_agree.
Qed.

Lemma dispatch_sets_current_witness :
  match run 1 [Create (env_ok 1 101) true 7 0] initial_world with
  | Done (w, _) =>
      no_running w ∧
      match qscheduler 1 50 w with
      | Done (w', tr) =>
          tr = SetContext 1 ∧ current w' = 1 ∧ state_at w' 1 = Some READY ∧
          no_running w'
      | _ => False
      end
  | _ => False
  end.
Proof.
  destruct (run 1 [Create (env_ok 1 101) true 7 0] initial_world)
    as [[w es]| |] eqn:E; [|vm_compute in E; discriminate E..].
  destruct (dispatch_sets_current 1 [Create (env_ok 1 101) true 7 0]
              initial_world [] w es) as [Hnr Hdisp];
    [compute_done|compute_done| |exact E|].
  { intros a. unfold state_at. cbn [initial_world threads].
    rewrite lookup_empty. discriminate. }
  split; [exact Hnr|].
  destruct (qscheduler 1 50 w) as [[w' tr]| |] eqn:Es.
  - assert (tr = SetContext 1) as ->.
    { vm_compute in E. injection E as <- _. vm_compute in Es. by injection Es as _ <-. }
    split; [reflexivity|]. exact (Hdisp 1%nat 50 w' (SetContext 1) 1 Es eq_refl).
  - vm_compute in E. injection E as <- _. vm_compute in Es. discriminate Es.
  - vm_compute in E. injection E as <- _. vm_compute in Es. discriminate Es.
Defined.

(** C5: if the record or the stack cannot be allocated, or getcontext
    fails, create returns -1 in the very world it was called in: what it
    had allocated is freed again, nothing is registered, no handle is
    stored. Otherwise it returns 0, stores the handle, and the new READY
    record is the tail of the registry; the other records keep their
    state, result and stack. *)
Theorem create_all_or_nothing fuel env new_thread start_routine args w l :
  registry w l → owns_stacks w → env_fresh env w = true →
  (length l ≤ fuel)%nat →
  (create_fails env →
     qthread_create fuel env new_thread start_routine args w = Done (w, -1, None)) ∧
  (¬ create_fails env →
     ∃ w', qthread_create fuel env new_thread start_routine args w =
             Done (w', 0, if new_thread then Some (m_thread env) else None) ∧
       registry w' (l ++ [m_thread env]) ∧ owns_stacks w' ∧
       state_at w' (m_thread env) = Some READY ∧
       (∀ a, a ≠ m_thread env →
          forget_next <$> threads w' !! a = forget_next <$> threads w !! a) ∧
       current w' = current w ∧ stack_size w' = stack_size w).
Proof.
  intros Hreg Hown Hfr Hf. split.
  - intros Hfail. by apply qthread_create_fail.
  - intros Hok.
    destruct (qthread_create_registry fuel env new_thread start_routine args w l
                Hreg Hown Hfr Hok Hf)
      as (w' & Hcr & Hreg' & Hown' & Hnew & Hoth & _ & Hss & Hcur).
    exists w'. split; [done|]. split; [done|]. split; [done|].
    split; [|split; [done|split; done]].
    unfold state_at. destruct (threads w' !! m_thread env) as [r|]; [|done].
    cbn in Hnew |- *. injection Hnew; intros; by f_equal.
Qed.

Lemma create_all_or_nothing_witness :
  (qthread_create 1 env_bad_context true 7 0 solo = Done (solo, -1, None)) ∧
  (∃ w', qthread_create 1 (env_ok 2 102) true 7 0 solo = Done (w', 0, Some 2) ∧
     registry w' [1; 2] ∧ state_at w' 2 = Some READY).
Proof.
  split.
  - apply (create_all_or_nothing 1 env_bad_context true 7 0 solo [1]);
      [compute_done|compute_done|reflexivity|simpl; lia|].
    right; right. reflexivity.
  - destruct (create_all_or_nothing 1 (env_ok 2 102) true 7 0 solo [1])
      as [_ Hok]; [compute_done|compute_done|reflexivity|simpl; lia|].
    destruct Hok as (w' & Hc & Hr & _ & Hs & _).
    + intros [H|[H|H]]; discriminate H.
    + exists w'. split; [exact Hc|]. split; [exact Hr|exact Hs].
Defined.


Lemma registry_elem w l a r : registry w l → threads w !! a = Some r → a ∈ l.
Proof.
  intros [_ Hd] Hr. apply (elem_of_list_to_set (C:=gset Z)). rewrite <- Hd.
  apply elem_of_dom. eauto.
Qed.




Lemma run_stack_size fuel cs w w' es l :
  registry w l → owns_stacks w →
  Forall (λ c, is_set_stacksize c = false) cs →
  run fuel cs w = Done (w', es) →
  stack_size w' = stack_size w.
Proof.
  revert w es l. induction cs as [|c cs IH]; intros w es l Hreg Hown Hns Hrun.
  - cbn in Hrun. by simplify_eq.
  - apply run_cons_inv in Hrun as (w1 & e & es' & Hadm & Hex & Hrun & ->).
    apply Forall_cons in Hns as [Hnsc Hns].
    destruct (exec_step _ _ _ _ _ _ Hreg Hown Hadm Hex)
      as (Hreg1 & Hown1 & _ & _ & Hss & _).
    rewrite (IH w1 es' _ Hreg1 Hown1 Hns Hrun). apply Hss.
    intros size ->. done.
Qed.

(** C9: set_stack_size writes the global default and nothing else. Every
    thread created afterwards, as long as the default is not set again,
    gets a stack buffer of exactly that size, and the buffers that exist
    when it is created stay as they are. *)
Theorem set_stacksize_scoping size w l :
  registry w l → owns_stacks w →
  threads (qthread_set_stacksize size w) = threads w ∧
  buffers (qthread_set_stacksize size w) = buffers w ∧
  thread_list (qthread_set_stacksize size w) = thread_list w ∧
  current (qthread_set_stacksize size w) = current w ∧
  stack_size (qthread_set_stacksize size w) = size ∧
  ∀ fuel cs w2 es env new_thread start_routine args w3 h,
    Forall (λ c, is_set_stacksize c = false) cs →
    run fuel cs (qthread_set_stacksize size w) = Done (w2, es) →
    env_fresh env w2 = true →
    qthread_create fuel env new_thread start_routine args w2 = Done (w3, 0, h) →
    (∃ r, threads w3 !! m_thread env = Some r ∧ stack r = m_stack env ∧
       ss_sp (context r) = m_stack env ∧ ss_size (context r) = size) ∧
    m_stack env ≠ NULL ∧ buffers w3 !! m_stack env = Some size ∧
    (∀ p n, buffers w2 !! p = Some n → buffers w3 !! p = Some n).
Proof.
  intros Hreg Hown. do 5 (split; [done|]).
  intros fuel cs w2 es env nt sr args w3 h Hns Hrun Hfr Hcr.
  set (w1 := qthread_set_stacksize size w) in *.
  assert (registry w1 l) as Hreg1 by by apply (registry_agree w).
  assert (owns_stacks w1) as Hown1 by by apply (owns_stacks_agree w).
  pose proof (run_stack_size _ _ _ _ _ _ Hreg1 Hown1 Hns Hrun) as Hss.
  destruct (run_wf _ _ _ _ _ _ Hreg1 Hown1 Hrun) as (l2 & Hreg2 & Hown2).
  destruct (decide (create_fails env)) as [Hfail|Hok].
  { rewrite (qthread_create_fail _ _ _ _ _ _ Hfr Hfail) in Hcr. discriminate Hcr. }
  apply (qthread_create_mono fuel (max fuel (length l2))) in Hcr; [|lia].
  destruct (qthread_create_registry (max fuel (length l2)) env nt sr args w2 l2
              Hreg2 Hown2 Hfr Hok ltac:(lia))
    as (w9 & Hcr9 & _ & _ & Hnew & _ & Hb & _).
  rewrite Hcr9 in Hcr. injection Hcr as <- _.
  apply env_fresh_spec in Hfr as [_ Hfs].
  assert (m_stack env ≠ NULL) as Es by (unfold create_fails in Hok; tauto).
  split; [|split; [done|split]].
  - destruct (threads w9 !! m_thread env) as [r|]; [|done]. exists r.
    cbn in Hnew. injection Hnew as Hctx Hstk _ _. rewrite Hctx. cbn.
    rewrite Hss. done.
  - rewrite Hb, lookup_insert_eq. by rewrite Hss.
  - intros p n Hp. rewrite Hb. rewrite lookup_insert_ne; [done|].
    intros <-. rewrite (Hfs Es) in Hp. discriminate Hp.
Qed.

Lemma set_stacksize_scoping_witness :
  threads (qthread_set_stacksize 4096 solo) = threads solo ∧
  buffers (qthread_set_stacksize 4096 solo) = buffers solo ∧
  thread_list (qthread_set_stacksize 4096 solo) = thread_list solo ∧
  current (qthread_set_stacksize 4096 solo) = current solo ∧
  stack_size (qthread_set_stacksize 4096 solo) = 4096 ∧
  match qthread_create 1 (env_ok 2 102) true 7 0 (qthread_set_stacksize 4096 solo) with
  | Done (w3, _, _) =>
      (∃ r, threads w3 !! 2 = Some r ∧ stack r = 102 ∧
         ss_sp (context r) = 102 ∧ ss_size (context r) = 4096) ∧
      102 ≠ NULL ∧ buffers w3 !! 102 = Some 4096 ∧
      (∀ p n, buffers (qthread_set_stacksize 4096 solo) !! p = Some n →
              buffers w3 !! p = Some n)
  | _ => False
  end.
Proof.
  destruct (set_stacksize_scoping 4096 solo [1]) as (H1 & H2 & H3 & H4 & H5 & H6);
    [compute_done|compute_done|].
  do 5 (split; [assumption|]).
  destruct (qthread_create 1 (env_ok 2 102) true 7 0 (qthread_set_stacksize 4096 solo))
    as [[[w3 ret] h]| |] eqn:E; [|vm_compute in E; discriminate E..].
  apply (H6 1%nat [] (qthread_set_stacksize 4096 solo) [] (env_ok 2 102) true 7 0 w3 h);
    [constructor|reflexivity|reflexivity|].
  rewrite E. vm_compute in E. by injection E as _ <- _.
Defined.

Lemma run_current fuel cs w w' es l :
  registry w l → owns_stacks w → run fuel cs w = Done (w', es) →
  Forall (λ e, dispatched (event_transfer e) = None) es →
  current w' = current w.
Proof.
  revert w es l. induction cs as [|c cs IH]; intros w es l Hreg Hown Hrun Hnd.
  - cbn in Hrun. by simplify_eq.
  - apply run_cons_inv in Hrun as (w1 & e & es' & Hadm & Hex & Hrun & ->).
    apply Forall_cons in Hnd as [Hnde Hnd].
    destruct (exec_step _ _ _ _ _ _ Hreg Hown Hadm Hex)
      as (Hreg1 & Hown1 & _ & _ & _ & _ & Hdisp).
    rewrite Hnde in Hdisp. rewrite (IH w1 es' _ Hreg1 Hown1 Hrun Hnd). done.
Qed.

(** C10: [current] starts as NULL, and as long as no call of the
    scheduler has dispatched a record it still is, whatever has been
    called; [qthread_self] then returns NULL. *)
Theorem self_null_before_dispatch fuel cs w es :
  run fuel cs initial_world = Done (w, es) →
  Forall (λ e, dispatched (event_transfer e) = None) es →
  qthread_self w = NULL.
Proof.
  intros Hrun Hnd. destruct initial_registry as [Hreg0 Hown0]. unfold qthread_self.
  by rewrite (run_current _ _ _ _ _ _ Hreg0 Hown0 Hrun Hnd).
Qed.

Lemma self_null_before_dispatch_witness :
  match run 1 [SetStacksize 4096; Create (env_ok 1 101) true 7 0; Self] initial_world with
  | Done (w, es) => qthread_self w = NULL ∧ es = [Returned; Created 0 (Some 1); SelfIs 0]
  | _ => False
  end.
Proof.
  destruct (run 1 [SetStacksize 4096; Create (env_ok 1 101) true 7 0; Self] initial_world)
    as [[w es]| |] eqn:E; [|vm_compute in E; discriminate E..].
  split.
  - apply (self_null_before_dispatch 1
             [SetStacksize 4096; Create (env_ok 1 101) true 7 0; Self] w es E).
    vm_compute in E. injection E as _ <-. repeat constructor.
  - vm_compute in E. by injection E as _ <-.
Defined.

Lemma qthread_init_initial fuel host junk here :
  qthread_init fuel host junk here initial_world =
    Done {| threads := {[ host := host_record junk here host ]}; buffers := ∅;
            stack_size := DEFAULT_STACK_SIZE; thread_list := host;
            current := NULL |}.
Proof.
  unfold qthread_init, initial_world. norm_world.
  rewrite update_insert. cbn [bind]. rewrite update_insert. cbn [bind].
  rewrite update_insert. cbn [bind]. unfold list_insert. norm_world.
  cbn [Z.eqb NULL]. rewrite update_insert. by rewrite insert_empty.
Qed.

Lemma main_incorporate_initial host junk here :
  main_incorporate host junk 0 here initial_world =
    Done {| threads := {[ host := host_record junk here host ]}; buffers := ∅;
            stack_size := DEFAULT_STACK_SIZE; thread_list := host;
            current := NULL |}.
Proof.
  unfold main_incorporate, initial_world. norm_world. cbn [Z.eqb].
  rewrite update_insert. cbn [bind]. rewrite update_insert. cbn [bind].
  rewrite update_insert. cbn [bind]. rewrite update_insert. cbn [bind].
  norm_world. by rewrite insert_empty.
Qed.

(** With only the host possibly READY besides the caller, a yield and an
    exit both hand control to the host. *)
Lemma only_host_ready fuel here w l host :
  registry w l → host ∈ l → state_at w host = Some READY →
  current w ∈ l → current w ≠ host →
  (∀ a, a ∈ l → a ≠ host → a ≠ current w → state_at w a ≠ Some READY) →
  (length l ≤ fuel)%nat →
  (∃ w', qscheduler fuel here w = Done (w', SwapContext (current w) host) ∧
         current w' = host) ∧
  (∀ value, ∃ w', qthread_exit fuel value here w =
                    Done (w', SwapContext (current w) host) ∧
                  current w' = host).
Proof.
  intros Hreg Hh Hready Hcin Hne Hothers Hf.
  apply list_elem_of_split in Hcin as (before & after & ->).
  set (c := current w) in *.
  assert (c ∉ after ++ before) as Hnotin.
  { destruct Hreg as [(Hnd & _) _].
    apply NoDup_app in Hnd as (_ & Hd & Hnd). apply NoDup_cons in Hnd as [? _].
    apply not_elem_of_app. split; [done|]. intros Hi. apply (Hd _ Hi).
    apply elem_of_cons. by left. }
  assert (host ∈ after ++ before) as Hrot.
  { apply elem_of_app in Hh as [?|[?|?]%elem_of_cons]; [|congruence|];
      apply elem_of_app; auto. }
  assert (first_ready w (after ++ before) = Some host) as Hfr.
  { apply list_elem_of_split_l in Hrot as (sk & rest & Hrot & Hsk).
    apply first_ready_Some. exists sk, rest. split; [done|]. split; [done|].
    apply Forall_forall. intros a Ha. apply Hothers.
    - assert (a ∈ after ++ before) as Hin
        by (rewrite Hrot; apply elem_of_app; by left).
      apply elem_of_app in Hin as [?|?]; apply elem_of_app; [right|by left].
      apply elem_of_cons. by right.
    - by intros ->.
    - intros ->. apply Hnotin. rewrite Hrot. apply elem_of_app. by left. }
  split.
  - assert (c ∈ before ++ c :: after) as Hin.
    { apply elem_of_app. right. apply elem_of_cons. by left. }
    destruct (registry_lookup _ _ _ Hreg Hin) as [rc Hrc]. destruct Hreg as [Hl _].
    rewrite (qscheduler_after fuel here w before c after rc Hl eq_refl Hrc Hf), Hfr.
    eexists. by split.
  - intros value.
    destruct (qthread_exit_after fuel value here w before c after Hreg eq_refl Hf)
      as (w' & Hex & _ & Hcur).
    rewrite Hfr in Hex, Hcur. by exists w'.
Qed.

(** C8: called in the initial world, init turns the host's context into a
    READY record with a null stack that is the whole registry, the same
    world as the one the demonstration program builds by hand. Every world
    reached from there has a well-formed registry, and while the host is
    registered and READY, a thread that yields or exits when no third
    record is READY hands control to the host. *)
Theorem init_registers_host fuel host junk here :
  host ≠ NULL →
  ∃ w0, qthread_init fuel host junk here initial_world = Done w0 ∧
    main_incorporate host junk 0 here initial_world = Done w0 ∧
    registry w0 [host] ∧ owns_stacks w0 ∧ current w0 = NULL ∧
    (∃ r, threads w0 !! host = Some r ∧ stack r = NULL ∧ state r = READY ∧
          uc_mcontext (context r) = Resume here) ∧
    ∀ fuel1 cs w es,
      run fuel1 cs w0 = Done (w, es) →
      (∃ l, registry w l) ∧
      ∀ l fuel2 here2,
        registry w l → host ∈ l → state_at w host = Some READY →
        current w ∈ l → current w ≠ host →
        (∀ a, a ∈ l → a ≠ host → a ≠ current w → state_at w a ≠ Some READY) →
        (length l ≤ fuel2)%nat →
        (∃ w', qscheduler fuel2 here2 w = Done (w', SwapContext (current w) host) ∧
               current w' = host) ∧
        (∀ value, ∃ w', qthread_exit fuel2 value here2 w =
                          Done (w', SwapContext (current w) host) ∧
                        current w' = host).
Proof.
  intros Hh. eexists. split; [apply qthread_init_initial|].
  set (w0 := {| threads := _; buffers := _; stack_size := _; thread_list := _;
                current := _ |}).
  assert (registry w0 [host]) as Hreg0.
  { split; [split; [|split; [|split]]|].
    - apply NoDup_singleton.
    - intros E%list_elem_of_singleton. by apply Hh.
    - done.
    - cbn. split; [|done]. eexists. by rewrite lookup_singleton_eq.
    - cbn. by rewrite dom_singleton_L, (right_id_L ∅ (∪)). }
  assert (owns_stacks w0) as Hown0.
  { intros a r Hr Hs. cbn in Hr. apply lookup_singleton_Some in Hr as [_ <-]. done. }
  split; [apply main_incorporate_initial|].
  split; [done|]. split; [done|]. split; [done|]. split.
  - eexists. cbn. rewrite lookup_singleton_eq. done.
  - intros fuel1 cs w es Hrun. split.
    + destruct (run_wf _ _ _ _ _ _ Hreg0 Hown0 Hrun) as (l & Hreg & _). eauto.
    + intros l fuel2 here2 Hreg Hin Hready Hcin Hne Hoth Hf2.
      by apply (only_host_ready fuel2 here2 w l host).
Qed.

(** The host (record 1) registers itself, creates thread 2 and yields
    twice; thread 2 then exits and control is back with the host. *)
Lemma init_registers_host_witness :
  ∃ w0, qthread_init 0 1 junk0 9 initial_world = Done w0 ∧
    registry w0 [1] ∧ current w0 = NULL ∧
    match run 2 [Create (env_ok 2 102) true 7 0; Scheduler 50; Scheduler 51] w0 with
    | Done (w, es) =>
        es = [Created 0 (Some 2); Scheduled (SetContext 1); Scheduled (SwapContext 1 2)] ∧
        ∃ w', qthread_exit 2 42 52 w = Done (w', SwapContext 2 1) ∧ current w' = 1
    | _ => False
    end.
Proof.
  destruct (init_registers_host 0 1 junk0 9)
    as (w0 & Hi & _ & Hreg & _ & Hc & _ & Hback); [discriminate|].
  exists w0. split; [exact Hi|]. split; [exact Hreg|]. split; [exact Hc|].
  rewrite qthread_init_initial in Hi. injection Hi as <-.
  match goal with |- match ?r with _ => _ end =>
    destruct r as [[w es]| |] eqn:E; [|vm_compute in E; discriminate E..] end.
  destruct (Hback 2%nat _ w es E) as [_ Hgo].
  vm_compute in E. injection E as <- <-. split; [reflexivity|].
  destruct (Hgo [1; 2] 2%nat 52) as [_ Hexit];
    [compute_done|compute_done|compute_done|compute_done|discriminate| |simpl; lia|].
  - intros a [->|[->|?%elem_of_nil]%elem_of_cons]%elem_of_cons; done.
  - destruct (Hexit 42) as (w' & Hw' & Hcur). exists w'. split; [exact Hw'|exact Hcur].
Defined.

(** ** Further properties of the scheduler and of join *)

(** X1: with an empty registry the scheduler returns at once and changes
    nothing. *)
Theorem scheduler_empty_noop fuel here w :
  thread_list w = NULL → qscheduler fuel here w = Done (w, NoSwitch).
Proof. intros H. unfold qscheduler, sched_select. by rewrite H. Qed.

Lemma scheduler_empty_noop_witness :
  qscheduler 0 9 initial_world = Done (initial_world, NoSwitch).
Proof. apply (scheduler_empty_noop 0 9 initial_world). reflexivity. Defined.

(** X2: in the initial call (no current thread) the scheduler takes the
    first READY record from the head of the registry, makes it current
    and enters it with setcontext, saving nothing; when no record is READY
    it returns and changes nothing. *)
Theorem scheduler_bootstrap fuel here w l :
  registry w l → l ≠ [] → current w = NULL → (length l ≤ fuel)%nat →
  qscheduler fuel here w =
    Done (match first_ready w l with
          | Some t => (set_current t w, SetContext t)
          | None => (w, NoSwitch)
          end).
Proof.
  intros [Hl _] Hne Hc Hf. unfold qscheduler.
  rewrite (sched_select_first fuel w l Hl Hne Hc Hf). cbn [bind].
  destruct (first_ready w l) as [t|] eqn:Ef; [|done].
  apply first_ready_Some in Ef as (_ & _ & _ & Ht & _).
  unfold sched_switch. rewrite Hc. cbn [Z.eqb NULL]. unfold load. cbn.
  unfold state_at in Ht. by destruct (threads w !! t).
Qed.

Lemma scheduler_bootstrap_witness :
  qscheduler 3 9 (set_current NULL trio) = Done (trio, SetContext 1).
Proof.
  rewrite (scheduler_bootstrap 3 9 (set_current NULL trio) [1; 2; 3]).
  - vm_compute. reflexivity.
  - compute_done.
  - discriminate.
  - reflexivity.
  - simpl. lia.
Defined.

(** X3: a join completes only on a FINISHED target: it then returns 0,
    stores the target's result if asked to, and the target's record is
    freed. *)
Theorem join_done_only_finished fuel thread retval_ptr here w w' ret out :
  qthread_join fuel thread retval_ptr here w = Done (w', JoinDone ret out) →
  ∃ r, threads w !! thread = Some r ∧ state r = FINISHED ∧ ret = 0 ∧
    out = (if retval_ptr then Some (retval r) else None) ∧
    threads w' !! thread = None.
Proof.
  unfold qthread_join. intros H. done_inv.
  match goal with Hl : threads w !! thread = Some ?r |- _ => exists r end.
  split; [done|].
  destruct (is_finished (state a)) eqn:Efin; cbn [negb] in H.
  - done_inv. simplify_eq. split; [by destruct (state a)|]. split; [done|].
    split; [done|]. unfold free_thread in *.
    match goal with Hf : match ?m !! thread with _ => _ end = Done _ |- _ =>
      destruct (m !! thread); [|done]; injection Hf as <- end.
    cbn. apply lookup_delete_eq.
  - done_inv. simplify_eq.
Qed.

Lemma join_done_only_finished_witness :
  ∃ r, threads solo_done !! 1 = Some r ∧ state r = FINISHED ∧ 0 = 0 ∧
    Some 42 = (if true then Some (retval r) else None) ∧
    threads (with_buffers ∅ (with_threads ∅ (set_thread_list NULL solo_done))) !! 1 = None.
Proof.
  apply (join_done_only_finished 1 1 true 9 solo_done).
  vm_compute. reflexivity.
Defined.

Lemma next_in_rotation {A} (l before after rot' : list A) c t :
  l = before ++ c :: after → after ++ before = t :: rot' →
  ∃ before1 after1, l = before1 ++ t :: after1 ∧ after1 ++ before1 = rot' ++ [c].
Proof.
  intros -> Hrot. destruct after as [|a after]; cbn [app] in Hrot.
  - subst before. exists [], (rot' ++ [c]). split.
    + reflexivity.
    + by rewrite app_nil_r.
  - injection Hrot as -> <-. exists (before ++ [c]), after. split.
    + by rewrite <- app_assoc.
    + by rewrite !app_assoc.
Qed.

Lemma yields_all_ready fuel heres w l before c after :
  registry w l → l = before ++ c :: after → current w = c →
  (∀ a, a ∈ l → state_at w a = Some READY) →
  after ++ before ≠ [] →
  (length heres ≤ length l)%nat → (length l ≤ fuel)%nat →
  ∃ w' es, run fuel (Scheduler <$> heres) w = Done (w', es) ∧
    targets es = take (length heres) (after ++ before ++ [c]).
Proof.
  revert w before c after.
  induction heres as [|h hs IH]; intros w before c after Hreg Hl Hc Hall Hrot Hk Hf.
  - eexists _, _. split; [done|]. done.
  - destruct (after ++ before) as [|t rot'] eqn:Erot; [done|].
    destruct (next_in_rotation l before after rot' c t Hl Erot)
      as (before1 & after1 & Hl1 & Erot1).
    assert (c ∈ l) as Hcin.
    { rewrite Hl. apply elem_of_app. right. apply elem_of_cons. by left. }
    assert (t ∈ l) as Htin.
    { rewrite Hl1. apply elem_of_app. right. apply elem_of_cons. by left. }
    destruct (registry_lookup _ _ _ Hreg Hcin) as [rc Hrc].
    pose proof Hreg as [Hlk _]. rewrite Hl in Hlk, Hf.
    assert (first_ready w (t :: rot') = Some t) as Hfr.
    { cbn [first_ready]. by rewrite (proj2 (ready_at_state w t) (Hall t Htin)). }
    pose proof (qscheduler_after fuel h w before c after rc Hlk Hc Hrc Hf) as Hs.
    rewrite Erot, Hfr in Hs.
    set (w1 := with_threads _ (set_current t w)) in Hs.
    assert (agree next w w1 ∧ agree state w w1) as [Hn1 Hst1].
    { split; intros a; unfold w1; cbn;
        (destruct (decide (a = c)) as [->|Hne];
         [by rewrite lookup_insert_eq, Hrc|by rewrite lookup_insert_ne]). }
    pose proof (registry_agree _ _ _ Hreg Hn1 eq_refl) as Hreg1.
    destruct (IH w1 before1 t after1 Hreg1 Hl1 eq_refl) as (w' & es & Hrun & Htg).
    + intros a Ha. rewrite (state_at_agree _ _ _ Hst1). by apply Hall.
    + rewrite Erot1. by destruct rot'.
    + simpl in Hk. lia.
    + by rewrite Hl.
    + exists w', (Scheduled (SwapContext c t) :: es). split.
      * cbn [fmap list_fmap run admissible exec]. rewrite Hs. cbn [bind].
        fold (fmap (M:=list) Scheduler hs). rewrite Hrun. done.
      * unfold targets in *. cbn [omap list_omap event_transfer dispatched length take app].
        fold (omap (M:=list) (λ e, dispatched (event_transfer e)) es).
        rewrite Htg. rewrite (app_assoc after before [c]), Erot.
        rewrite (app_assoc after1 before1 [t]), Erot1. cbn [take app]. f_equal.
        rewrite take_app_le; [done|].
        assert (length l = S (S (length rot'))) as Hlen.
        { rewrite Hl, length_app. simpl.
          apply (f_equal length) in Erot. rewrite length_app in Erot.
          simpl in Erot. lia. }
        rewrite length_app. simpl in Hk |- *. lia.
Qed.

(** X4: when every record of the registry is READY and each running
    thread yields in turn, the scheduler passes control round the
    registry in list order: as many yields as there are records dispatch
    the records after current, then those before it, then current again,
    each exactly once. *)
Theorem round_robin_fair fuel heres w before c after :
  registry w (before ++ c :: after) → current w = c →
  (∀ a, a ∈ before ++ c :: after → state_at w a = Some READY) →
  after ++ before ≠ [] →
  length heres = length (before ++ c :: after) →
  (length (before ++ c :: after) ≤ fuel)%nat →
  ∃ w' es, run fuel (Scheduler <$> heres) w = Done (w', es) ∧
    targets es = after ++ before ++ [c].
Proof.
  intros Hreg Hc Hall Hrot Hlen Hf.
  destruct (yields_all_ready fuel heres w _ before c after Hreg eq_refl Hc Hall Hrot
              ltac:(lia) Hf) as (w' & es & Hrun & Htg).
  exists w', es. split; [done|]. rewrite Htg. apply take_ge.
  rewrite Hlen, !length_app. cbn [length]. lia.
Qed.

(** [trio] with all three threads READY. *)
Lemma round_robin_fair_witness :
  ∃ w' es,
    run 3 (Scheduler <$> [50; 51; 52])
      (with_threads (<[2 := mk_record READY 3 102 0]> (threads trio)) trio) =
      Done (w', es) ∧
    targets es = [2; 3] ++ [] ++ [1].
Proof.
  apply (round_robin_fair 3 [50; 51; 52]
           (with_threads (<[2 := mk_record READY 3 102 0]> (threads trio)) trio)
           [] 1 [2; 3]).
  - compute_done.
  - reflexivity.
  - intros a Ha. cbn [app] in Ha.
    apply elem_of_cons in Ha as [->|Ha]; [reflexivity|].
    apply elem_of_cons in Ha as [->|Ha]; [reflexivity|].
    apply elem_of_cons in Ha as [->|Ha]; [reflexivity|].
    by apply elem_of_nil in Ha.
  - discriminate.
  - reflexivity.
  - simpl. lia.
Defined.

(** ** Misuse and edge cases of exit and join *)

(** X5: as long as the scheduler has not dispatched a thread, [current]
    is NULL, and a call of [qthread_exit] dereferences it: the call
    faults. *)
Theorem exit_before_dispatch_faults fuel cs w0 l0 w es fuel1 value here :
  registry w0 l0 → owns_stacks w0 → current w0 = NULL →
  run fuel cs w0 = Done (w, es) →
  Forall (λ e, dispatched (event_transfer e) = None) es →
  qthread_exit fuel1 value here w = Fault.
Proof.
  intros Hreg Hown Hcur Hrun Hnd.
  pose proof (run_current _ _ _ _ _ _ Hreg Hown Hrun Hnd) as Hc. rewrite Hcur in Hc.
  destruct (run_wf _ _ _ _ _ _ Hreg Hown Hrun) as (l & Hreg' & _).
  assert (threads w !! NULL = None) as Hnone.
  { destruct (threads w !! NULL) as [r|] eqn:E; [|done].
    pose proof (registry_elem _ _ _ _ Hreg' E) as Hin.
    destruct Hreg' as [(_ & H0 & _) _]. done. }
  unfold qthread_exit, update, load. by rewrite Hc, Hnone.
Qed.

Lemma exit_before_dispatch_faults_witness :
  match run 1 [Create (env_ok 1 101) true 7 0; Self] initial_world with
  | Done (w, es) => qthread_exit 1 42 9 w = Fault
  | _ => False
  end.
Proof.
  destruct (run 1 [Create (env_ok 1 101) true 7 0; Self] initial_world)
    as [[w es]| |] eqn:E; [|vm_compute in E; discriminate E..].
  destruct initial_registry as [Hreg0 Hown0].
  apply (exit_before_dispatch_faults 1 [Create (env_ok 1 101) true 7 0; Self]
           initial_world [] w es 1 42 9 Hreg0 Hown0 eq_refl E).
  vm_compute in E. injection E as _ <-. repeat constructor.
Defined.

(** What a completed join has done. *)
Lemma qthread_join_done_inv fuel thread retval_ptr here w w' ret out :
  qthread_join fuel thread retval_ptr here w = Done (w', JoinDone ret out) →
  ∃ r w1 r1 w2, threads w !! thread = Some r ∧ state r = FINISHED ∧ ret = 0 ∧
    out = (if retval_ptr then Some (retval r) else None) ∧
    list_remove fuel thread w = Done w1 ∧ threads w1 !! thread = Some r1 ∧
    free (stack r1) w1 = Done w2 ∧
    w' = with_threads (delete thread (threads w2)) w2.
Proof.
  unfold qthread_join. intros H. done_inv.
  destruct (is_finished (state a)) eqn:Efin; cbn [negb] in H; done_inv; simplify_eq.
  unfold free_thread in *.
  match goal with Hf : match ?m !! thread with _ => _ end = Done _ |- _ =>
    destruct (m !! thread) eqn:E2; [|done]; injection Hf as <- end.
  eexists _, _, _, _. repeat split; try done. by destruct (state a).
Qed.

(** X6: a join that has completed has freed the record, so a second join
    on the same handle reads freed memory: it faults. *)
Theorem join_again_faults fuel thread retval_ptr here w w' ret out
    fuel1 retval_ptr1 here1 :
  qthread_join fuel thread retval_ptr here w = Done (w', JoinDone ret out) →
  qthread_join fuel1 thread retval_ptr1 here1 w' = Fault.
Proof.
  intros (r & w1 & r1 & w2 & _ & _ & _ & _ & _ & _ & _ & ->)%qthread_join_done_inv.
  unfold qthread_join, load. cbn. by rewrite lookup_delete_eq.
Qed.

Lemma join_again_faults_witness :
  match qthread_join 1 1 true 9 solo_done with
  | Done (w', JoinDone ret out) =>
      ret = 0 ∧ out = Some 42 ∧ qthread_join 1 1 true 10 w' = Fault
  | _ => False
  end.
Proof.
  destruct (qthread_join 1 1 true 9 solo_done) as [[w' [tr|ret out]]| |] eqn:E;
    [vm_compute in E; discriminate E| |vm_compute in E; discriminate E..].
  split; [|split].
  - vm_compute in E. by injection E as _ <- _.
  - vm_compute in E. by injection E as _ _ <-.
  - apply (join_again_faults 1 1 true 9 solo_done w' ret out 1 true 10 E).
Defined.

(** The removal loop of [qthread_join] on a target that is not in the
    list: it walks the whole list and stops back at the head. *)
Lemma find_prev_wrap fuel w thread p l :
  chain (threads w) l (thread_list w) → thread ∉ l → thread_list w ∉ l →
  (length l < fuel)%nat →
  find_prev fuel w thread p (hd (thread_list w) l) =
    Done (List.last l p, thread_list w).
Proof.
  revert p l. induction fuel as [|fuel IH]; intros p l Hc Hnt Hnh Hf; [lia|].
  destruct l as [|a l]; cbn [find_prev hd].
  - rewrite Z.eqb_refl. by rewrite andb_false_r.
  - destruct Hc as [(r & Hr & Hnx) Hc].
    apply not_elem_of_cons in Hnt as [Hat Hnt]. apply not_elem_of_cons in Hnh as [Hah Hnh].
    rewrite (proj2 (Z.eqb_neq a thread)) by done.
    rewrite (proj2 (Z.eqb_neq a (thread_list w))) by done. cbn [negb andb].
    rewrite (load_lookup _ _ _ Hr). cbn [bind]. rewrite Hnx.
    rewrite last_cons_default. apply IH; [done|done|done|simpl in Hf; lia].
Qed.

Lemma list_remove_outside fuel w l thread :
  linked w l → thread ∉ l → (length l ≤ fuel)%nat →
  list_remove fuel thread w = Done w.
Proof.
  intros (Hnd & H0 & Hh & Hch) Hnt Hf. unfold list_remove.
  destruct l as [|a l]; cbn [hd] in *.
  - by rewrite Hh.
  - apply not_elem_of_cons in Hnt as [Hta Hnt].
    apply not_elem_of_cons in H0 as [Ha0 H0]. apply NoDup_cons in Hnd as [Hal Hnd].
    rewrite Hh, (proj2 (Z.eqb_neq a NULL)) by done.
    destruct Hch as [(ra & Hra & Hnx) Hch].
    rewrite (load_lookup _ _ _ Hra). cbn [bind].
    rewrite (proj2 (Z.eqb_neq a thread)) by done. rewrite andb_false_r.
    rewrite Hnx. rewrite <- Hh in Hch, Hal |- *.
    rewrite (find_prev_wrap fuel w thread (thread_list w) l); [|done|done|done|simpl in Hf; lia].
    cbn [bind]. rewrite Hh. by rewrite (proj2 (Z.eqb_neq a thread)) by done.
Qed.

(** X7: a join on a FINISHED record that is not in the list walks the
    whole list, unlinks nothing and leaves the head where it is; it still
    returns the result and frees the record and its stack. *)
Theorem join_outside_registry fuel thread retval_ptr here w l r :
  linked w l → thread ∉ l → threads w !! thread = Some r → state r = FINISHED →
  (stack r ≠ NULL → is_Some (buffers w !! stack r)) →
  (length l ≤ fuel)%nat →
  ∃ w', qthread_join fuel thread retval_ptr here w =
          Done (w', JoinDone 0 (if retval_ptr then Some (retval r) else None)) ∧
    linked w' l ∧ thread_list w' = thread_list w ∧ current w' = current w ∧
    threads w' = delete thread (threads w) ∧
    buffers w' = (if stack r =? NULL then buffers w else delete (stack r) (buffers w)).
Proof.
  intros Hl Hnt Hr Hfin Hbuf Hf. unfold qthread_join.
  rewrite (load_lookup _ _ _ Hr). cbn [bind]. rewrite Hfin. cbn [is_finished negb].
  rewrite (list_remove_outside fuel w l thread Hl Hnt Hf). cbn [bind].
  rewrite (load_lookup _ _ _ Hr). cbn [bind].
  set (b' := if stack r =? NULL then buffers w else delete (stack r) (buffers w)).
  assert (free (stack r) w = Done (with_buffers b' w)) as ->.
  { unfold free, b'. destruct (Z.eqb_spec (stack r) NULL) as [E|E]; [by destruct w|].
    destruct (Hbuf E) as [n ->]. done. }
  cbn [bind]. unfold free_thread. cbn [threads with_buffers]. rewrite Hr.
  eexists. split; [done|]. cbn [threads buffers thread_list current with_threads with_buffers].
  split; [|done].
  destruct Hl as (Hnd & H0 & Hh & Hch). split; [done|]. split; [done|]. split; [done|].
  cbn [threads with_threads with_buffers].
  eapply chain_frame; [done|]. intros a Ha. rewrite lookup_delete_ne; [done|].
  by intros ->.
Qed.

Lemma join_outside_registry_witness :
  ∃ w', qthread_join 1 5 true 9 solo_stray = Done (w', JoinDone 0 (Some 77)) ∧
    linked w' [1] ∧ thread_list w' = thread_list solo_stray ∧
    current w' = current solo_stray ∧
    threads w' = delete 5 (threads solo_stray) ∧ buffers w' = buffers solo_stray.
Proof.
  apply (join_outside_registry 1 5 true 9 solo_stray [1] (mk_record FINISHED 5 0 77)).
  - compute_done.
  - apply not_elem_of_cons. split; [done|apply not_elem_of_nil].
  - reflexivity.
  - reflexivity.
  - intros H. by destruct H.
  - simpl. lia.
Defined.








(** X9: a join on a record that is not FINISHED, made when no record
    other than the caller is READY, makes no progress: every turn of its
    waiting loop is a call of the scheduler that returns without a switch
    and leaves the world as it was, however many turns are taken. So a
    thread that joins itself, being the only READY one, waits for ever. *)
Theorem join_without_progress fuel thread retval_ptr heres w before c after r :
  registry w (before ++ c :: after) → current w = c →
  (length (before ++ c :: after) ≤ fuel)%nat →
  threads w !! thread = Some r → state r ≠ FINISHED →
  Forall (λ a, state_at w a ≠ Some READY) (after ++ before) →
  run fuel (Join thread retval_ptr <$> heres) w =
    Done (w, (λ _, JoinWaited NoSwitch) <$> heres).
Proof.
  intros Hreg Hcur Hf Hr Hnf Hnone.
  assert (∀ here, qthread_join fuel thread retval_ptr here w = Done (w, JoinYield NoSwitch))
    as Hturn.
  { intros here. rewrite (qthread_join_wait _ _ _ _ _ _ Hr Hnf).
    destruct (registry_lookup w _ c Hreg) as [rc Hrc].
    { apply elem_of_app. right. apply elem_of_cons. by left. }
    destruct Hreg as [Hl _].
    rewrite (qscheduler_after fuel here w before c after rc Hl Hcur Hrc Hf).
    by rewrite (proj2 (first_ready_None w (after ++ before)) Hnone). }
  induction heres as [|here heres IH]; [done|].
  rewrite !fmap_cons. cbn [run admissible exec]. rewrite Hturn. cbn [bind].
  by rewrite IH.
Qed.

(** The only thread of [solo] joins itself. *)
Lemma join_without_progress_witness :
  run 1 (Join 1 true <$> [50; 51; 52]) solo =
    Done (solo, (λ _, JoinWaited NoSwitch) <$> [50; 51; 52]).
Proof.
  apply (join_without_progress 1 1 true [50; 51; 52] solo [] 1 [] (mk_record READY 1 101 0)).
  - compute_done.
  - reflexivity.
  - simpl. lia.
  - reflexivity.
  - discriminate.
  - constructor.
Defined.

(** Calls of create only append READY records and leave [current] alone. *)
Lemma run_creates fuel cs w w' es l :
  registry w l → owns_stacks w →
  (∀ a, a ∈ l → state_at w a = Some READY) →
  Forall (λ c, is_create c = true) cs →
  run fuel cs w = Done (w', es) →
  registry w' (l ++ handles created_handle cs es) ∧ owns_stacks w' ∧
  (∀ a, a ∈ l ++ handles created_handle cs es → state_at w' a = Some READY) ∧
  current w' = current w.
Proof.
  revert w es l. induction cs as [|c cs IH]; intros w es l Hreg Hown Hall Hcr Hrun.
  - cbn in Hrun. simplify_eq. cbn [handles]. by rewrite app_nil_r.
  - apply run_cons_inv in Hrun as (w1 & e & es' & Hadm & Hex & Hrun & ->).
    apply Forall_cons in Hcr as [Hc Hcr].
    destruct (exec_step _ _ _ _ _ _ Hreg Hown Hadm Hex)
      as (Hreg1 & Hown1 & Hrec & _ & _ & _ & Hdisp).
    destruct c as [| | | |env nt sr args|]; try discriminate Hc.
    assert (∃ ret h, e = Created ret h) as (ret & h & ->).
    { cbn [exec] in Hex. done_inv. simplify_eq. eauto. }
    assert (registry_after (Create env nt sr args) (Created ret h) l =
            l ++ created_handle (Create env nt sr args) (Created ret h)) as Hra.
    { cbn [registry_after created_handle]. destruct (ret =? 0); [done|].
      by rewrite app_nil_r. }
    rewrite Hra in Hreg1. cbn [event_transfer dispatched] in Hdisp.
    destruct (IH w1 es' _ Hreg1 Hown1) as (Hreg' & Hown' & Hall' & Hcur'); [|done|done|].
    + intros a Ha. destruct (registry_lookup _ _ _ Hreg1 Ha) as [r' Hr'].
      unfold state_at. rewrite Hr'. cbn.
      destruct (Hrec a r' Hr') as [(r & Hr & Ho)|[(_ & ->)|(v & hh & [=] & _)]]; [|done].
      assert (a ∈ l) as Hal by by eapply registry_elem.
      specialize (Hall a Hal). unfold state_at in Hall. rewrite Hr in Hall.
      cbn in Hall. unfold outcome in Ho. congruence.
    + cbn [handles]. rewrite app_assoc. split; [done|]. split; [done|].
      split; [done|]. congruence.
Qed.

(** The initial call of the scheduler. *)
Lemma qscheduler_first fuel here w l :
  linked w l → l ≠ [] → current w = NULL → (length l ≤ fuel)%nat →
  qscheduler fuel here w =
    Done (match first_ready w l with
          | Some t => (set_current t w, SetContext t)
          | None => (w, NoSwitch)
          end).
Proof.
  intros Hl Hne Hc Hf. unfold qscheduler.
  rewrite (sched_select_first fuel w l Hl Hne Hc Hf). cbn [bind].
  destruct (first_ready w l) as [t|] eqn:Ef; [|done].
  apply first_ready_Some in Ef as (_ & _ & _ & Ht & _).
  unfold sched_switch. rewrite Hc. cbn [Z.eqb NULL]. unfold load. cbn.
  unfold state_at in Ht. by destruct (threads w !! t).
Qed.

(** ** Creation order is dispatch order *)

(** X10: after any number of calls of [qthread_create] from the initial
    world, some of which may fail, as many calls of the scheduler as
    threads were created (each made by the thread just dispatched)
    dispatch the created threads in the order of their creation. *)
Theorem dispatch_in_creation_order fuel creates heres w es :
  Forall (λ c, is_create c = true) creates →
  run fuel creates initial_world = Done (w, es) →
  length heres = length (handles created_handle creates es) →
  (length heres ≤ fuel)%nat →
  ∃ w' es', run fuel (Scheduler <$> heres) w = Done (w', es') ∧
    targets es' = handles created_handle creates es.
Proof.
  intros Hcr Hrun Hlen Hf. destruct initial_registry as [Hreg0 Hown0].
  destruct (run_creates _ _ _ _ _ _ Hreg0 Hown0 ltac:(by intros a ?%elem_of_nil) Hcr Hrun)
    as (Hreg & Hown & Hall & Hcur).
  cbn [app] in Hreg, Hall. cbn in Hcur.
  destruct (handles created_handle creates es) as [|t rest] eqn:Eh.
  - destruct heres; [|done]. eexists _, _. by split.
  - destruct heres as [|h heres]; [done|]. cbn [length] in Hlen, Hf.
    pose proof Hreg as [Hl _].
    assert (length (t :: rest) ≤ fuel)%nat as Hf' by (cbn [length]; lia).
    pose proof (qscheduler_first fuel h w (t :: rest) Hl ltac:(done) Hcur Hf') as Hs.
    cbn [first_ready] in Hs.
    rewrite (proj2 (ready_at_state w t)) in Hs
      by (apply Hall, elem_of_cons; by left).
    assert (registry (set_current t w) (t :: rest)) as Hreg1.
    { by apply (registry_agree w). }
    destruct rest as [|t2 rest].
    + destruct heres; [|done]. eexists _, _. split.
      * rewrite fmap_cons. cbn [run admissible exec]. rewrite Hs.
        cbn [bind fmap list_fmap run]. done.
      * done.
    + destruct (yields_all_ready fuel heres (set_current t w) (t :: t2 :: rest)
                  [] t (t2 :: rest) Hreg1 eq_refl eq_refl) as (w' & es' & Hrun' & Htg).
      * intros a Ha. by apply Hall.
      * done.
      * cbn [length] in *. lia.
      * cbn [length] in *. lia.
      * exists w', (Scheduled (SetContext t) :: es'). split.
        -- rewrite fmap_cons. cbn [run admissible exec].
           rewrite Hs. cbn [bind]. by rewrite Hrun'.
        -- unfold targets in *. cbn [omap list_omap event_transfer dispatched].
           fold (omap (M:=list) (λ e, dispatched (event_transfer e)) es').
           rewrite Htg. f_equal. rewrite app_nil_l.
           rewrite take_app_le by (cbn [length] in *; lia).
           apply take_ge. cbn [length] in *. lia.
Qed.

(** Three threads are created, the second creation failing in between. *)
Lemma dispatch_in_creation_order_witness :
  match run 3 [Create (env_ok 1 101) true 7 0; Create env_bad_context true 7 0;
               Create (env_ok 2 102) false 7 1; Create (env_ok 3 103) true 8 0]
          initial_world with
  | Done (w, es) =>
      ∃ w' es', run 3 (Scheduler <$> [50; 51; 52]) w = Done (w', es') ∧
        targets es' = [1; 2; 3]
  | _ => False
  end.
Proof.
  destruct (run 3 [Create (env_ok 1 101) true 7 0; Create env_bad_context true 7 0;
                   Create (env_ok 2 102) false 7 1; Create (env_ok 3 103) true 8 0]
              initial_world) as [[w es]| |] eqn:E; [|vm_compute in E; discriminate E..].
  assert (handles created_handle
            [Create (env_ok 1 101) true 7 0; Create env_bad_context true 7 0;
             Create (env_ok 2 102) false 7 1; Create (env_ok 3 103) true 8 0] es =
          [1; 2; 3]) as Hh.
  { vm_compute in E. by injection E as _ <-. }
  rewrite <- Hh.
  apply (dispatch_in_creation_order 3 _ [50; 51; 52] w es); [|exact E| |].
  - repeat constructor.
  - by rewrite Hh.
  - simpl. lia.
Defined.

(** ** Running programs *)

Lemma steps_Ended text oom rand junk fuel n status m :
  steps text oom rand junk fuel n (Ended status m) = Done (Ended status m).
Proof. by destruct n. Qed.

Lemma steps_add text oom rand junk fuel a b c :
  steps text oom rand junk fuel (a + b) c =
    let* c' := steps text oom rand junk fuel a c in steps text oom rand junk fuel b c'.
Proof.
  revert c. induction a as [|a IH]; intros c; [done|].
  destruct c as [p m|status m]; cbn [Nat.add steps].
  - destruct (step text oom rand junk fuel p m) as [c'| |]; cbn [bind]; [apply IH|done..].
  - cbn [bind]. by rewrite steps_Ended.
Qed.

(** X11: a thread whose start routine returns at once is marked FINISHED
    with result NULL by the wrapper's call of [qthread_exit]; when no other
    record is READY the scheduler returns, [qthread_exit] returns to the
    wrapper and the wrapper returns into a context whose [uc_link] is NULL:
    the process ends with status 0, nothing having been saved or
    printed. *)
Theorem last_thread_return_ends_process text oom rand junk fuel func arg m
    before c after :
  text func arg = Return →
  registry (lib m) (before ++ c :: after) → current (lib m) = c →
  (length (before ++ c :: after) ≤ fuel)%nat →
  Forall (λ a, state_at (lib m) a ≠ Some READY) (after ++ before) →
  ∃ m', steps text oom rand junk fuel 2 (Running (qthread_wrapper text func arg) m) =
          Done (Ended 0 m') ∧
    outcome <$> threads (lib m') !! c = Some (FINISHED, NULL) ∧
    current (lib m') = c ∧ points m' = points m ∧ stdout m' = stdout m.
Proof.
  intros Htext Hreg Hcur Hf Hnone. unfold qthread_wrapper. rewrite Htext.
  cbn [prog_seq steps step].
  destruct (qthread_exit_after fuel NULL (next_point m) (lib m) before c after Hreg Hcur Hf)
    as (w' & Hex & Hout & Hc').
  rewrite (proj2 (first_ready_None (lib m) (after ++ before)) Hnone) in Hex, Hc'.
  rewrite Hex. cbn [bind switch step]. eexists. split; [done|]. done.
Qed.

Lemma last_thread_return_ends_process_witness :
  ∃ m', steps (λ _ _, Return) no_oom (λ _, 0) junk0 1 2
          (Running (qthread_wrapper (λ _ _, Return) 7 0) (with_lib solo initial_machine)) =
          Done (Ended 0 m') ∧
    outcome <$> threads (lib m') !! 1 = Some (FINISHED, NULL) ∧
    current (lib m') = 1 ∧ points m' = ∅ ∧ stdout m' = [].
Proof.
  apply (last_thread_return_ends_process (λ _ _, Return) no_oom (λ _, 0) junk0 1 7 0
           (with_lib solo initial_machine) [] 1 []).
  - reflexivity.
  - compute_done.
  - reflexivity.
  - simpl. lia.
  - constructor.
Defined.

(** ** Programs that only call the library *)

(** The only addresses that a call brings into use are the two that
    [malloc] hands to [qthread_create]. *)
Lemma exec_keys fuel c w w' e l :
  registry w l → owns_stacks w → admissible c w = true →
  exec fuel c w = Done (w', e) →
  (∀ a, is_Some (threads w' !! a) →
     is_Some (threads w !! a) ∨
     ∃ env nt sr args, c = Create env nt sr args ∧ a = m_thread env) ∧
  (∀ b, is_Some (buffers w' !! b) →
     is_Some (buffers w !! b) ∨
     ∃ env nt sr args, c = Create env nt sr args ∧ b = m_stack env).
Proof.
  intros Hreg Hown Hadm Hex.
  assert (∀ w0 : world, agree stack w w0 → buffers w0 = buffers w →
            (∀ a, is_Some (threads w0 !! a) → is_Some (threads w !! a)) ∧
            (∀ b, is_Some (buffers w0 !! b) → is_Some (buffers w !! b))) as Hsame.
  { intros w0 Hag Hb. split; [|by rewrite Hb].
    intros a [r Hr]. specialize (Hag a). rewrite Hr in Hag.
    by destruct (threads w !! a). }
  assert (∀ w0 : world,
            (∀ a, is_Some (threads w0 !! a) → is_Some (threads w !! a)) ∧
            (∀ b, is_Some (buffers w0 !! b) → is_Some (buffers w !! b)) →
            (∀ a, is_Some (threads w0 !! a) →
               is_Some (threads w !! a) ∨
               ∃ env nt sr args, c = Create env nt sr args ∧ a = m_thread env) ∧
            (∀ b, is_Some (buffers w0 !! b) →
               is_Some (buffers w !! b) ∨
               ∃ env nt sr args, c = Create env nt sr args ∧ b = m_stack env)) as Hweak.
  { intros w0 [H1 H2]. split; intros x Hx; left; auto. }
  apply (exec_mono fuel (max fuel (length l))) in Hex; [|lia].
  assert (length l ≤ max fuel (length l))%nat as Hf by lia.
  revert Hex Hf. generalize (max fuel (length l)). clear fuel. intros fuel Hex Hf.
  destruct c as [size| |here|value here|env nt sr args|thread rp here]; cbn [exec] in Hex.
  - simplify_eq. by apply Hweak.
  - simplify_eq. by apply Hweak.
  - done_inv. simplify_eq. apply Hweak, Hsame.
    + by eapply qscheduler_agree.
    + by eapply qscheduler_globals.
  - done_inv. simplify_eq.
    match goal with Hq : qthread_exit _ _ _ _ = Done _ |- _ =>
      apply qthread_exit_inv in Hq as (rc & Hrc & Hs)
    end.
    cbn zeta in Hs. apply Hweak, Hsame.
    + eapply agree_trans; [|by eapply (qscheduler_agree stack)].
      intros a. cbn. destruct (decide (a = current w)) as [->|Hne].
      * by rewrite lookup_insert_eq, Hrc.
      * by rewrite lookup_insert_ne.
    + by destruct (qscheduler_globals _ _ _ _ _ Hs) as (-> & _).
  - done_inv. simplify_eq. cbn [admissible] in Hadm.
    match goal with Hq : qthread_create _ _ _ _ _ _ = Done _ |- _ => rename Hq into Hc end.
    destruct (decide (create_fails env)) as [Hfail|Hok].
    + rewrite (qthread_create_fail _ _ _ _ _ _ Hadm Hfail) in Hc. simplify_eq.
      by apply Hweak.
    + destruct (qthread_create_registry fuel env nt sr args w l Hreg Hown Hadm Hok Hf)
        as (w9 & Hcr & Hreg9 & Hown9 & Hnew & Hoth & Hb & Hss & Hcur).
      rewrite Hcr in Hc. simplify_eq. split.
      * intros a [r Hr]. destruct (decide (a = m_thread env)) as [->|Hne]; [right; eauto 10|].
        left. specialize (Hoth a Hne). rewrite Hr in Hoth.
        by destruct (threads w !! a).
      * intros b Hsome. rewrite Hb in Hsome.
        destruct (decide (b = m_stack env)) as [->|Hne]; [right; eauto 10|].
        left. by rewrite lookup_insert_ne in Hsome.
  - done_inv. simplify_eq.
    match goal with Hq : qthread_join _ _ _ _ _ = Done _ |- _ => rename Hq into Hj end.
    assert (∃ r, threads w !! thread = Some r) as [r Hr].
    { unfold qthread_join in Hj. done_inv. eauto. }
    destruct (decide (state r = FINISHED)) as [Hfin|Hnf].
    + assert (thread ∈ l) as Hin by by eapply registry_elem.
      apply list_elem_of_split_l in Hin as (l1 & l2 & -> & Hn1).
      destruct (qthread_join_done fuel thread rp here w l1 l2 r Hreg Hown Hr Hfin Hf)
        as (w9 & Hjd & Hreg9 & Hown9 & Hgone & Hoth & Hb & Hss & Hcur).
      rewrite Hjd in Hj. simplify_eq. apply Hweak. split.
      * intros a [r' Hr']. destruct (decide (a = thread)) as [->|Hne]; [eauto|].
        specialize (Hoth a Hne). rewrite Hr' in Hoth. by destruct (threads w !! a).
      * intros b Hsome. rewrite Hb in Hsome. destruct (stack r =? NULL); [done|].
        apply lookup_delete_is_Some in Hsome as [_ ?]. done.
    + rewrite (qthread_join_wait _ _ _ _ _ _ Hr Hnf) in Hj. done_inv. simplify_eq.
      apply Hweak, Hsame.
      * by eapply qscheduler_agree.
      * by eapply qscheduler_globals.
Qed.

Lemma lib_wf_mono w nb nb' : lib_wf w nb → nb ≤ nb' → lib_wf w nb'.
Proof.
  intros (Hreg & Hown & Hnr & H0 & Hfresh) Hle.
  split; [done|]. split; [done|]. split; [done|]. split; [lia|].
  intros a Ha. apply Hfresh. lia.
Qed.

(** A call of the library from a well-formed world. *)
Lemma exec_lib_wf fuel c w w' e nb nb' :
  lib_wf w nb → nb ≤ nb' → admissible c w = true →
  (∀ env nt sr args, c = Create env nt sr args →
     m_thread env < nb' ∧ m_stack env < nb') →
  exec fuel c w = Done (w', e) → lib_wf w' nb'.
Proof.
  intros ([l Hreg] & Hown & Hnr & H0 & Hfresh) Hle Hadm Hnew Hex.
  destruct (exec_step _ _ _ _ _ _ Hreg Hown Hadm Hex) as (Hreg' & Hown' & _).
  pose proof (exec_no_running _ _ _ _ _ _ Hreg Hown Hadm Hex Hnr) as Hnr'.
  destruct (exec_keys _ _ _ _ _ _ Hreg Hown Hadm Hex) as [Hkt Hkb].
  split; [eauto|]. split; [done|]. split; [done|]. split; [lia|].
  intros a Ha. split.
  - destruct (threads w' !! a) as [r|] eqn:E; [|done].
    destruct (Hkt a ltac:(eauto)) as [[r0 Hr0]|(env & nt & sr & args & -> & ->)].
    + destruct (Hfresh a ltac:(lia)) as [Hn _]. congruence.
    + destruct (Hnew _ _ _ _ eq_refl). lia.
  - destruct (buffers w' !! a) as [n|] eqn:E; [|done].
    destruct (Hkb a ltac:(eauto)) as [[n0 Hn0]|(env & nt & sr & args & -> & ->)].
    + destruct (Hfresh a ltac:(lia)) as [_ Hn]. congruence.
    + destruct (Hnew _ _ _ _ eq_refl). lia.
Qed.

Lemma api_only_seq p q : api_only p → api_only q → api_only (prog_seq p q).
Proof.
  intros Hp Hq. induction Hp; cbn [prog_seq]; try (constructor; auto; fail).
  done.
Qed.

Section Machine_invariant.

Variable text : Z → Z → prog.
Variable oom : nat → bool.
Variable rand : nat → Z.
Variable junk : thread_t.
Variable fuel : nat.
Hypothesis text_ok : ∀ func arg, api_only (text func arg).

Lemma resume_api t m p :
  points_ok m → resume text t m = Done p → api_only p.
Proof.
  intros Hpts. unfold resume. intros H. done_inv.
  destruct (uc_mcontext (context a)) as [func arg|point].
  - simplify_eq. apply api_only_seq; [apply text_ok|repeat constructor].
  - destruct (points m !! point) as [k|] eqn:E; [|done]. simplify_eq. by eapply Hpts.
Qed.

Lemma switch_wf tr here k m c :
  lib_wf (lib m) (next_block m) → points_ok m → api_only k →
  switch text tr here k m = Done c →
  lib_wf (lib (machine_of c)) (next_block (machine_of c)) ∧ points_ok (machine_of c) ∧
  match c with Running p _ => api_only p | Ended _ _ => True end.
Proof.
  intros Hwf Hpts Hk. destruct tr as [|t|prev t]; cbn [switch]; intros H.
  - by simplify_eq.
  - done_inv. simplify_eq. cbn. split; [done|]. split; [done|]. by eapply resume_api.
  - done_inv. simplify_eq. cbn.
    assert (points_ok (with_points (<[here:=k]> (points m)) m)) as Hpts'.
    { intros point k'. cbn. destruct (decide (point = here)) as [->|Hne].
      - rewrite lookup_insert_eq. by intros [= <-].
      - rewrite lookup_insert_ne by done. apply Hpts. }
    split; [done|]. split; [done|]. by eapply resume_api.
Qed.

(** One statement of a program that uses only the functions of the
    library keeps the world well formed. *)
Lemma step_wf p m c :
  lib_wf (lib m) (next_block m) → points_ok m → api_only p →
  step text oom rand junk fuel p m = Done c →
  lib_wf (lib (machine_of c)) (next_block (machine_of c)) ∧ points_ok (machine_of c) ∧
  match c with Running p' _ => api_only p' | Ended _ _ => True end.
Proof.
  intros Hwf Hpts Hp Hs.
  destruct Hp; cbn [step] in Hs.
  - by simplify_eq.
  - done.
  - by simplify_eq.
  - by simplify_eq.
  - by simplify_eq.
  - unfold machine_malloc in Hs. destruct (oom (mallocs m)); simplify_eq; cbn.
    + done.
    + destruct (next_block m =? NULL); cbn;
        (split; [|done]; eapply lib_wf_mono; [done|]; lia).
  - destruct (ints m !! p) as [[v|]|]; [|done..]. by simplify_eq.
  - destruct (ints m !! p); [|done]. by simplify_eq.
  - destruct (p =? NULL); [by simplify_eq|].
    destruct (ints m !! p); [|done]. by simplify_eq.
  - by simplify_eq.
  - by simplify_eq.
  - by simplify_eq.
  - simplify_eq. cbn. split; [done|]. split; [done|].
    apply api_only_seq; [done|by constructor].
  - simplify_eq. cbn. split; [|done].
    apply (exec_lib_wf fuel (SetStacksize size) (lib m) _ Returned (next_block m));
      [done|lia|done|done|done].
  - by simplify_eq.
  - done_inv. eapply switch_wf; [| |done|done]; [|done].
    cbn. eapply (exec_lib_wf fuel (Scheduler (next_point m)) (lib m) _ _ (next_block m));
      [done|lia|done|done|].
    cbn [exec]. match goal with Hq : qscheduler _ _ _ = _ |- _ => rewrite Hq end. done.
  - done_inv. eapply switch_wf; [| |done|done]; [|done].
    cbn. eapply (exec_lib_wf fuel (Exit value (next_point m)) (lib m) _ _ (next_block m));
      [done|lia|done|done|].
    cbn [exec]. match goal with Hq : qthread_exit _ _ _ _ = _ |- _ => rewrite Hq end. done.
  - destruct (create_env oom junk m) as [env m1] eqn:Eenv.
    done_inv. simplify_eq. cbn.
    assert (lib m1 = lib m ∧ points m1 = points m ∧ next_block m ≤ next_block m1 ∧
            env_fresh env (lib m) = true ∧
            m_thread env < next_block m1 ∧ m_stack env < next_block m1)
      as (Hl1 & Hp1 & Hnb & Hfr & Ht & Hst).
    { destruct Hwf as (_ & _ & _ & H0 & Hfresh).
      unfold create_env, machine_malloc in Eenv.
      destruct (oom (mallocs m)); cbn in Eenv.
      - simplify_eq. cbn. repeat split; try done; unfold NULL; lia.
      - rewrite (proj2 (Z.eqb_neq (next_block m) NULL)) in Eenv by (unfold NULL; lia).
        destruct (oom (S (mallocs m))); cbn in Eenv; simplify_eq; cbn.
        + repeat split; try done; try (unfold NULL; lia).
          apply env_fresh_spec. cbn. split; [|done]. intros _. apply Hfresh. lia.
        + repeat split; try done; try lia.
          apply env_fresh_spec. cbn. split; intros _; apply Hfresh; lia. }
    split; [|split; [intros point k'; cbn; rewrite Hp1; apply Hpts|done]].
    rewrite Hl1 in *.
    eapply (exec_lib_wf fuel (Create env new_thread start_routine args) (lib m) _ _
              (next_block m)); [done|done|done| |].
    + by intros ? ? ? ? [= <- _ _ _].
    + cbn [exec]. match goal with Hq : qthread_create _ _ _ _ _ _ = _ |- _ => rewrite Hq end.
      done.
  - done_inv.
    match goal with Hq : qthread_join _ _ _ _ _ = Done (?w, ?j) |- _ =>
      assert (lib_wf w (next_block m)) as Hwf';
        [eapply (exec_lib_wf fuel (Join thread retval_ptr (next_point m)) (lib m) _ _
                   (next_block m)); [done|lia|done|done|];
         cbn [exec]; rewrite Hq; done|];
      destruct j as [tr|ret out]
    end.
    + eapply switch_wf; [| |by constructor|done]; done.
    + by simplify_eq.
Qed.

Lemma steps_wf n p m c :
  lib_wf (lib m) (next_block m) → points_ok m → api_only p →
  steps text oom rand junk fuel n (Running p m) = Done c →
  lib_wf (lib (machine_of c)) (next_block (machine_of c)).
Proof.
  revert p m. induction n as [|n IH]; intros p m Hwf Hpts Hp Hs.
  - cbn in Hs. by simplify_eq.
  - cbn [steps] in Hs. done_inv.
    match goal with Hq : step _ _ _ _ _ _ _ = Done ?c1 |- _ =>
      destruct (step_wf _ _ _ Hwf Hpts Hp Hq) as (Hwf1 & Hpts1 & Hp1);
      destruct c1 as [p1 m1|status m1]
    end.
    + by eapply IH.
    + rewrite steps_Ended in Hs. by simplify_eq.
Qed.

End Machine_invariant.

(** X12: run any program that touches the library only through its
    functions, whatever the start routines do, whichever allocations fail
    and however control moves between the threads: at every point of the run
    the registry is a single circular list holding exactly the live
    records, every record owns its stack, and no record is RUNNING. *)
Theorem api_clients_keep_registry text oom rand junk fuel n p c :
  (∀ func arg, api_only (text func arg)) → api_only p →
  steps text oom rand junk fuel n (Running p initial_machine) = Done c →
  (∃ l, registry (lib (machine_of c)) l) ∧ owns_stacks (lib (machine_of c)) ∧
  no_running (lib (machine_of c)).
Proof.
  intros Htext Hp Hs.
  destruct (steps_wf text oom rand junk fuel Htext n p initial_machine c) as (? & ? & ? & _);
    try done.
  - destruct initial_registry as [Hreg0 Hown0]. split; [by exists []|]. split; [done|].
    split; [intros a; unfold state_at; cbn; by rewrite lookup_empty|]. split; [done|].
    intros a _. cbn. by rewrite !lookup_empty.
Qed.

Lemma api_only_example_text func arg : api_only (Example.text func arg).
Proof.
  unfold Example.text. destruct (func =? Example.thread_function_fn); [|constructor].
  unfold Example.thread_function. cbn [for_]. repeat (constructor; intros).
Qed.

Lemma api_only_example_main : api_only Example.main.
Proof.
  unfold Example.main.
  repeat first [ progress (constructor; intros)
               | match goal with |- api_only (Example.join ?t _) => destruct t; cbn [Example.join] end ].
Qed.

Lemma api_clients_keep_registry_witness :
  match steps Example.text no_oom (λ _, 0) junk0 3 40 (Running Example.main initial_machine) with
  | Done c =>
      (∃ l, registry (lib (machine_of c)) l) ∧ owns_stacks (lib (machine_of c)) ∧
      no_running (lib (machine_of c))
  | _ => False
  end.
Proof.
  destruct (steps Example.text no_oom (λ _, 0) junk0 3 40 (Running Example.main initial_machine))
    as [c| |] eqn:E; [|vm_compute in E; discriminate E..].
  apply (api_clients_keep_registry Example.text no_oom (λ _, 0) junk0 3 40 Example.main c
           api_only_example_text api_only_example_main E).
Defined.

(** ** The demonstration program *)

(** X13: the demonstration program ends with status 0 after the workers
    1, 2, 3 and 5 have printed their line three times each, in turn, and
    [main] has printed the results 100, 200 and 300, the error of worker 4,
    the result 500 and its last line. *)
Theorem demo_main_results rand junk fuel :
  (6 ≤ fuel)%nat →
  ∃ n m, steps Demo.text no_oom rand junk fuel n (Running Demo.main initial_machine) =
           Done (Ended 0 m) ∧
    stdout m =
      mjoin (replicate 3 ((λ id, ("Worker %d: working...", [id])) <$> [1; 2; 3; 5])) ++
      [("Thread %d: Result = %d", [1; 100]); ("Thread %d: Result = %d", [2; 200]);
       ("Thread %d: Result = %d", [3; 300]); ("Thread %d: ERROR", [4]);
       ("Thread %d: Result = %d", [5; 500]); ("All workers completed", [])] ∧
    stderr m = [].
Proof.
  intros Hf. do 6 (destruct fuel as [|fuel]; [lia|]). clear Hf.
  exists 400%nat. eexists. split; [vm_compute; reflexivity|]. split; reflexivity.
Qed.

Lemma demo_main_results_witness :
  ∃ n m, steps Demo.text no_oom (λ _, 0) junk0 6 n (Running Demo.main initial_machine) =
           Done (Ended 0 m) ∧
    stdout m =
      mjoin (replicate 3 ((λ id, ("Worker %d: working...", [id])) <$> [1; 2; 3; 5])) ++
      [("Thread %d: Result = %d", [1; 100]); ("Thread %d: Result = %d", [2; 200]);
       ("Thread %d: Result = %d", [3; 300]); ("Thread %d: ERROR", [4]);
       ("Thread %d: Result = %d", [5; 500]); ("All workers completed", [])] ∧
    stderr m = [].
Proof. apply (demo_main_results (λ _, 0) junk0 6). lia. Defined.

(** X14: the first six statements of [main] build the world of
    [main_incorporate]. Because [main_thread] is the head of the list and
    READY, the first call of the scheduler in [main] resumes the context
    of [main_thread] itself: [main] runs again from the return of
    [getcontext], with the five workers registered. It registers itself
    again, which drops them from the list, and creates five more. When
    the program ends the first five are still allocated and READY and have
    never run. *)
Theorem demo_first_dispatch_restarts_main rand junk fuel :
  (6 ≤ fuel)%nat →
  ∃ p0 m0 m1 n m2,
    steps Demo.text no_oom rand junk fuel 6 (Running Demo.main initial_machine) =
      Done (Running p0 m0) ∧
    main_incorporate 1 junk 0 0 initial_world = Done (lib m0) ∧
    steps Demo.text no_oom rand junk fuel 23 (Running Demo.main initial_machine) =
      Done (Running (Demo.main_from_getcontext 1 0) m1) ∧
    stdout m1 = [] ∧ current (lib m1) = 1 ∧
    registry (lib m1) [1; 3; 6; 9; 12; 15] ∧
    steps Demo.text no_oom rand junk fuel n (Running Demo.main initial_machine) =
      Done (Ended 0 m2) ∧
    linked (lib m2) [1] ∧ mallocs m2 = 34%nat ∧
    Forall (never_ran Demo.worker_thread_fn m2) [3; 6; 9; 12; 15].
Proof.
  intros Hf. do 6 (destruct fuel as [|fuel]; [lia|]). clear Hf.
  eexists _, _, _, 400%nat, _.
  split; [vm_compute; reflexivity|]. split; [vm_compute; reflexivity|].
  split; [vm_compute; reflexivity|]. split; [reflexivity|]. split; [reflexivity|].
  split; [compute_done|].
  split; [vm_compute; reflexivity|]. split; [compute_done|]. split; [reflexivity|].
  repeat (apply Forall_cons; split; [vm_compute; eauto 10|]).
  by apply Forall_nil.
Qed.

Lemma demo_first_dispatch_restarts_main_witness :
  ∃ p0 m0 m1 n m2,
    steps Demo.text no_oom (λ _, 0) junk0 6 6 (Running Demo.main initial_machine) =
      Done (Running p0 m0) ∧
    main_incorporate 1 junk0 0 0 initial_world = Done (lib m0) ∧
    steps Demo.text no_oom (λ _, 0) junk0 6 23 (Running Demo.main initial_machine) =
      Done (Running (Demo.main_from_getcontext 1 0) m1) ∧
    stdout m1 = [] ∧ current (lib m1) = 1 ∧
    registry (lib m1) [1; 3; 6; 9; 12; 15] ∧
    steps Demo.text no_oom (λ _, 0) junk0 6 n (Running Demo.main initial_machine) =
      Done (Ended 0 m2) ∧
    linked (lib m2) [1] ∧ mallocs m2 = 34%nat ∧
    Forall (never_ran Demo.worker_thread_fn m2) [3; 6; 9; 12; 15].
Proof. apply (demo_first_dispatch_restarts_main (λ _, 0) junk0 6). lia. Defined.

(** ** The example main.c *)

(** X15: in main.c the host is not in the list. The first join enters
    thread 1 with [setcontext], so that nothing is saved for [main]. The
    three threads print their five lines in turn; when the last of them
    returns, the process ends with status 0 inside that thread. The last
    line of [main] is never printed and no join completes: the three
    records, FINISHED with result NULL, and their stacks are still
    allocated. *)
Theorem example_main_ends_in_thread rand junk fuel :
  (3 ≤ fuel)%nat →
  ∃ m1 n m,
    steps Example.text no_oom rand junk fuel 11 (Running Example.main initial_machine) =
      Done (Running (qthread_wrapper Example.text Example.thread_function_fn 1) m1) ∧
    points m1 = ∅ ∧ current (lib m1) = 4 ∧
    steps Example.text no_oom rand junk fuel n (Running Example.main initial_machine) =
      Done (Ended 0 m) ∧
    stdout m =
      mjoin ((λ i, (λ id, ("Thread %d (self: %p): iteration %d", [id; 2 * id + 2; i]))
                     <$> [1; 2; 3]) <$> [0; 1; 2; 3; 4]) ∧
    registry (lib m) [4; 6; 8] ∧
    Forall (finished_unjoined NULL m) [4; 6; 8].
Proof.
  intros Hf. do 3 (destruct fuel as [|fuel]; [lia|]). clear Hf.
  eexists _, 200%nat, _.
  split; [vm_compute; reflexivity|]. split; [reflexivity|]. split; [reflexivity|].
  split; [vm_compute; reflexivity|]. split; [reflexivity|]. split; [compute_done|].
  repeat (apply Forall_cons; split; [vm_compute; eauto 10|]).
  by apply Forall_nil.
Qed.

Lemma example_main_ends_in_thread_witness :
  ∃ m1 n m,
    steps Example.text no_oom (λ _, 0) junk0 3 11 (Running Example.main initial_machine) =
      Done (Running (qthread_wrapper Example.text Example.thread_function_fn 1) m1) ∧
    points m1 = ∅ ∧ current (lib m1) = 4 ∧
    steps Example.text no_oom (λ _, 0) junk0 3 n (Running Example.main initial_machine) =
      Done (Ended 0 m) ∧
    stdout m =
      mjoin ((λ i, (λ id, ("Thread %d (self: %p): iteration %d", [id; 2 * id + 2; i]))
                     <$> [1; 2; 3]) <$> [0; 1; 2; 3; 4]) ∧
    registry (lib m) [4; 6; 8] ∧
    Forall (finished_unjoined NULL m) [4; 6; 8].
Proof. apply (example_main_ends_in_thread (λ _, 0) junk0 3). lia. Defined.

(** ** The example irq.c *)

(** One turn of the loop of [interrupt_simulator]. *)
Lemma irq_iteration oom rand junk fuel m :
  0 ≤ rand (rands m) →
  steps Irq.text oom rand junk fuel 4 (Running (Forever Irq.simulate_one) m) =
    Done (Running (Forever Irq.simulate_one)
            (with_stdout (stdout m ++ [irq_line (rand (rands m))])
               (with_rands (S (rands m)) m))).
Proof.
  intros Hr. cbn [steps step bind prog_seq Irq.simulate_one].
  set (r := rand (rands m)) in *.
  assert (Z.rem r Irq.NUM_IRQ = r `mod` 4) as -> by (apply Z.rem_mod_nonneg; [done|done]).
  unfold irq_line.
  assert (r `mod` 4 = 0 ∨ r `mod` 4 = 1 ∨ r `mod` 4 = 2 ∨ r `mod` 4 = 3) as Hcases
    by (pose proof (Z.mod_pos_bound r 4); lia).
  destruct Hcases as [E|[E|[E|E]]]; rewrite E; reflexivity.
Qed.

Lemma irq_loop oom rand junk fuel n m :
  (∀ i, 0 ≤ rand i) →
  ∃ m', steps Irq.text oom rand junk fuel (4 * n) (Running (Forever Irq.simulate_one) m) =
          Done (Running (Forever Irq.simulate_one) m') ∧
    stdout m' = stdout m ++ ((λ i, irq_line (rand i)) <$> seq (rands m) n) ∧
    lib m' = lib m.
Proof.
  intros Hr. revert m. induction n as [|n IH]; intros m.
  - exists m. cbn. by rewrite app_nil_r.
  - replace (4 * S n)%nat with (4 + 4 * n)%nat by lia.
    rewrite steps_add, (irq_iteration _ _ _ _ _ (Hr _)). cbn [bind].
    destruct (IH (with_stdout (stdout m ++ [irq_line (rand (rands m))])
                    (with_rands (S (rands m)) m))) as (m' & Hs & Ho & Hl).
    exists m'. split; [done|]. split; [|done].
    rewrite Ho. cbn [stdout rands with_stdout with_rands seq fmap list_fmap].
    by rewrite <- app_assoc.
Qed.

(** X16: in irq.c, when one of the two allocations of [qthread_create]
    fails, [main] prints its error and ends the process with EXIT_FAILURE,
    nothing being allocated. Otherwise the call of the scheduler enters the
    simulator, which never yields: turn after turn it prints the line of
    handler [rand() % 4], always inside the vector, and the process never
    ends; [main] never returns. *)
Theorem irq_main_never_returns oom rand junk fuel :
  (∀ i, 0 ≤ rand i) →
  (oom 0%nat = true ∨ oom 1%nat = true →
   ∃ m, steps Irq.text oom rand junk fuel 3 (Running Irq.main initial_machine) =
          Done (Ended EXIT_FAILURE m) ∧
     stderr m = [("Error creating thread", [])] ∧ stdout m = [] ∧
     lib m = initial_world) ∧
  (oom 0%nat = false → oom 1%nat = false → (1 ≤ fuel)%nat →
   (∀ n, ∃ m, steps Irq.text oom rand junk fuel (3 + 4 * n)
                (Running Irq.main initial_machine) =
                Done (Running (Forever Irq.simulate_one) m) ∧
           stdout m = (λ i, irq_line (rand i)) <$> seq 0 n ∧
           current (lib m) = 1 ∧ state_at (lib m) 1 = Some READY) ∧
   (∀ n status m, steps Irq.text oom rand junk fuel n
                    (Running Irq.main initial_machine) ≠ Done (Ended status m))).
Proof.
  intros Hr. split.
  - intros Hoom.
    destruct (oom 0%nat) eqn:E0.
    + eexists. unfold steps, step, Irq.main, create_env, machine_malloc.
      cbn [mallocs initial_machine]. rewrite E0. vm_compute. done.
    + destruct Hoom as [|E1]; [done|].
      eexists. unfold steps, step, Irq.main, create_env, machine_malloc.
      cbn [mallocs initial_machine with_mallocs with_next_block]. rewrite E0.
      cbn [mallocs initial_machine with_mallocs with_next_block]. rewrite E1.
      vm_compute. done.
  - intros E0 E1 Hf.
    assert (∃ m0, steps Irq.text oom rand junk fuel 3 (Running Irq.main initial_machine) =
                    Done (Running (Forever Irq.simulate_one) m0) ∧
              stdout m0 = [] ∧ rands m0 = 0%nat ∧
              current (lib m0) = 1 ∧ state_at (lib m0) 1 = Some READY)
      as (m0 & Hs0 & Ho0 & Hr0 & Hc0 & Hst0).
    { destruct fuel as [|fuel]; [lia|].
      eexists. unfold steps, step, Irq.main, create_env, machine_malloc.
      cbn [mallocs initial_machine with_mallocs with_next_block]. rewrite E0.
      cbn [mallocs initial_machine with_mallocs with_next_block]. rewrite E1.
      vm_compute. done. }
    assert (∀ n, ∃ m, steps Irq.text oom rand junk fuel (3 + 4 * n)
                        (Running Irq.main initial_machine) =
                        Done (Running (Forever Irq.simulate_one) m) ∧
              stdout m = (λ i, irq_line (rand i)) <$> seq 0 n ∧
              current (lib m) = 1 ∧ state_at (lib m) 1 = Some READY) as Hloop.
    { intros n. destruct (irq_loop oom rand junk fuel n m0 Hr) as (m & Hs & Ho & Hl).
      exists m. rewrite steps_add, Hs0. cbn [bind]. split; [done|].
      rewrite Ho, Ho0, Hr0, Hl. done. }
    split; [done|].
    intros n status m Hend. destruct (Hloop n) as (m' & Hs & _).
    replace (3 + 4 * n)%nat with (n + (3 + 3 * n))%nat in Hs by lia.
    rewrite steps_add, Hend in Hs. cbn [bind] in Hs. by rewrite steps_Ended in Hs.
Qed.

Lemma irq_main_never_returns_witness :
  ∃ m, steps Irq.text no_oom Z.of_nat junk0 1 15 (Running Irq.main initial_machine) =
         Done (Running (Forever Irq.simulate_one) m) ∧
    stdout m = [irq_line 0; irq_line 1; irq_line 2].
Proof.
  destruct (irq_main_never_returns no_oom Z.of_nat junk0 1) as [_ H]; [lia|].
  destruct H as [Hloop _]; [reflexivity|reflexivity|lia|].
  destruct (Hloop 3%nat) as (m & Hs & Ho & _). exists m. split; [exact Hs|exact Ho].
Defined.

(** ** Context switches *)

(** X17: the initial call of the scheduler, made directly or from the
    waiting loop of a join, enters the first READY record [t] of the list
    with [setcontext]: the code of [t] runs and nothing is saved, so the
    code that follows the call is dropped. When the host is not in the
    list, as in main.c, it never runs again; when the host is the head of
    the list, as in the demonstration program, [t] is the host itself and
    it runs again from the return of its [getcontext]. *)
Theorem initial_dispatch_drops_caller text oom rand junk fuel m l t p :
  registry (lib m) l → l ≠ [] → current (lib m) = NULL → (length l ≤ fuel)%nat →
  first_ready (lib m) l = Some t → resume text t m = Done p →
  (∀ k, step text oom rand junk fuel (CallScheduler k) m =
          Done (Running p (entered t m))) ∧
  (∀ thread retval_ptr k r,
     threads (lib m) !! thread = Some r → state r ≠ FINISHED →
     step text oom rand junk fuel (CallJoin thread retval_ptr k) m =
       Done (Running p (entered t m))) ∧
  points (entered t m) = points m ∧ current (lib (entered t m)) = t.
Proof.
  intros [Hl _] Hne Hcur Hf Hfirst Hres.
  pose proof (qscheduler_first fuel (next_point m) (lib m) l Hl Hne Hcur Hf) as Hs.
  rewrite Hfirst in Hs.
  assert (resume text t (entered t m) = Done p) as Hres' by exact Hres.
  split; [|split; [|done]].
  - intros k. cbn [step]. rewrite Hs. cbn [bind switch].
    change (with_lib _ _) with (entered t m). by rewrite Hres'.
  - intros thread rp k r Hr Hnf. cbn [step].
    rewrite (qthread_join_wait _ _ _ _ _ _ Hr Hnf), Hs. cbn [bind switch].
    change (with_lib _ _) with (entered t m). by rewrite Hres'.
Qed.

(** The registered host of [hosted_machine] calls the scheduler. *)
Lemma initial_dispatch_drops_caller_witness :
  (∀ k, step (λ _ _, Return) no_oom (λ _, 0) junk0 1 (CallScheduler k) hosted_machine =
          Done (Running Return (entered 1 hosted_machine))) ∧
  (∀ thread retval_ptr k r,
     threads (lib hosted_machine) !! thread = Some r → state r ≠ FINISHED →
     step (λ _ _, Return) no_oom (λ _, 0) junk0 1 (CallJoin thread retval_ptr k)
       hosted_machine =
       Done (Running Return (entered 1 hosted_machine))) ∧
  points (entered 1 hosted_machine) = points hosted_machine ∧
  current (lib (entered 1 hosted_machine)) = 1.
Proof.
  apply (initial_dispatch_drops_caller (λ _ _, Return) no_oom (λ _, 0) junk0 1
           hosted_machine [1] 1 Return).
  - compute_done.
  - discriminate.
  - reflexivity.
  - simpl. lia.
  - reflexivity.
  - reflexivity.
Defined.

Lemma first_ready_only w l t :
  t ∈ l → state_at w t = Some READY →
  (∀ a, a ∈ l → a ≠ t → state_at w a ≠ Some READY) →
  first_ready w l = Some t.
Proof.
  intros Hin Ht Hothers. apply first_ready_Some.
  apply list_elem_of_split_l in Hin as (l1 & l2 & -> & Hn1).
  exists l1, l2. split; [done|]. split; [done|].
  apply Forall_forall. intros a Ha. apply Hothers.
  - apply elem_of_app. by left.
  - by intros ->.
Qed.

(** The running thread [c] calls the scheduler when [t] is the only other
    READY record: control goes to the code of [t], and the code that [c]
    has left is what a later resumption of [c] runs. *)
Lemma swap_to_only_ready text fuel k m before c after t p rc :
  linked (lib m) (before ++ c :: after) → current (lib m) = c →
  (length (before ++ c :: after) ≤ fuel)%nat →
  threads (lib m) !! c = Some rc →
  t ∈ after ++ before → state_at (lib m) t = Some READY →
  (∀ a, a ∈ after ++ before → a ≠ t → state_at (lib m) a ≠ Some READY) →
  resume text t m = Done p → points_fresh m →
  qscheduler fuel (next_point m) (lib m) =
    Done (lib (swapped k c t rc m), SwapContext c t) ∧
  switch text (SwapContext c t) (next_point m) k
    (with_lib (lib (swapped k c t rc m)) (with_next_point (next_point m + 1) m)) =
    Done (Running p (swapped k c t rc m)) ∧
  resume text c (swapped k c t rc m) = Done k ∧
  points_fresh (swapped k c t rc m).
Proof.
  intros Hl Hcur Hf Hrc Htin Ht Hothers Hres Hfresh.
  assert (t ≠ c) as Htc.
  { intros ->. destruct Hl as (Hnd & _).
    apply NoDup_app in Hnd as (_ & Hdisj & Hnd2). apply NoDup_cons in Hnd2 as [Hca _].
    apply elem_of_app in Htin as [?|Hb]; [done|]. apply (Hdisj _ Hb).
    apply elem_of_cons. by left. }
  pose proof (qscheduler_after fuel (next_point m) (lib m) before c after rc Hl Hcur Hrc Hf)
    as Hs.
  rewrite (first_ready_only _ _ t Htin Ht Hothers) in Hs.
  split; [exact Hs|].
  assert (resume text t (swapped k c t rc m) = Done p) as Hres'.
  { revert Hres. unfold resume, load, swapped.
    cbn [lib with_points with_lib points threads with_threads].
    rewrite lookup_insert_ne by done.
    destruct (threads (lib m) !! t) as [rt|]; [|done]. cbn [bind].
    destruct (uc_mcontext (context rt)) as [func arg|point]; [done|].
    destruct (points m !! point) as [k'|] eqn:Ek; [|done]. intros [= ->].
    assert (point ≠ next_point m) as Hne.
    { intros ->. rewrite Hfresh in Ek; [done|lia]. }
    by rewrite lookup_insert_ne, Ek by done. }
  split; [|split].
  - cbn [switch]. change (with_points _ _) with (swapped k c t rc m). by rewrite Hres'.
  - unfold resume, load, swapped.
    cbn [lib with_points with_lib points threads with_threads].
    rewrite lookup_insert_eq. cbn [bind context upd_context uc_mcontext set_mcontext].
    by rewrite lookup_insert_eq.
  - intros point Hp. unfold swapped in *.
    cbn [next_point points with_points with_lib with_next_point] in *.
    rewrite lookup_insert_ne by lia. apply Hfresh. lia.
Qed.

Lemma swapped_agree {B} (f : thread_t → B) k c t rc m :
  (∀ g r, f (upd_context g r) = f r) → threads (lib m) !! c = Some rc →
  agree f (lib m) (lib (swapped k c t rc m)).
Proof.
  intros Hf Hrc a. unfold swapped. cbn [lib with_points with_lib threads with_threads].
  destruct (decide (a = c)) as [->|Hne].
  - by rewrite lookup_insert_eq, Hrc; cbn; rewrite Hf.
  - by rewrite lookup_insert_ne.
Qed.

(** Membership in a rotation of the list. *)
Lemma rotation_elem {A} (l1 l2 : list A) x y :
  y ∈ l1 ++ x :: l2 → y ≠ x → y ∈ l2 ++ l1.
Proof.
  intros [?|[?|?]%elem_of_cons]%elem_of_app Hne; [|done|]; apply elem_of_app; auto.
Qed.

Lemma rotation_elem_inv {A} (l1 l2 : list A) x y :
  y ∈ l2 ++ l1 → y ∈ l1 ++ x :: l2.
Proof.
  intros [?|?]%elem_of_app; apply elem_of_app; [right|by left].
  apply elem_of_cons. by right.
Qed.

(** X18: a yield comes back. The running thread [c] calls the scheduler
    with [k] left to do, [t] being the only other READY record; control
    goes to [t]. When [t] in turn calls the scheduler, control is back in
    [c] and the code that runs is [k]; no state or result, no output and
    no [int] has changed meanwhile. *)
Theorem yield_round_trip text oom rand junk fuel k kt m before c after t :
  registry (lib m) (before ++ c :: after) → current (lib m) = c →
  (length (before ++ c :: after) ≤ fuel)%nat →
  t ∈ after ++ before →
  state_at (lib m) c = Some READY → state_at (lib m) t = Some READY →
  (∀ a, a ∈ after ++ before → a ≠ t → state_at (lib m) a ≠ Some READY) →
  resume text t m = Done (CallScheduler kt) → points_fresh m →
  ∃ m1 m2,
    step text oom rand junk fuel (CallScheduler k) m =
      Done (Running (CallScheduler kt) m1) ∧
    current (lib m1) = t ∧
    step text oom rand junk fuel (CallScheduler kt) m1 = Done (Running k m2) ∧
    current (lib m2) = c ∧ agree outcome (lib m) (lib m2) ∧
    stdout m2 = stdout m ∧ ints m2 = ints m.
Proof.
  intros Hreg Hcur Hf Htin Hc Ht Hothers Hres Hfresh.
  set (l := before ++ c :: after) in *.
  assert (c ∈ l) as Hcin by (apply elem_of_app; right; apply elem_of_cons; by left).
  assert (t ∈ l) as Htl by by apply rotation_elem_inv.
  destruct (registry_lookup _ _ _ Hreg Hcin) as [rc Hrc].
  destruct (registry_lookup _ _ _ Hreg Htl) as [rt Hrt].
  pose proof Hreg as [Hl Hdom].
  destruct (swap_to_only_ready text fuel k m before c after t _ rc
              Hl Hcur Hf Hrc Htin Ht Hothers Hres Hfresh) as (Hs1 & Hsw1 & Hres1 & Hfresh1).
  set (m1 := swapped k c t rc m) in *.
  assert (t ≠ c) as Htc.
  { intros ->. destruct Hl as (Hnd & _).
    apply NoDup_app in Hnd as (_ & Hdisj & Hnd2). apply NoDup_cons in Hnd2 as [Hca _].
    apply elem_of_app in Htin as [?|Hb]; [done|]. apply (Hdisj _ Hb).
    apply elem_of_cons. by left. }
  pose proof (swapped_agree next k c t rc m ltac:(done) Hrc) as Hn1.
  pose proof (swapped_agree state k c t rc m ltac:(done) Hrc) as Hst1.
  pose proof (swapped_agree outcome k c t rc m ltac:(done) Hrc) as Ho1.
  fold m1 in Hn1, Hst1, Ho1.
  assert (linked (lib m1) l) as Hl1 by by apply (linked_agree (lib m)).
  assert (threads (lib m1) !! t = Some rt) as Hrt1.
  { unfold m1, swapped. cbn. by rewrite lookup_insert_ne. }
  apply list_elem_of_split_l in Htl as (b1 & a1 & Hl1' & Hn1').
  assert (NoDup l) as Hnd by by destruct Hl.
  rewrite Hl1' in Hl1, Hf, Hcin, Hnd.
  destruct (swap_to_only_ready text fuel kt m1 b1 t a1 c k rt Hl1 eq_refl Hf Hrt1)
    as (Hs2 & Hsw2 & _ & _); [| | |done|done|].
  { by apply (rotation_elem b1 a1 t). }
  { by rewrite (state_at_agree _ _ _ Hst1). }
  { intros a Ha Hac. rewrite (state_at_agree _ _ _ Hst1). apply Hothers.
    - apply (rotation_elem before after c); [|done]. fold l. rewrite Hl1'.
      by apply rotation_elem_inv.
    - intros ->. apply NoDup_app in Hnd as (_ & Hdisj & Hnd2).
      apply NoDup_cons in Hnd2 as [Hta _].
      apply elem_of_app in Ha as [?|Hb]; [done|]. apply (Hdisj _ Hb).
      apply elem_of_cons. by left. }
  exists m1, (swapped kt t c rt m1).
  split; [|split; [done|split; [|split; [done|split; [|done]]]]].
  - cbn [step]. rewrite Hs1. cbn [bind]. exact Hsw1.
  - cbn [step]. rewrite Hs2. cbn [bind]. exact Hsw2.
  - eapply agree_trans; [exact Ho1|]. by apply swapped_agree.
Qed.

(** Threads 1 and 3 of [trio]; thread 3 has not run yet and its start
    routine begins with a yield. *)
Lemma yield_round_trip_witness :
  ∃ m1 m2,
    step (λ _ _, CallScheduler Return) no_oom (λ _, 0) junk0 3
      (CallScheduler (Printf "back" [] Return)) (with_lib trio initial_machine) =
      Done (Running (CallScheduler (CallExit NULL Return)) m1) ∧
    current (lib m1) = 3 ∧
    step (λ _ _, CallScheduler Return) no_oom (λ _, 0) junk0 3
      (CallScheduler (CallExit NULL Return)) m1 =
      Done (Running (Printf "back" [] Return) m2) ∧
    current (lib m2) = 1 ∧ agree outcome (lib (with_lib trio initial_machine)) (lib m2) ∧
    stdout m2 = stdout (with_lib trio initial_machine) ∧
    ints m2 = ints (with_lib trio initial_machine).
Proof.
  apply (yield_round_trip (λ _ _, CallScheduler Return) no_oom (λ _, 0) junk0 3
           (Printf "back" [] Return) (CallExit NULL Return)
           (with_lib trio initial_machine) [] 1 [2; 3] 3).
  - compute_done.
  - reflexivity.
  - simpl. lia.
  - compute_done.
  - reflexivity.
  - reflexivity.
  - intros a [->|[->|[]%elem_of_nil]%elem_of_cons]%elem_of_cons Hne; [|done].
    vm_compute. discriminate.
  - reflexivity.
  - intros point _. reflexivity.
Defined.

(** X19: a join receives the value. The running thread [c] joins [t],
    the only other READY record, and the code of [t] begins with
    [qthread_exit(value)]: the waiting loop hands control to [t], the exit
    hands it back, and the join completes with exactly [value], the record
    of [t] being unlinked and freed. *)
Theorem join_receives_exit_value text oom rand junk fuel k kt value m before c after t :
  registry (lib m) (before ++ c :: after) → owns_stacks (lib m) →
  current (lib m) = c → (length (before ++ c :: after) ≤ fuel)%nat →
  t ∈ after ++ before →
  state_at (lib m) c = Some READY → state_at (lib m) t = Some READY →
  (∀ a, a ∈ after ++ before → a ≠ t → state_at (lib m) a ≠ Some READY) →
  resume text t m = Done (CallExit value kt) → points_fresh m →
  ∃ m3,
    steps text oom rand junk fuel 3 (Running (CallJoin t true k) m) =
      Done (Running (k 0 (Some value)) m3) ∧
    current (lib m3) = c ∧ threads (lib m3) !! t = None ∧
    registry (lib m3) (without t (before ++ c :: after)) ∧
    stdout m3 = stdout m ∧ ints m3 = ints m.
Proof.
  intros Hreg Hown Hcur Hf Htin Hc Ht Hothers Hres Hfresh.
  set (l := before ++ c :: after) in *.
  assert (c ∈ l) as Hcin by (apply elem_of_app; right; apply elem_of_cons; by left).
  assert (t ∈ l) as Htl by by apply rotation_elem_inv.
  destruct (registry_lookup _ _ _ Hreg Hcin) as [rc Hrc].
  destruct (registry_lookup _ _ _ Hreg Htl) as [rt Hrt].
  pose proof Hreg as [Hl Hdom].
  assert (NoDup l) as Hnd by by destruct Hl.
  assert (t ≠ c) as Htc.
  { intros ->. unfold l in Hnd.
    apply NoDup_app in Hnd as (_ & Hdisj & Hnd2). apply NoDup_cons in Hnd2 as [Hca _].
    apply elem_of_app in Htin as [?|Hb]; [done|]. apply (Hdisj _ Hb).
    apply elem_of_cons. by left. }
  (* the waiting loop of join hands over to [t] *)
  set (kj := CallJoin t true k).
  destruct (swap_to_only_ready text fuel kj m before c after t _ rc
              Hl Hcur Hf Hrc Htin Ht Hothers Hres Hfresh) as (Hs1 & Hsw1 & Hres1 & Hfresh1).
  set (m1 := swapped kj c t rc m) in *.
  pose proof (swapped_agree next kj c t rc m ltac:(done) Hrc) as Hn1.
  pose proof (swapped_agree state kj c t rc m ltac:(done) Hrc) as Hst1.
  pose proof (swapped_agree stack kj c t rc m ltac:(done) Hrc) as Hsk1.
  fold m1 in Hn1, Hst1, Hsk1.
  assert (threads (lib m1) !! t = Some rt) as Hrt1.
  { unfold m1, swapped. cbn. by rewrite lookup_insert_ne. }
  assert (state rt = READY) as Hrts.
  { unfold state_at in Ht. rewrite Hrt in Ht. by injection Ht. }
  (* [t] exits *)
  set (rt' := set_state FINISHED (set_retval value rt)).
  set (m1' := with_lib (with_threads (<[t := rt']> (threads (lib m1))) (lib m1)) m1).
  assert (agree next (lib m1) (lib m1') ∧ agree stack (lib m1) (lib m1')) as [Hn1' Hsk1'].
  { split; intros a; unfold m1'; cbn [lib with_lib threads with_threads];
      (destruct (decide (a = t)) as [->|Hne];
       [by rewrite lookup_insert_eq, Hrt1|by rewrite lookup_insert_ne]). }
  assert (∀ a, a ≠ t → state_at (lib m1') a = state_at (lib m) a) as Hst1'.
  { intros a Hne. rewrite <- (state_at_agree _ _ _ Hst1). unfold state_at, m1'.
    cbn [lib with_lib threads with_threads]. by rewrite lookup_insert_ne. }
  assert (linked (lib m1') l) as Hl1'.
  { apply (linked_agree (lib m1)); [by apply (linked_agree (lib m))|done|done]. }
  apply list_elem_of_split_l in Htl as (b1 & a1 & Hl1eq & Hn1e).
  rewrite Hl1eq in Hl1', Hf, Hcin, Hnd.
  assert (threads (lib m1') !! t = Some rt') as Hrt1'.
  { unfold m1'. cbn [lib with_lib threads with_threads]. by rewrite lookup_insert_eq. }
  assert (resume text c m1' = Done kj) as Hres1'.
  { revert Hres1. unfold resume, load, m1'. cbn [lib with_lib threads with_threads points].
    by rewrite lookup_insert_ne by done. }
  destruct (swap_to_only_ready text fuel kt m1' b1 t a1 c kj rt' Hl1' eq_refl Hf Hrt1')
    as (Hs2 & Hsw2 & _ & _); [| | |done|done|].
  { by apply (rotation_elem b1 a1 t). }
  { by rewrite Hst1'. }
  { intros a Ha Hac.
    assert (a ≠ t) as Hat.
    { intros ->. apply NoDup_app in Hnd as (_ & Hdisj & Hnd2).
      apply NoDup_cons in Hnd2 as [Hta _].
      apply elem_of_app in Ha as [?|Hb]; [done|]. apply (Hdisj _ Hb).
      apply elem_of_cons. by left. }
    rewrite Hst1' by done. apply Hothers; [|done].
    apply (rotation_elem before after c); [|done]. fold l. rewrite Hl1eq.
    by apply rotation_elem_inv. }
  set (m2 := swapped kt t c rt' m1') in *.
  (* back in join, the target is FINISHED *)
  pose proof (swapped_agree next kt t c rt' m1' ltac:(done) Hrt1') as Hn2.
  pose proof (swapped_agree stack kt t c rt' m1' ltac:(done) Hrt1') as Hsk2.
  fold m2 in Hn2, Hsk2.
  assert (agree next (lib m) (lib m2)) as Hn02
    by (eapply agree_trans; [|exact Hn2]; eapply agree_trans; [exact Hn1|exact Hn1']).
  assert (agree stack (lib m) (lib m2)) as Hsk02
    by (eapply agree_trans; [|exact Hsk2]; eapply agree_trans; [exact Hsk1|exact Hsk1']).
  assert (registry (lib m2) (b1 ++ t :: a1)) as Hreg2.
  { rewrite <- Hl1eq. by apply (registry_agree (lib m)). }
  assert (owns_stacks (lib m2)) as Hown2 by by apply (owns_stacks_agree (lib m)).
  assert (threads (lib m2) !! t =
          Some (upd_context (set_mcontext (Resume (next_point m1'))) rt')) as Hrt2.
  { unfold m2, swapped. cbn [lib with_points with_lib threads with_threads].
    by rewrite lookup_insert_eq. }
  destruct (qthread_join_done fuel t true (next_point m2) (lib m2) b1 a1 _
              Hreg2 Hown2 Hrt2 eq_refl Hf)
    as (w3 & Hj & Hreg3 & _ & Hgone & _ & _ & _ & Hcur3).
  exists (with_lib w3 (with_next_point (next_point m2 + 1) m2)).
  split; [|split; [|split; [done|split; [|done]]]].
  - subst kj. cbn [steps step]. unfold qthread_join at 1.
    rewrite (load_lookup _ _ _ Hrt). cbn [bind].
    rewrite Hrts. cbn [is_finished negb]. rewrite Hs1. cbn [bind]. rewrite Hsw1. cbn [bind].
    fold m1. cbn [step]. rewrite (qthread_exit_eq fuel value (next_point m1) (lib m1) rt Hrt1).
    change (qscheduler fuel (next_point m1) _) with
      (qscheduler fuel (next_point m1') (lib m1')).
    rewrite Hs2. cbn [bind].
    change (switch text (SwapContext t c) (next_point m1) kt _)
      with (switch text (SwapContext t c) (next_point m1') kt
              (with_lib (lib m2) (with_next_point (next_point m1' + 1) m1'))).
    rewrite Hsw2. cbn [bind]. fold m2. cbn [step]. rewrite Hj. done.
  - cbn [lib with_lib]. rewrite Hcur3. done.
  - fold l. rewrite Hl1eq, without_app by done. done.
Qed.

(** Thread 1 of [trio] joins thread 3, whose start routine exits with 42. *)
Lemma join_receives_exit_value_witness :
  ∃ m3,
    steps (λ _ _, CallExit 42 Return) no_oom (λ _, 0) junk0 3 3
      (Running (CallJoin 3 true (λ ret out, Printf "joined" [ret; default 0 out] Return))
         (with_lib trio initial_machine)) =
      Done (Running (Printf "joined" [0; 42] Return) m3) ∧
    current (lib m3) = 1 ∧ threads (lib m3) !! 3 = None ∧
    registry (lib m3) (without 3 ([] ++ 1 :: [2; 3])) ∧
    stdout m3 = stdout (with_lib trio initial_machine) ∧
    ints m3 = ints (with_lib trio initial_machine).
Proof.
  apply (join_receives_exit_value (λ _ _, CallExit 42 Return) no_oom (λ _, 0) junk0 3
           (λ ret out, Printf "joined" [ret; default 0 out] Return) (CallExit NULL Return)
           42 (with_lib trio initial_machine) [] 1 [2; 3] 3).
  - compute_done.
  - compute_done.
  - reflexivity.
  - simpl. lia.
  - compute_done.
  - reflexivity.
  - reflexivity.
  - intros a [->|[->|[]%elem_of_nil]%elem_of_cons]%elem_of_cons Hne; [|done].
    vm_compute. discriminate.
  - reflexivity.
  - intros point _. reflexivity.
Defined.
